(** * VFM: a variational factorization machine (src/vfm.py)

    A shallow embedding of the [VFM] chain: its constructor, the cached
    diagonal-exclusion mask and the forward / loss computation.

    Conventions of the embedding
    - float32 scalars are idealised as real numbers ([R]); rounding, overflow
      and NaN are outside the model;
    - an array is a nested list of rows; a trailing axis of extent one
      (the [(n_features, 1)] slope table, the [(1,)] bias, the [(1,1,1)]
      slope prior) is stored without that axis;
    - an exception is an [Err] result; the mutable attributes of [self] and
      the reporter are threaded as an explicit state, and a state change made
      before an exception survives it, as in Python;
    - the random draws of [F.gaussian] and of [np.random.randn] are an
      explicit argument, indexed by position;
    - an array object carries the identity it got when it was allocated, so
      that "the same tensor" can be told from "an equal tensor";
    - the operations of the array library ([chainer.functions], [numpy]) are
      not part of the repository; they are embedded from their documented
      behaviour: arithmetic between two variables type-checks equal shapes,
      multiplication of a variable by an array constant broadcasts the
      constant to the shape of the variable, an embedding lookup past the
      table raises, a batched matrix product rejects an operand with no
      rows or no slots;
    - Python's [/] raises on a zero divisor;
    - feature indices are natural numbers, as the input contract has them. *)

From Stdlib Require Import Reals Lra Lia List Bool Arith ZArith.
Import ListNotations.
Open Scope R_scope.

(** ** Results and exceptions *)

Inductive error : Type :=
| ShapeMismatch   (* a shape the array library rejects: chainer type check,
                     numpy broadcasting, an empty operand of batch_matmul *)
| IndexError      (* embedding lookup outside the table *)
| TypeError       (* a size that is not a number *)
| ValueError      (* negative dimension at allocation *)
| ZeroDivisionError.  (* Python division by zero *)

Inductive result (A : Type) : Type :=
| Ok (a : A)
| Err (e : error).

Arguments Ok {A} a.
Arguments Err {A} e.

Definition rbind {A B} (r : result A) (k : A -> result B) : result B :=
  match r with
  | Ok a => k a
  | Err e => Err e
  end.

Declare Scope res_scope.
Delimit Scope res_scope with res.
Notation "x <- r ;; k" := (rbind r (fun x => k))
  (at level 61, r at next level, right associativity) : res_scope.

Definition is_ok {A} (r : result A) : bool :=
  match r with Ok _ => true | Err _ => false end.

(** ** Arrays *)

Definition vec := list R.
Definition mat := list vec.
Definition ten3 := list mat.

Module Tensor.

Local Open Scope res_scope.

(** Elementwise combination of two arrays of the same extent along the
    leading axis; [f] sees the position.  A disagreement of extents is the
    shape error of the library's type check. *)
Fixpoint izip_with {A B C} (f : nat -> A -> B -> result C) (i : nat)
         (a : list A) (b : list B) : result (list C) :=
  match a, b with
  | [], [] => Ok []
  | x :: a', y :: b' =>
      z <- f i x y ;;
      r <- izip_with f (S i) a' b' ;;
      Ok (z :: r)
  | _, _ => Err ShapeMismatch
  end.

Definition zip_with {A B C} (f : A -> B -> result C) : list A -> list B -> result (list C) :=
  izip_with (fun _ => f) 0.

Definition pure2 {A B C} (f : A -> B -> C) (a : A) (b : B) : result C := Ok (f a b).

(** [+] and [*] of two variables: shapes must be equal. *)
Definition vadd : vec -> vec -> result vec := zip_with (pure2 Rplus).
Definition madd : mat -> mat -> result mat := zip_with vadd.
Definition tadd : ten3 -> ten3 -> result ten3 := zip_with madd.
Definition vmul : vec -> vec -> result vec := zip_with (pure2 Rmult).
Definition mmul : mat -> mat -> result mat := zip_with vmul.
Definition tmul : ten3 -> ten3 -> result ten3 := zip_with mmul.

(** Multiplication by a scalar constant. *)
Definition vscale (c : R) (v : vec) : vec := map (fun x => x * c) v.
Definition mscale (c : R) (m : mat) : mat := map (vscale c) m.
Definition tscale (c : R) (t : ten3) : ten3 := map (mscale c) t.

(** Sums. *)
Definition vsum (v : vec) : R := fold_right Rplus 0 v.
Definition msum (m : mat) : R := vsum (map vsum m).
Definition dot (u v : vec) : R := vsum (map (fun p => fst p * snd p) (combine u v)).

(** numpy broadcasting of one axis of a constant to extent [n]: the
    extent is [n] already, or it is one and the entry is repeated. *)
Definition bcast {A} (n : nat) (l : list A) : result (list A) :=
  if length l =? n then Ok l
  else match l with
       | [a] => Ok (repeat a n)
       | _ => Err ShapeMismatch
       end.

(** [x * c] for a variable [x] and an array constant [c] (the mask is a
    plain [xp] array): the constant must broadcast to the shape of [x],
    axis by axis. *)
Definition vmul_const (x c : vec) : result vec :=
  c' <- bcast (length x) c ;; vmul x c'.
Definition mmul_const (x c : mat) : result mat :=
  c' <- bcast (length x) c ;; zip_with vmul_const x c'.
Definition tmul_const (x c : ten3) : result ten3 :=
  c' <- bcast (length x) c ;; zip_with mmul_const x c'.

(** [xp.ones], [xp.eye], in-place [-=] on equal shapes, [xp.tile]. *)
Definition ones (r c : nat) : mat := repeat (repeat 1 c) r.
Definition eye (n : nat) : mat :=
  map (fun i => map (fun j => if (i =? j)%nat then 1 else 0) (seq 0 n)) (seq 0 n).
Definition vsub (u v : vec) : vec := map (fun p => fst p - snd p) (combine u v).
Definition msub (a b : mat) : mat := map (fun p => vsub (fst p) (snd p)) (combine a b).
Definition tile (m : mat) (bs : nat) : ten3 := repeat m bs.

(** Extents as the code reads them from [.shape]. *)
Definition shape0 {A} (a : list A) : nat := length a.
Definition shape1 {A} (a : list (list A)) : nat := length (hd [] a).

(** A rectangular array of the given shape. *)
Definition has_shape2 {A} (r c : nat) (a : list (list A)) : Prop :=
  length a = r /\ Forall (fun row => length row = c) a.
Definition has_shape3 {A} (b r c : nat) (a : list (list (list A))) : Prop :=
  length a = b /\ Forall (has_shape2 r c) a.

End Tensor.
Export Tensor.

(** ** The functions of the array library used by [forward] *)

Module F.

Local Open Scope res_scope.

(** [F.gaussian(mean, ln_var)] with the standard-normal draw [eps] made
    explicit: [mean + exp(ln_var * 0.5) * eps]. *)
Definition gaussian1 (eps mean ln_var : R) : R := mean + exp (ln_var * 0.5) * eps.

Definition gaussian_v (eps : nat -> R) (mean ln_var : vec) : result vec :=
  izip_with (fun i m l => Ok (gaussian1 (eps i) m l)) 0 mean ln_var.
Definition gaussian_m (eps : nat -> nat -> R) (mean ln_var : mat) : result mat :=
  izip_with (fun i => gaussian_v (eps i)) 0 mean ln_var.
Definition gaussian_t (eps : nat -> nat -> nat -> R) (mean ln_var : ten3) : result ten3 :=
  izip_with (fun i => gaussian_m (eps i)) 0 mean ln_var.

(** [F.gaussian_kl_divergence(mean, ln_var)]: the divergence of the
    diagonal Gaussian from the standard one, summed over all entries,
    [(sum(mean*mean) + sum(exp(ln_var)) - sum(ln_var) - size) * 0.5]. *)
Definition gaussian_kl_divergence_v (mean ln_var : vec) : R :=
  (vsum (map (fun m => m * m) mean) + vsum (map exp ln_var)
   - vsum ln_var - INR (length mean)) * 0.5.

Definition gaussian_kl_divergence_m (mean ln_var : mat) : R :=
  gaussian_kl_divergence_v (concat mean) (concat ln_var).

(** [F.mean_squared_error(x0, x1)]: equal shapes, then the mean of the
    squared differences. *)
Definition mean_squared_error (x0 x1 : vec) : result R :=
  sq <- zip_with (fun a b => Ok ((a - b) * (a - b))) x0 x1 ;;
  Ok (vsum sq / INR (length x0)).

(** [F.broadcast_to] of a one-entry array. *)
Definition broadcast_to_v (b : R) (n : nat) : vec := repeat b n.
Definition broadcast_to_m (b : R) (r c : nat) : mat := repeat (repeat b c) r.
(** [F.broadcast_to] of a [(1,1,k)] array to [(b,r,c)]. *)
Definition broadcast_to_t (p : vec) (b r c : nat) : result ten3 :=
  p' <- bcast c p ;; Ok (repeat (repeat p' r) b).

(** [F.reshape(is_test, (bs,1,1))] followed by [F.broadcast_to] along the
    slot axis (and along the latent axis). *)
Definition reshape_rows (t : vec) (bs : nat) : result vec :=
  if length t =? bs then Ok t else Err ShapeMismatch.
Definition rows_to_m (t : vec) (c : nat) : mat := map (fun x => repeat x c) t.
Definition rows_to_t (t : vec) (r c : nat) : ten3 := map (fun x => repeat (repeat x c) r) t.

(** [L.EmbedID]: row [i] of the table for every index [i]. *)
Definition embed_row {A} (W : list A) (ix : list nat) : result (list A) :=
  fold_right (fun i acc =>
                match nth_error W i with
                | Some w => r <- acc ;; Ok (w :: r)
                | None => Err IndexError
                end) (Ok []) ix.
Definition EmbedID {A} (W : list A) (x : list (list nat)) : result (list (list A)) :=
  fold_right (fun ix acc => row <- embed_row W ix ;; r <- acc ;; Ok (row :: r)) (Ok []) x.

(** [F.batch_matmul(a, a, transb=True)] for [a] of shape [(bs, nf, k)]:
    per row of the batch, the Gram matrix of the [nf] vectors. *)
Definition gram (V : mat) : mat := map (fun vi => map (fun vj => dot vi vj) V) V.
(** The same for [a] of shape [(bs, nf)], read as [(bs, nf, 1)]: per row
    the outer product of the values with themselves. *)
Definition outer (x : vec) : mat := map (fun xi => map (fun xj => xi * xj) x) x.

(** An operand of [F.batch_matmul] whose first or second extent is zero:
    the function raises on it. *)
Definition no_slots {A} (a : list (list A)) : bool :=
  (shape0 a =? 0)%nat || (shape1 a =? 0)%nat.

(** [F.batch_matmul(vi, vi, transb=True)] and
    [F.batch_matmul(val, val, transb=True)]. *)
Definition batch_matmul_gram (vi : ten3) : result ten3 :=
  if no_slots vi then Err ShapeMismatch else Ok (map gram vi).
Definition batch_matmul_outer (val : mat) : result ten3 :=
  if no_slots val then Err ShapeMismatch else Ok (map outer val).

(** Python's true division [a / b]. *)
Definition true_div (a b : R) : result R :=
  if Req_dec_T b 0 then Err ZeroDivisionError else Ok (a / b).

End F.

(** ** The model object and the program state *)

(** An allocated three-axis array: the identity of the object and its
    contents. *)
Record ndarray3 : Type := { id : nat; data : ten3 }.

(** The attributes of a [VFM] instance.  [lossfun] is stored by the
    constructor and never read by [forward]; it is left out. *)
Record VFM : Type := {
  n_dim : nat;
  n_features : nat;
  lambda0 : R;
  lambda1 : R;
  lambda2 : R;
  intx_term : bool;
  total_nobs : R;
  bias_mu : R;                 (* L.Bias(shape=(1,)) *)
  bias_lv : R;
  slope_mu : vec;              (* L.EmbedID(n_features, 1) *)
  slope_lv : vec;
  prior_slope_mu : R;          (* L.Bias(shape=(1,1,1)) *)
  prior_slope_lv : R;
  latent_mu : mat;             (* L.EmbedID(n_features, n_dim) *)
  latent_lv : mat;
  prior_latent_mu : vec;       (* L.Bias(shape=(1,1,n_dim)) *)
  prior_latent_lv : vec;
  _mask : option ndarray3
}.

Definition set_mask (m : VFM) (c : option ndarray3) : VFM :=
  {| n_dim := n_dim m; n_features := n_features m;
     lambda0 := lambda0 m; lambda1 := lambda1 m; lambda2 := lambda2 m;
     intx_term := intx_term m; total_nobs := total_nobs m;
     bias_mu := bias_mu m; bias_lv := bias_lv m;
     slope_mu := slope_mu m; slope_lv := slope_lv m;
     prior_slope_mu := prior_slope_mu m; prior_slope_lv := prior_slope_lv m;
     latent_mu := latent_mu m; latent_lv := latent_lv m;
     prior_latent_mu := prior_latent_mu m; prior_latent_lv := prior_latent_lv m;
     _mask := c |}.

(** What [forward] hands to the reporter. *)
Record Logs : Type := {
  log_loss : R; log_rmse : R; log_reg0 : R; log_regt : R;
  log_reg1 : R; log_reg2 : R; log_bias : R
}.

(** The state a call runs in: the instance, the allocator's next object
    identity and what the reporter has received. *)
Record St : Type := { self : VFM; next_id : nat; reported : list Logs }.

(** The shapes the constructor establishes and the optimizer preserves. *)
Definition wf_model (m : VFM) : Prop :=
  length (slope_mu m) = n_features m /\
  length (slope_lv m) = n_features m /\
  has_shape2 (n_features m) (n_dim m) (latent_mu m) /\
  has_shape2 (n_features m) (n_dim m) (latent_lv m) /\
  length (prior_latent_mu m) = n_dim m /\
  length (prior_latent_lv m) = n_dim m.

(** ** Construction: [VFM.__init__] *)

Record Config : Type := {
  cfg_n_features : option Z;   (* default None *)
  cfg_n_dim : Z;               (* default 8 *)
  cfg_lambda0 : R; cfg_lambda1 : R; cfg_lambda2 : R;
  cfg_init_bias_mu : R; cfg_init_bias_lv : R;
  cfg_intx_term : bool;
  cfg_total_nobs : R
}.

(** The four [np.random.randn] draws of the constructor, by position. *)
Record Randn : Type := {
  rnd_latent_mu : nat -> nat -> R;
  rnd_latent_lv : nat -> nat -> R;
  rnd_slope_mu : nat -> R;
  rnd_slope_lv : nat -> R
}.

Definition tabulate {A} (n : nat) (f : nat -> A) : list A := map f (seq 0 n).

(** The extent of an axis at allocation. *)
Definition extent (n : Z) : result nat :=
  if (n <? 0)%Z then Err ValueError else Ok (Z.to_nat n).

(** Lines 16-49.  The arguments are stored as given; the links are
    allocated, which raises when [n_features] is missing or an extent is
    negative; the tables are overwritten with scaled draws, the bias
    parameters set to their initial values, and the shared priors keep the
    zeros [L.Bias] starts from.  The class attribute [_mask] is [None]. *)
Definition __init__ (cfg : Config) (rnd : Randn) : result VFM :=
  (nf <- match cfg_n_features cfg with
         | None => Err TypeError
         | Some n => extent n
         end ;;
   nd <- extent (cfg_n_dim cfg) ;;
   let c := sqrt (INR nf * INR nd) in
   let d := sqrt (INR nf) in
   Ok {| n_dim := nd; n_features := nf;
         lambda0 := cfg_lambda0 cfg; lambda1 := cfg_lambda1 cfg;
         lambda2 := cfg_lambda2 cfg;
         intx_term := cfg_intx_term cfg; total_nobs := cfg_total_nobs cfg;
         bias_mu := 0 * 0.0 + cfg_init_bias_mu cfg;
         bias_lv := 0 * 0.0 + cfg_init_bias_lv cfg;
         slope_mu := tabulate nf (fun i => rnd_slope_mu rnd i / d);
         slope_lv := tabulate nf (fun i => rnd_slope_lv rnd i / d - 2);
         prior_slope_mu := 0; prior_slope_lv := 0;
         latent_mu := tabulate nf (fun i => tabulate nd (fun j => rnd_latent_mu rnd i j / c));
         latent_lv := tabulate nf (fun i => tabulate nd (fun j => rnd_latent_lv rnd i j / c - 2));
         prior_latent_mu := repeat 0 nd; prior_latent_lv := repeat 0 nd;
         _mask := None |})%res.

(** ** The mask cache: [VFM.mask] *)

Definition build_mask (bs nf : nat) : ten3 :=
  tile (msub (ones nf nf) (eye nf)) bs.

(** [self._mask is None or self._mask.shape[0] != bs] *)
Definition cache_miss (m : VFM) (bs : nat) : bool :=
  match _mask m with
  | None => true
  | Some c => negb (shape0 (data c) =? bs)%nat
  end.

(** Lines 52-57: on a miss the mask is built, allocated and cached; the
    cached object is returned either way. *)
Definition mask (bs nf : nat) (st : St) : ndarray3 * St :=
  match _mask (self st) with
  | Some c =>
      if negb (shape0 (data c) =? bs)%nat
      then let masks := {| id := next_id st; data := build_mask bs nf |} in
           (masks, {| self := set_mask (self st) (Some masks);
                      next_id := S (next_id st);
                      reported := reported st |})
      else (c, st)
  | None =>
      let masks := {| id := next_id st; data := build_mask bs nf |} in
      (masks, {| self := set_mask (self st) (Some masks);
                 next_id := S (next_id st);
                 reported := reported st |})
  end.

(** ** The forward computation: [VFM.forward] *)

(** The [F.gaussian] draws of one call, by position. *)
Record Noise : Type := {
  eps_bias : nat -> R;
  eps_slope : nat -> nat -> R;
  eps_latent : nat -> nat -> nat -> R
}.

Definition lv_floor_default : R := -100.

Section Forward.

Local Open Scope res_scope.

Variable m : VFM.
Variables (val : mat) (loc : list (list nat)) (y is_test : vec).
Variable lv_floor : R.
Variable eps : Noise.

Let bs := shape0 val.
Let nf := shape1 val.

(** Lines 89-93: the bias, one draw per row. *)
Definition bs_mu : vec := F.broadcast_to_v (bias_mu m) (length y).
Definition bs_lv : result vec :=
  vadd (F.broadcast_to_v (bias_lv m) (length y)) (vscale lv_floor is_test).
Definition forward_bias : result vec :=
  lv <- bs_lv ;; F.gaussian_v (eps_bias eps) bs_mu lv.

(** Lines 98-106: the slope coefficient of every slot, and the linear
    term of every row. *)
Definition sl_mu : result mat :=
  e <- F.EmbedID (slope_mu m) loc ;;
  madd e (F.broadcast_to_m (prior_slope_mu m) bs nf).
Definition sl_lv : result mat :=
  e <- F.EmbedID (slope_lv m) loc ;;
  madd e (F.broadcast_to_m (prior_slope_lv m) bs nf).
Definition sl_lvc : result mat :=
  t <- F.reshape_rows is_test bs ;;
  Ok (mscale lv_floor (F.rows_to_m t nf)).
Definition forward_coef : result mat :=
  mu <- sl_mu ;;
  lv <- sl_lv ;;
  lvc <- sl_lvc ;;
  lv' <- madd lv lvc ;;
  F.gaussian_m (eps_slope eps) mu lv'.
Definition forward_slop : result vec :=
  coef <- forward_coef ;;
  cv <- mmul coef val ;;
  Ok (map vsum cv).

(** Lines 111-118: the latent vector of every slot. *)
Definition vi_mu : result ten3 :=
  pr <- F.broadcast_to_t (prior_latent_mu m) bs nf (n_dim m) ;;
  e <- F.EmbedID (latent_mu m) loc ;;
  tadd e pr.
Definition vi_lv : result ten3 :=
  pr <- F.broadcast_to_t (prior_latent_lv m) bs nf (n_dim m) ;;
  e <- F.EmbedID (latent_lv m) loc ;;
  tadd e pr.
Definition vi_lvc : result ten3 :=
  t <- F.reshape_rows is_test bs ;;
  Ok (tscale lv_floor (F.rows_to_t t nf (n_dim m))).
Definition forward_vi : result ten3 :=
  mu <- vi_mu ;;
  lv <- vi_lv ;;
  lvc <- vi_lvc ;;
  lv' <- tadd lv lvc ;;
  F.gaussian_t (eps_latent eps) mu lv'.

(** Lines 121-129: Gram matrix times outer product times mask, summed
    over both slot axes.  Either product raises on a batch without rows
    or without slots. *)
Definition interaction (vi : ten3) (mask_data : ten3) : result vec :=
  vij <- F.batch_matmul_gram vi ;;
  xij <- F.batch_matmul_outer val ;;
  p <- tmul vij xij ;;
  q <- tmul_const p mask_data ;;
  Ok (map msum q).
Definition forward_intx (mask_data : ten3) : result vec :=
  vi <- forward_vi ;; interaction vi mask_data.

(** Lines 133-135. *)
Definition forward_pred (mask_data : ten3) : result vec :=
  bias <- forward_bias ;;
  slop <- forward_slop ;;
  intx <- forward_intx mask_data ;;
  pred <- vadd bias slop ;;
  if intx_term m then vadd pred intx else Ok pred.

(** Lines 142-151: the regularization.  [frac] is the division of line
    142, which raises when [total_nobs] is zero; [frac_of] is its value
    when it does not. *)
Definition frac_of : R := INR (shape0 loc) * 1.0 / total_nobs m.
Definition frac : result R := F.true_div (INR (shape0 loc) * 1.0) (total_nobs m).
Definition reg0 : R := F.gaussian_kl_divergence_v [bias_mu m] [bias_lv m].
Definition reg1 : R := F.gaussian_kl_divergence_v (slope_mu m) (slope_lv m).
Definition reg2 : R := F.gaussian_kl_divergence_m (latent_mu m) (latent_lv m).
Definition reg3 : R := F.gaussian_kl_divergence_v (prior_latent_mu m) (prior_latent_lv m).
Definition reg4 : R := F.gaussian_kl_divergence_v [prior_slope_mu m] [prior_slope_lv m].
Definition regt : R :=
  (reg0 * lambda0 m + reg1 * lambda1 m + reg2 * lambda2 m)
  + (reg3 * lambda0 m + reg4 * lambda0 m).

(** Lines 138-158: the loss and the record for the reporter. *)
Definition forward_logs (mask_data : ten3) : result Logs :=
  pred <- forward_pred mask_data ;;
  mse <- F.mean_squared_error pred y ;;
  let rmse := sqrt mse in
  fr <- frac ;;
  let loss := mse + regt * fr in
  Ok {| log_loss := loss; log_rmse := rmse; log_reg0 := reg0;
        log_regt := regt; log_reg1 := reg1; log_reg2 := reg2;
        log_bias := vsum [bias_mu m] |}.

End Forward.

Definition report (l : Logs) (st : St) : St :=
  {| self := self st; next_id := next_id st; reported := l :: reported st |}.

(** [forward]: the mask first (line 85), then the computation; the loss is
    returned and the record reported. *)
Definition forward (val : mat) (loc : list (list nat)) (y is_test : vec)
           (lv_floor : R) (eps : Noise) (st : St) : result R * St :=
  let bs := shape0 val in
  let nf := shape1 val in
  let (mk, st1) := mask bs nf st in
  match forward_logs (self st1) val loc y is_test lv_floor eps (data mk) with
  | Ok logs => (Ok (log_loss logs), report logs st1)
  | Err e => (Err e, st1)
  end.

(** [__call__]: [forward] with the default floor. *)
Definition __call__ (val : mat) (loc : list (list nat)) (y is_test : vec)
           (eps : Noise) (st : St) : result R * St :=
  forward val loc y is_test lv_floor_default eps st.

(** A state holding a freshly constructed model. *)
Definition fresh_state (m : VFM) : St := {| self := m; next_id := 0; reported := [] |}.

(** * Properties *)

(** ** The two operations that reject a degenerate operand *)

Lemma shape_of_nonempty {A} (r c : nat) (a : list (list A)) :
  length a = r -> Forall (fun row => length row = c) a -> (0 < r)%nat ->
  shape0 a = r /\ shape1 a = c.
Proof.
  intros Hl Hr Hpos. split; [exact Hl|].
  destruct a as [|row a]; [cbn in Hl; lia|].
  inversion Hr as [|? ? Hrow _]. exact Hrow.
Qed.

Lemma no_slots_false {A} (a : list (list A)) :
  F.no_slots a = false <-> (0 < shape0 a)%nat /\ (0 < shape1 a)%nat.
Proof.
  unfold F.no_slots. rewrite orb_false_iff, !Nat.eqb_neq. lia.
Qed.

Lemma batch_matmul_gram_ok (vi : ten3) :
  (0 < shape0 vi)%nat -> (0 < shape1 vi)%nat ->
  F.batch_matmul_gram vi = Ok (map F.gram vi).
Proof.
  intros H0 H1. unfold F.batch_matmul_gram.
  now rewrite (proj2 (no_slots_false vi) (conj H0 H1)).
Qed.

Lemma batch_matmul_outer_ok (val : mat) :
  (0 < shape0 val)%nat -> (0 < shape1 val)%nat ->
  F.batch_matmul_outer val = Ok (map F.outer val).
Proof.
  intros H0 H1. unfold F.batch_matmul_outer.
  now rewrite (proj2 (no_slots_false val) (conj H0 H1)).
Qed.

Lemma batch_matmul_gram_inv (vi g : ten3) :
  F.batch_matmul_gram vi = Ok g ->
  g = map F.gram vi /\ (0 < shape0 vi)%nat /\ (0 < shape1 vi)%nat.
Proof.
  unfold F.batch_matmul_gram. destruct (F.no_slots vi) eqn:E; [discriminate|].
  intros H. injection H as <-. split; [reflexivity|]. now apply no_slots_false.
Qed.

Lemma batch_matmul_outer_inv (val : mat) (o : ten3) :
  F.batch_matmul_outer val = Ok o ->
  o = map F.outer val /\ (0 < shape0 val)%nat /\ (0 < shape1 val)%nat.
Proof.
  unfold F.batch_matmul_outer. destruct (F.no_slots val) eqn:E; [discriminate|].
  intros H. injection H as <-. split; [reflexivity|]. now apply no_slots_false.
Qed.

Lemma true_div_ok (a b : R) : b <> 0 -> F.true_div a b = Ok (a / b).
Proof. intros H. unfold F.true_div. now destruct (Req_dec_T b 0). Qed.

Lemma true_div_zero (a : R) : F.true_div a 0 = Err ZeroDivisionError.
Proof. unfold F.true_div. now destruct (Req_dec_T 0 0). Qed.

Lemma true_div_inv (a b q : R) : F.true_div a b = Ok q -> b <> 0 /\ q = a / b.
Proof.
  unfold F.true_div. destruct (Req_dec_T b 0); [discriminate|].
  intros H. injection H as <-. auto.
Qed.

Lemma frac_ok (m : VFM) (loc : list (list nat)) :
  total_nobs m <> 0 -> frac m loc = Ok (frac_of m loc).
Proof. apply true_div_ok. Qed.

Lemma frac_inv (m : VFM) (loc : list (list nat)) (fr : R) :
  frac m loc = Ok fr -> total_nobs m <> 0 /\ fr = frac_of m loc.
Proof. apply true_div_inv. Qed.

(** ** The mask and its cache *)

Section MaskFacts.

Lemma build_mask_shape0 (bs nf : nat) : shape0 (build_mask bs nf) = bs.
Proof. unfold build_mask, tile, shape0. apply repeat_length. Qed.

Lemma vsub_length (u v : vec) : length u = length v -> length (vsub u v) = length u.
Proof.
  intros H. unfold vsub. rewrite length_map, length_combine, H. apply Nat.min_id.
Qed.

Lemma eye_row_length (n : nat) : Forall (fun row => length row = n) (eye n).
Proof.
  unfold eye. apply Forall_forall. intros row Hin.
  apply in_map_iff in Hin. destruct Hin as [i [<- _]].
  now rewrite length_map, length_seq.
Qed.

Lemma ones_msub_eye_shape (nf : nat) : has_shape2 nf nf (msub (ones nf nf) (eye nf)).
Proof.
  unfold has_shape2, msub, ones. split.
  - rewrite length_map, length_combine, repeat_length.
    unfold eye. rewrite length_map, length_seq. apply Nat.min_id.
  - apply Forall_forall. intros row Hin.
    apply in_map_iff in Hin. destruct Hin as [[u v] [<- Hin]]. simpl.
    pose proof (in_combine_l _ _ _ _ Hin) as Hu.
    pose proof (in_combine_r _ _ _ _ Hin) as Hv.
    apply repeat_spec in Hu. subst u.
    pose proof (eye_row_length nf) as He.
    rewrite Forall_forall in He. specialize (He _ Hv).
    rewrite vsub_length; rewrite repeat_length; congruence.
Qed.

Lemma build_mask_shape (bs nf : nat) : has_shape3 bs nf nf (build_mask bs nf).
Proof.
  split.
  - apply build_mask_shape0.
  - apply Forall_forall. intros sl Hin. unfold build_mask, tile in Hin.
    apply repeat_spec in Hin. subst sl. apply ones_msub_eye_shape.
Qed.

Lemma nth_map_lt {A B} (f : A -> B) (l : list A) (i : nat) (d : B) (d' : A) :
  (i < length l)%nat -> nth i (map f l) d = f (nth i l d').
Proof.
  revert i. induction l as [|x l IH]; intros [|i] H; cbn in *; try lia; auto.
  apply IH. lia.
Qed.

(** Entry [(i, j)] of a slice of a freshly built mask. *)
Lemma mask_slice_entry (nf i j : nat) :
  (i < nf)%nat -> (j < nf)%nat ->
  nth j (nth i (msub (ones nf nf) (eye nf)) []) 0
  = if (i =? j)%nat then 0 else 1.
Proof.
  intros Hi Hj. unfold msub, ones, eye.
  rewrite (nth_map_lt _ _ _ _ (([], []) : vec * vec))
    by (rewrite length_combine, repeat_length, length_map, length_seq; lia).
  rewrite combine_nth by (rewrite repeat_length, length_map, length_seq; lia).
  cbn [fst snd].
  rewrite nth_repeat_lt by lia.
  rewrite (nth_map_lt _ _ _ _ 0%nat) by (rewrite length_seq; lia).
  rewrite seq_nth by lia. cbn [Nat.add].
  unfold vsub.
  rewrite (nth_map_lt _ _ _ _ ((0, 0) : R * R))
    by (rewrite length_combine, repeat_length, length_map, length_seq; lia).
  rewrite combine_nth by (rewrite repeat_length, length_map, length_seq; lia).
  cbn [fst snd]. rewrite nth_repeat_lt by lia.
  rewrite (nth_map_lt _ _ _ _ 0%nat) by (rewrite length_seq; lia).
  rewrite seq_nth by lia. cbn [Nat.add].
  destruct (i =? j)%nat; lra.
Qed.

Lemma mask_miss (bs nf : nat) (st : St) :
  cache_miss (self st) bs = true ->
  mask bs nf st
  = ({| id := next_id st; data := build_mask bs nf |},
     {| self := set_mask (self st) (Some {| id := next_id st; data := build_mask bs nf |});
        next_id := S (next_id st); reported := reported st |}).
Proof.
  unfold cache_miss, mask. destruct (_mask (self st)) as [c|]; [|reflexivity].
  intros ->. reflexivity.
Qed.

Lemma mask_hit (bs nf : nat) (st : St) (c : ndarray3) :
  _mask (self st) = Some c -> shape0 (data c) = bs -> mask bs nf st = (c, st).
Proof.
  intros Hc Hs. unfold mask. rewrite Hc.
  apply Nat.eqb_eq in Hs. rewrite Hs. reflexivity.
Qed.

(** After any call the cache holds the returned object, whose leading
    extent is the requested batch size. *)
Lemma mask_post (bs nf : nat) (st : St) :
  _mask (self (snd (mask bs nf st))) = Some (fst (mask bs nf st))
  /\ shape0 (data (fst (mask bs nf st))) = bs.
Proof.
  destruct (cache_miss (self st) bs) eqn:Hm.
  - rewrite (mask_miss bs nf st Hm). cbn. split; [reflexivity | apply build_mask_shape0].
  - unfold cache_miss in Hm. destruct (_mask (self st)) as [c|] eqn:Hc; [|discriminate].
    apply negb_false_iff, Nat.eqb_eq in Hm.
    rewrite (mask_hit bs nf st c Hc Hm). cbn. split; assumption.
Qed.

End MaskFacts.

(** C5.  The cache is keyed on the batch size alone.  A call right after a
    call with the same [bs] returns the very object the first one returned
    (same identity, same contents) and leaves the whole state, allocator
    included, as it was, whatever [nf] it asks for; a call whose [bs] equals
    the cached extent returns the cached object untouched; a call whose
    [bs] differs allocates a new object, built for [(bs, nf)], and caches
    it. *)
Theorem mask_cache_keyed_on_batch_size (bs nf nf' : nat) (st : St) :
  mask bs nf' (snd (mask bs nf st)) = (fst (mask bs nf st), snd (mask bs nf st))
  /\ (forall c, _mask (self st) = Some c -> shape0 (data c) = bs ->
        mask bs nf st = (c, st))
  /\ (forall c, _mask (self st) = Some c -> shape0 (data c) <> bs ->
        let o := {| id := next_id st; data := build_mask bs nf |} in
        fst (mask bs nf st) = o
        /\ _mask (self (snd (mask bs nf st))) = Some o
        /\ next_id (snd (mask bs nf st)) = S (next_id st)).
Proof.
  split; [|split].
  - destruct (mask_post bs nf st) as [Hc Hs].
    apply (mask_hit bs nf' _ _ Hc Hs).
  - intros c Hc Hs. now apply mask_hit.
  - intros c Hc Hs o.
    assert (Hm : cache_miss (self st) bs = true).
    { unfold cache_miss. rewrite Hc. apply negb_true_iff, Nat.eqb_neq, Hs. }
    rewrite (mask_miss bs nf st Hm). cbn. repeat split; reflexivity.
Qed.

(** A small model used to run the code on concrete inputs: three features,
    latent vectors of length two. *)
Definition demo : VFM :=
  {| n_dim := 2; n_features := 3;
     lambda0 := 1; lambda1 := 1; lambda2 := 1;
     intx_term := true; total_nobs := 1;
     bias_mu := 0; bias_lv := 0;
     slope_mu := [0; 0; 0]; slope_lv := [0; 0; 0];
     prior_slope_mu := 0; prior_slope_lv := 0;
     latent_mu := [[1; 0]; [1; 0]; [0; 1]];
     latent_lv := [[0; 0]; [0; 0]; [0; 0]];
     prior_latent_mu := [0; 0]; prior_latent_lv := [0; 0];
     _mask := None |}.

Definition no_noise : Noise :=
  {| eps_bias := fun _ => 0; eps_slope := fun _ _ => 0; eps_latent := fun _ _ _ => 0 |}.

Lemma demo_wf : wf_model demo.
Proof.
  unfold wf_model, has_shape2. cbn.
  repeat split; try reflexivity; repeat constructor.
Qed.

Lemma mask_cache_keyed_on_batch_size_witness :
  let st := snd (mask 2 3 (fresh_state demo)) in
  let c := {| id := 0; data := build_mask 2 3 |} in
  mask 2 5 st = (c, st)
  /\ fst (mask 4 5 st) = {| id := 1; data := build_mask 4 5 |}.
Proof.
  intros st c.
  destruct (mask_cache_keyed_on_batch_size 2 5 5 st) as [_ [Hhit _]].
  destruct (mask_cache_keyed_on_batch_size 4 5 5 st) as [_ [_ Hmiss]].
  split.
  - apply (Hhit c); reflexivity.
  - destruct (Hmiss c) as [H _]; [reflexivity | cbn; lia | exact H].
Defined.

(** On a miss the returned tensor has shape [(bs, nf, nf)] and every slice
    is one off the diagonal and zero on it. *)
Lemma mask_on_miss (bs nf : nat) (st : St) :
  cache_miss (self st) bs = true ->
  has_shape3 bs nf nf (data (fst (mask bs nf st)))
  /\ forall b i j, (b < bs)%nat -> (i < nf)%nat -> (j < nf)%nat ->
       nth j (nth i (nth b (data (fst (mask bs nf st))) []) []) 0
       = if (i =? j)%nat then 0 else 1.
Proof.
  intros Hm. rewrite (mask_miss bs nf st Hm). cbn [fst data]. split.
  - apply build_mask_shape.
  - intros b i j Hb Hi Hj. unfold build_mask, tile.
    rewrite nth_repeat_lt by lia. now apply mask_slice_entry.
Qed.

(** C6 at the failing input.  On a model whose cache was filled by
    [mask(2, 1)], the call [mask(2, 3)] hits the cache: it returns the
    tensor of shape [(2, 1, 1)] built for one slot, not one of shape
    [(2, 3, 3)]. *)
Theorem mask_stale_feature_count :
  let st1 := snd (mask 2 1 (fresh_state demo)) in
  let r := data (fst (mask 2 3 st1)) in
  r = build_mask 2 1 /\ has_shape3 2 1 1 r /\ ~ has_shape3 2 3 3 r.
Proof.
  cbn zeta.
  assert (E : data (fst (mask 2 3 (snd (mask 2 1 (fresh_state demo))))) = build_mask 2 1)
    by reflexivity.
  rewrite E. split; [reflexivity | split].
  - apply build_mask_shape.
  - intros [_ H]. cbn in H. inversion H as [|? ? [Hlen _] _]. discriminate Hlen.
Qed.

(** ** What [forward] does to the state *)

(** The ten learnable tensors. *)
Definition params (m : VFM) :=
  (bias_mu m, bias_lv m, slope_mu m, slope_lv m,
   prior_slope_mu m, prior_slope_lv m,
   latent_mu m, latent_lv m, prior_latent_mu m, prior_latent_lv m).

(** The batch size of the cached mask, when there is one. *)
Definition cached_bs (m : VFM) : option nat :=
  option_map (fun c => shape0 (data c)) (_mask m).

Lemma cache_miss_cached_bs (m : VFM) (bs : nat) :
  cache_miss m bs = true <-> cached_bs m <> Some bs.
Proof.
  unfold cache_miss, cached_bs. destruct (_mask m) as [c|]; cbn.
  - rewrite negb_true_iff, Nat.eqb_neq. split; [congruence|].
    intros H E. apply H. now rewrite E.
  - split; [discriminate | reflexivity].
Qed.

Lemma mask_frame (bs nf : nat) (st : St) :
  set_mask (self (snd (mask bs nf st))) None = set_mask (self st) None
  /\ reported (snd (mask bs nf st)) = reported st
  /\ (snd (mask bs nf st) = st
      \/ cached_bs (self st) <> Some bs
         /\ _mask (self (snd (mask bs nf st)))
            = Some {| id := next_id st; data := build_mask bs nf |}).
Proof.
  destruct (cache_miss (self st) bs) eqn:Hm.
  - rewrite (mask_miss bs nf st Hm). cbn. repeat split.
    right. split; [now apply cache_miss_cached_bs | reflexivity].
  - unfold cache_miss in Hm. destruct (_mask (self st)) as [c|] eqn:Hc; [|discriminate].
    apply negb_false_iff, Nat.eqb_eq in Hm.
    rewrite (mask_hit bs nf st c Hc Hm). cbn. repeat split. now left.
Qed.

(** The state after [forward], whether it returns or raises, is the state
    after its first statement, the call of [mask], with at most one more
    record handed to the reporter. *)
Lemma forward_state (val : mat) (loc : list (list nat)) (y is_test : vec)
      (lv_floor : R) (eps : Noise) (st : St) :
  let st1 := snd (mask (shape0 val) (shape1 val) st) in
  let st' := snd (forward val loc y is_test lv_floor eps st) in
  self st' = self st1 /\ next_id st' = next_id st1.
Proof.
  unfold forward. destruct (mask (shape0 val) (shape1 val) st) as [mk st1]. cbn [snd].
  destruct (forward_logs _ _ _ _ _ _ _ _); cbn; auto.
Qed.

(** C10.  Whatever its inputs and whether it returns or raises, [forward]
    leaves the ten learnable tensors and every other attribute of the model
    as they were; the one attribute it may change is the cached mask, and
    it changes it only when the requested batch size is not the cached one,
    in which case the cache then holds the mask built for this call. *)
Theorem forward_changes_only_mask_cache
        (val : mat) (loc : list (list nat)) (y is_test : vec)
        (lv_floor : R) (eps : Noise) (st : St) :
  let st' := snd (forward val loc y is_test lv_floor eps st) in
  params (self st') = params (self st)
  /\ set_mask (self st') None = set_mask (self st) None
  /\ (self st' = self st
      \/ cached_bs (self st) <> Some (shape0 val)
         /\ _mask (self st')
            = Some {| id := next_id st; data := build_mask (shape0 val) (shape1 val) |}).
Proof.
  intros st'.
  destruct (forward_state val loc y is_test lv_floor eps st) as [Hs _].
  fold st' in Hs.
  destruct (mask_frame (shape0 val) (shape1 val) st) as [Hf [_ Hc]].
  rewrite <- Hs in Hf, Hc.
  assert (Hp : forall a b, set_mask a None = set_mask b None -> params a = params b).
  { intros a b H. unfold params. injection H; intros. congruence. }
  split; [now apply Hp | split; [exact Hf|]].
  destruct Hc as [Hc | Hc]; [left | right; exact Hc].
  rewrite Hs, Hc. reflexivity.
Qed.

(** ** Elementwise operations: when they succeed and what they return *)

Section ZipFacts.

Context {A B C : Type}.

Lemma rbind_ok {X Y} (r : result X) (k : X -> result Y) (y : Y) :
  rbind r k = Ok y -> exists x, r = Ok x /\ k x = Ok y.
Proof. destruct r as [x|e]; cbn; [eauto | discriminate]. Qed.

Lemma izip_with_length (f : nat -> A -> B -> result C) :
  forall a b i r, izip_with f i a b = Ok r ->
                  length a = length b /\ length r = length a.
Proof.
  induction a as [|x a IH]; intros [|y b] i r H; cbn in H; try discriminate.
  - injection H as <-. auto.
  - apply rbind_ok in H. destruct H as [z [_ H]].
    apply rbind_ok in H. destruct H as [r' [Hr H]].
    injection H as <-. apply IH in Hr. cbn. lia.
Qed.

(** Success entry by entry. *)
Lemma izip_with_ok (f : nat -> A -> B -> result C)
      (P : A -> Prop) (Q : B -> Prop) (T : C -> Prop) :
  (forall i x y, P x -> Q y -> exists z, f i x y = Ok z /\ T z) ->
  forall a b i, length a = length b -> Forall P a -> Forall Q b ->
                exists r, izip_with f i a b = Ok r /\ length r = length a /\ Forall T r.
Proof.
  intros Hf. induction a as [|x a IH]; intros [|y b] i Hl Ha Hb; cbn in Hl; try discriminate.
  - exists []. cbn. auto.
  - inversion Ha as [|? ? Hx Ha']; subst. inversion Hb as [|? ? Hy Hb']; subst.
    destruct (Hf i x y Hx Hy) as [z [Hz Tz]].
    destruct (IH b (S i) ltac:(lia) Ha' Hb') as [r [Hr [Hlen Sr]]].
    exists (z :: r). cbn. rewrite Hz. cbn. rewrite Hr. cbn.
    repeat split; [lia | now constructor].
Qed.

(** Entries of a successful result. *)
Lemma izip_with_nth (f : nat -> A -> B -> result C) :
  forall a b i r, izip_with f i a b = Ok r ->
  forall k x y, nth_error a k = Some x -> nth_error b k = Some y ->
                exists z, nth_error r k = Some z /\ f (i + k)%nat x y = Ok z.
Proof.
  induction a as [|x0 a IH]; intros [|y0 b] i r H; cbn in H; try discriminate.
  - intros [|k]; discriminate.
  - apply rbind_ok in H. destruct H as [z [Hz H]].
    apply rbind_ok in H. destruct H as [r' [Hr H]].
    injection H as <-. intros [|k] x y Hx Hy; cbn in *.
    + injection Hx as <-. injection Hy as <-. exists z. rewrite Nat.add_0_r. auto.
    + destruct (IH b (S i) r' Hr k x y Hx Hy) as [z' [Hz' Hf]].
      exists z'. split; [assumption|]. now rewrite Nat.add_succ_r.
Qed.

(** With a leaf function that never fails the result is a plain map. *)
Lemma zip_with_pure (g : A -> B -> C) :
  forall a b r, zip_with (fun x y => Ok (g x y)) a b = Ok r ->
                length a = length b
                /\ r = map (fun p => g (fst p) (snd p)) (combine a b).
Proof.
  unfold zip_with. generalize 0%nat.
  intros i a. revert i. induction a as [|x a IH]; intros i [|y b] r H; cbn in H; try discriminate.
  - injection H as <-. auto.
  - apply rbind_ok in H. destruct H as [r' [Hr H]].
    injection H as <-. apply IH in Hr. destruct Hr as [Hl ->]. cbn. auto.
Qed.

End ZipFacts.

Section ShapeFacts.

Lemma vadd_ok (u v : vec) :
  length u = length v -> exists r, vadd u v = Ok r /\ length r = length u.
Proof.
  intros H.
  destruct (izip_with_ok (fun _ => pure2 Rplus) (fun _ => True) (fun _ => True) (fun _ => True))
    with (a := u) (b := v) (i := 0%nat) as [r [Hr [Hl _]]];
    try assumption; try (apply Forall_forall; auto).
  - intros. eexists. split; [reflexivity | exact I].
  - exists r. auto.
Qed.

Lemma vmul_ok (u v : vec) :
  length u = length v -> exists r, vmul u v = Ok r /\ length r = length u.
Proof.
  intros H.
  destruct (izip_with_ok (fun _ => pure2 Rmult) (fun _ => True) (fun _ => True) (fun _ => True))
    with (a := u) (b := v) (i := 0%nat) as [r [Hr [Hl _]]];
    try assumption; try (apply Forall_forall; auto).
  - intros. eexists. split; [reflexivity | exact I].
  - exists r. auto.
Qed.

(** One level up: rows of a common length. *)
Lemma rows_ok {X Y Z} (f : nat -> list X -> list Y -> result (list Z)) (c : nat) :
  (forall i x y, length x = c -> length y = c ->
                 exists z, f i x y = Ok z /\ length z = c) ->
  forall r a b i, has_shape2 r c a -> has_shape2 r c b ->
                  exists res, izip_with f i a b = Ok res /\ has_shape2 r c res.
Proof.
  intros Hf r a b i [Ha1 Ha2] [Hb1 Hb2].
  destruct (izip_with_ok f (fun x => length x = c) (fun y => length y = c)
                         (fun z => length z = c) Hf a b i) as [res [Hr [Hl Hs]]];
    try assumption; try congruence.
  exists res. split; [assumption|]. split; [congruence | assumption].
Qed.

Lemma planes_ok {X Y Z} (f : nat -> list (list X) -> list (list Y) -> result (list (list Z)))
      (r c : nat) :
  (forall i x y, has_shape2 r c x -> has_shape2 r c y ->
                 exists z, f i x y = Ok z /\ has_shape2 r c z) ->
  forall b s t i, has_shape3 b r c s -> has_shape3 b r c t ->
                  exists res, izip_with f i s t = Ok res /\ has_shape3 b r c res.
Proof.
  intros Hf b s t i [Hs1 Hs2] [Ht1 Ht2].
  destruct (izip_with_ok f (has_shape2 r c) (has_shape2 r c) (has_shape2 r c) Hf s t i)
    as [res [Hr [Hl Hsh]]]; try assumption; try congruence.
  exists res. split; [assumption|]. split; [congruence | assumption].
Qed.

Lemma madd_ok (r c : nat) (a b : mat) :
  has_shape2 r c a -> has_shape2 r c b ->
  exists res, madd a b = Ok res /\ has_shape2 r c res.
Proof.
  apply (rows_ok (fun _ => vadd)). intros _ x y Hx Hy.
  destruct (vadd_ok x y) as [z [Hz Hl]]; [congruence|]. exists z. split; [exact Hz | congruence].
Qed.

Lemma mmul_ok (r c : nat) (a b : mat) :
  has_shape2 r c a -> has_shape2 r c b ->
  exists res, mmul a b = Ok res /\ has_shape2 r c res.
Proof.
  apply (rows_ok (fun _ => vmul)). intros _ x y Hx Hy.
  destruct (vmul_ok x y) as [z [Hz Hl]]; [congruence|]. exists z. split; [exact Hz | congruence].
Qed.

Lemma tadd_ok (b r c : nat) (s t : ten3) :
  has_shape3 b r c s -> has_shape3 b r c t ->
  exists res, tadd s t = Ok res /\ has_shape3 b r c res.
Proof. apply (planes_ok (fun _ => madd)). intros _ x y. apply madd_ok. Qed.

Lemma tmul_ok (b r c : nat) (s t : ten3) :
  has_shape3 b r c s -> has_shape3 b r c t ->
  exists res, tmul s t = Ok res /\ has_shape3 b r c res.
Proof. apply (planes_ok (fun _ => mmul)). intros _ x y. apply mmul_ok. Qed.

Lemma gaussian_v_ok (eps : nat -> R) (mean ln_var : vec) :
  length mean = length ln_var ->
  exists r, F.gaussian_v eps mean ln_var = Ok r /\ length r = length mean.
Proof.
  intros H.
  destruct (izip_with_ok (fun i m l => Ok (F.gaussian1 (eps i) m l))
                         (fun _ => True) (fun _ => True) (fun _ => True))
    with (a := mean) (b := ln_var) (i := 0%nat) as [r [Hr [Hl _]]];
    try assumption; try (apply Forall_forall; auto).
  - intros. eexists. split; [reflexivity | exact I].
  - exists r. auto.
Qed.

Lemma gaussian_m_ok (eps : nat -> nat -> R) (r c : nat) (mean ln_var : mat) :
  has_shape2 r c mean -> has_shape2 r c ln_var ->
  exists res, F.gaussian_m eps mean ln_var = Ok res /\ has_shape2 r c res.
Proof.
  apply (rows_ok (fun i => F.gaussian_v (eps i))). intros i x y Hx Hy.
  destruct (gaussian_v_ok (eps i) x y) as [z [Hz Hl]]; [congruence|].
  exists z. split; [exact Hz | congruence].
Qed.

Lemma gaussian_t_ok (eps : nat -> nat -> nat -> R) (b r c : nat) (mean ln_var : ten3) :
  has_shape3 b r c mean -> has_shape3 b r c ln_var ->
  exists res, F.gaussian_t eps mean ln_var = Ok res /\ has_shape3 b r c res.
Proof.
  apply (planes_ok (fun i => F.gaussian_m (eps i))). intros i x y.
  apply gaussian_m_ok.
Qed.

Lemma repeat_shape2 {X} (row : list X) (r : nat) :
  has_shape2 r (length row) (repeat row r).
Proof.
  split; [apply repeat_length|]. apply Forall_forall.
  intros x Hx. apply repeat_spec in Hx. now subst.
Qed.

Lemma broadcast_to_m_shape (b : R) (r c : nat) : has_shape2 r c (F.broadcast_to_m b r c).
Proof.
  unfold F.broadcast_to_m. rewrite <- (repeat_length b c) at 1. apply repeat_shape2.
Qed.

Lemma bcast_same {X} (n : nat) (l : list X) : length l = n -> bcast n l = Ok l.
Proof. intros H. unfold bcast. apply Nat.eqb_eq in H. now rewrite H. Qed.

Lemma broadcast_to_t_ok (p : vec) (b r c : nat) :
  length p = c ->
  F.broadcast_to_t p b r c = Ok (repeat (repeat p r) b)
  /\ has_shape3 b r c (repeat (repeat p r) b).
Proof.
  intros H. unfold F.broadcast_to_t. rewrite (bcast_same c p H). cbn.
  split; [reflexivity|]. split; [apply repeat_length|].
  apply Forall_forall. intros x Hx. apply repeat_spec in Hx. subst x.
  rewrite <- H. apply repeat_shape2.
Qed.

Lemma mscale_shape (k : R) (r c : nat) (a : mat) :
  has_shape2 r c a -> has_shape2 r c (mscale k a).
Proof.
  intros [H1 H2]. unfold mscale. split; [now rewrite length_map|].
  apply Forall_map. eapply Forall_impl; [|exact H2].
  intros x Hx. unfold vscale. now rewrite length_map.
Qed.

Lemma tscale_shape (k : R) (b r c : nat) (t : ten3) :
  has_shape3 b r c t -> has_shape3 b r c (tscale k t).
Proof.
  intros [H1 H2]. unfold tscale. split; [now rewrite length_map|].
  apply Forall_map. eapply Forall_impl; [|exact H2].
  intros x Hx. now apply mscale_shape.
Qed.

Lemma rows_to_m_shape (t : vec) (c : nat) : has_shape2 (length t) c (F.rows_to_m t c).
Proof.
  unfold F.rows_to_m. split; [apply length_map|].
  apply Forall_map, Forall_forall. intros x _. apply repeat_length.
Qed.

Lemma rows_to_t_shape (t : vec) (r c : nat) : has_shape3 (length t) r c (F.rows_to_t t r c).
Proof.
  unfold F.rows_to_t. split; [apply length_map|].
  apply Forall_map, Forall_forall. intros x _.
  rewrite <- (repeat_length x c) at 1. apply repeat_shape2.
Qed.

(** Embedding lookup: in-range indices give a table row per index. *)
Lemma embed_row_ok {X} (W : list X) (P : X -> Prop) (ix : list nat) :
  Forall P W -> Forall (fun i => (i < length W)%nat) ix ->
  exists r, F.embed_row W ix = Ok r /\ length r = length ix /\ Forall P r.
Proof.
  intros HW. induction 1 as [|i ix Hi _ IH]; cbn.
  - exists []. auto.
  - destruct IH as [r [Hr [Hl HP]]].
    destruct (nth_error W i) as [w|] eqn:E.
    + exists (w :: r). fold (F.embed_row W ix). rewrite Hr. cbn.
      repeat split; [lia|]. constructor; [|assumption].
      rewrite Forall_forall in HW. apply HW. eapply nth_error_In; eauto.
    + apply nth_error_None in E. lia.
Qed.

Lemma EmbedID_ok {X} (W : list X) (P : X -> Prop) (r c : nat) (x : list (list nat)) :
  Forall P W -> has_shape2 r c x ->
  Forall (Forall (fun i => (i < length W)%nat)) x ->
  exists e, F.EmbedID W x = Ok e /\ has_shape2 r c e /\ Forall (Forall P) e.
Proof.
  intros HW [Hr Hc] Hix. subst r. revert Hc.
  induction Hix as [|ix x Hi _ IH]; intros Hc; cbn.
  - exists []. repeat split; constructor.
  - inversion Hc as [|? ? Hc1 Hc2]; subst.
    destruct (embed_row_ok W P ix HW Hi) as [row [Hrow [Hl HP]]].
    destruct (IH Hc2) as [e [He [[Hs1 Hs2] HPe]]].
    exists (row :: e). fold (F.EmbedID W x). rewrite Hrow, He. cbn.
    repeat split; [cbn; lia | | ]; constructor; assumption.
Qed.

Lemma EmbedID_length {X} (W : list X) (x : list (list nat)) (e : list (list X)) :
  F.EmbedID W x = Ok e -> length e = length x.
Proof.
  revert e. induction x as [|ix x IH]; intros e H; cbn in H.
  - injection H as <-. reflexivity.
  - apply rbind_ok in H. destruct H as [row [_ H]].
    apply rbind_ok in H. destruct H as [e' [He H]].
    injection H as <-. cbn. f_equal. now apply IH.
Qed.

End ShapeFacts.

(** ** Valid calls return *)

(** A call the input contract allows: rectangular [val] and [loc] of one
    shape, one target and one flag per row, indices inside the table, a
    cached mask, if it is going to be reused, of the shape of this batch,
    at least one row and one slot, and a [total_nobs] that is not zero. *)
Definition valid_call (st : St) (val : mat) (loc : list (list nat)) (y is_test : vec) : Prop :=
  wf_model (self st)
  /\ has_shape2 (shape0 val) (shape1 val) val
  /\ has_shape2 (shape0 val) (shape1 val) loc
  /\ length y = shape0 val
  /\ length is_test = shape0 val
  /\ Forall (Forall (fun i => (i < n_features (self st))%nat)) loc
  /\ (forall c, _mask (self st) = Some c -> shape0 (data c) = shape0 val ->
                has_shape3 (shape0 val) (shape1 val) (shape1 val) (data c))
  /\ (0 < shape0 val)%nat
  /\ (0 < shape1 val)%nat
  /\ total_nobs (self st) <> 0.

Section StagesReturn.

Variable m : VFM.
Variables (val : mat) (loc : list (list nat)) (y is_test : vec).
Variable lv_floor : R.
Variable eps : Noise.

Let bs := shape0 val.
Let nf := shape1 val.

Hypothesis Hwf : wf_model m.
Hypothesis Hval : has_shape2 bs nf val.
Hypothesis Hloc : has_shape2 bs nf loc.
Hypothesis Hy : length y = bs.
Hypothesis Htest : length is_test = bs.
Hypothesis Hix : Forall (Forall (fun i => (i < n_features m)%nat)) loc.

Lemma forward_bias_ok :
  exists b, forward_bias m y is_test lv_floor eps = Ok b /\ length b = bs.
Proof.
  unfold forward_bias, bs_lv, bs_mu, F.broadcast_to_v.
  destruct (vadd_ok (repeat (bias_lv m) (length y)) (vscale lv_floor is_test))
    as [lv [Hlv Hl]].
  { unfold vscale. rewrite repeat_length, length_map. congruence. }
  rewrite Hlv. cbn [rbind]. rewrite repeat_length in Hl.
  destruct (gaussian_v_ok (eps_bias eps) (repeat (bias_mu m) (length y)) lv)
    as [b [Hb Hlb]].
  { rewrite repeat_length. congruence. }
  exists b. split; [assumption|]. rewrite Hlb, repeat_length. assumption.
Qed.

Lemma embed_slope_ok (W : vec) :
  length W = n_features m ->
  exists e, F.EmbedID W loc = Ok e /\ has_shape2 bs nf e.
Proof.
  intros HW.
  destruct (EmbedID_ok W (fun _ => True) bs nf loc) as [e [He [Hs _]]].
  - apply Forall_forall. auto.
  - assumption.
  - now rewrite HW.
  - eauto.
Qed.

Lemma sl_lvc_ok :
  exists lvc, sl_lvc val is_test lv_floor = Ok lvc /\ has_shape2 bs nf lvc.
Proof.
  unfold sl_lvc, F.reshape_rows. fold bs nf.
  apply Nat.eqb_eq in Htest. rewrite Htest. cbn [rbind].
  eexists. split; [reflexivity|]. apply mscale_shape.
  apply Nat.eqb_eq in Htest. rewrite <- Htest. apply rows_to_m_shape.
Qed.

Lemma forward_coef_ok :
  exists coef, forward_coef m val loc is_test lv_floor eps = Ok coef
               /\ has_shape2 bs nf coef.
Proof.
  destruct Hwf as [Hsm [Hsl _]].
  unfold forward_coef, sl_mu, sl_lv. fold bs nf.
  destruct (embed_slope_ok (slope_mu m) Hsm) as [e1 [He1 Hs1]].
  destruct (madd_ok bs nf e1 (F.broadcast_to_m (prior_slope_mu m) bs nf) Hs1
                    (broadcast_to_m_shape _ _ _)) as [mu [Hmu Hsmu]].
  destruct (embed_slope_ok (slope_lv m) Hsl) as [e2 [He2 Hs2]].
  destruct (madd_ok bs nf e2 (F.broadcast_to_m (prior_slope_lv m) bs nf) Hs2
                    (broadcast_to_m_shape _ _ _)) as [lv [Hlv Hslv]].
  destruct sl_lvc_ok as [lvc [Hlvc Hslvc]].
  destruct (madd_ok bs nf lv lvc Hslv Hslvc) as [lv' [Hlv' Hslv']].
  rewrite He1. cbn [rbind]. rewrite Hmu. cbn [rbind].
  rewrite He2. cbn [rbind]. rewrite Hlv. cbn [rbind].
  rewrite Hlvc. cbn [rbind]. rewrite Hlv'. cbn [rbind].
  apply (gaussian_m_ok (eps_slope eps) bs nf mu lv' Hsmu Hslv').
Qed.

Lemma forward_slop_ok :
  exists slop, forward_slop m val loc is_test lv_floor eps = Ok slop /\ length slop = bs.
Proof.
  unfold forward_slop.
  destruct forward_coef_ok as [coef [Hc Hs]]. rewrite Hc. cbn [rbind].
  destruct (mmul_ok bs nf coef val Hs Hval) as [cv [Hcv [Hl _]]].
  rewrite Hcv. cbn [rbind]. eexists. split; [reflexivity|].
  now rewrite length_map.
Qed.

Lemma shape3_of_rows {X} (b r c : nat) (e : list (list (list X))) :
  has_shape2 b r e -> Forall (Forall (fun v => length v = c)) e -> has_shape3 b r c e.
Proof.
  intros [H1 H2] H3. split; [assumption|].
  rewrite Forall_forall in *. intros p Hp. split; auto.
Qed.

Lemma embed_latent_ok (W : mat) :
  has_shape2 (n_features m) (n_dim m) W ->
  exists e, F.EmbedID W loc = Ok e /\ has_shape3 bs nf (n_dim m) e.
Proof.
  intros [HW1 HW2].
  destruct (EmbedID_ok W (fun v => length v = n_dim m) bs nf loc) as [e [He [Hs HP]]].
  - assumption.
  - assumption.
  - unfold mat, vec in *. now rewrite HW1.
  - exists e. split; [assumption|]. now apply shape3_of_rows.
Qed.

Lemma vi_lvc_ok :
  exists lvc, vi_lvc m val is_test lv_floor = Ok lvc /\ has_shape3 bs nf (n_dim m) lvc.
Proof.
  unfold vi_lvc, F.reshape_rows. fold bs nf.
  apply Nat.eqb_eq in Htest. rewrite Htest. cbn [rbind].
  eexists. split; [reflexivity|]. apply tscale_shape.
  apply Nat.eqb_eq in Htest. rewrite <- Htest. apply rows_to_t_shape.
Qed.

Lemma forward_vi_ok :
  exists vi, forward_vi m val loc is_test lv_floor eps = Ok vi
             /\ has_shape3 bs nf (n_dim m) vi.
Proof.
  destruct Hwf as [_ [_ [Hlm [Hll [Hpm Hpl]]]]].
  unfold forward_vi, vi_mu, vi_lv. fold bs nf.
  destruct (broadcast_to_t_ok (prior_latent_mu m) bs nf (n_dim m) Hpm) as [Hb1 Hsb1].
  destruct (broadcast_to_t_ok (prior_latent_lv m) bs nf (n_dim m) Hpl) as [Hb2 Hsb2].
  destruct (embed_latent_ok (latent_mu m) Hlm) as [e1 [He1 Hs1]].
  destruct (embed_latent_ok (latent_lv m) Hll) as [e2 [He2 Hs2]].
  destruct (tadd_ok bs nf (n_dim m) e1 _ Hs1 Hsb1) as [mu [Hmu Hsmu]].
  destruct (tadd_ok bs nf (n_dim m) e2 _ Hs2 Hsb2) as [lv [Hlv Hslv]].
  destruct vi_lvc_ok as [lvc [Hlvc Hslvc]].
  destruct (tadd_ok bs nf (n_dim m) lv lvc Hslv Hslvc) as [lv' [Hlv' Hslv']].
  rewrite Hb1. cbn [rbind]. rewrite He1. cbn [rbind]. rewrite Hmu. cbn [rbind].
  rewrite Hb2. cbn [rbind]. rewrite He2. cbn [rbind]. rewrite Hlv. cbn [rbind].
  rewrite Hlvc. cbn [rbind]. rewrite Hlv'. cbn [rbind].
  apply (gaussian_t_ok (eps_latent eps) bs nf (n_dim m) mu lv' Hsmu Hslv').
Qed.

End StagesReturn.

Section InteractionReturns.

Lemma gram_shape (V : mat) : has_shape2 (length V) (length V) (F.gram V).
Proof.
  unfold F.gram. split; [apply length_map|].
  apply Forall_map, Forall_forall. intros v _. apply length_map.
Qed.

Lemma outer_shape (x : vec) : has_shape2 (length x) (length x) (F.outer x).
Proof.
  unfold F.outer. split; [apply length_map|].
  apply Forall_map, Forall_forall. intros v _. apply length_map.
Qed.

Lemma vmul_const_ok (x k : vec) :
  length x = length k -> exists z, vmul_const x k = Ok z /\ length z = length x.
Proof.
  intros H. unfold vmul_const. rewrite (bcast_same (length x) k (eq_sym H)). cbn [rbind].
  now apply vmul_ok.
Qed.

Lemma mmul_const_ok (r c : nat) (x k : mat) :
  has_shape2 r c x -> has_shape2 r c k ->
  exists z, mmul_const x k = Ok z /\ has_shape2 r c z.
Proof.
  intros Hx Hk. unfold mmul_const.
  rewrite (bcast_same (length x) k)
    by (destruct Hx as [Hx1 _], Hk as [Hk1 _]; exact (eq_trans Hk1 (eq_sym Hx1))).
  cbn [rbind].
  apply (rows_ok (fun _ => vmul_const) c); try assumption.
  intros _ u v Hu Hv. destruct (vmul_const_ok u v) as [z [Hz Hl]]; [congruence|].
  exists z. split; [exact Hz | congruence].
Qed.

Lemma tmul_const_ok (b r c : nat) (x k : ten3) :
  has_shape3 b r c x -> has_shape3 b r c k ->
  exists z, tmul_const x k = Ok z /\ has_shape3 b r c z.
Proof.
  intros Hx Hk. unfold tmul_const.
  rewrite (bcast_same (length x) k)
    by (destruct Hx as [Hx1 _], Hk as [Hk1 _]; exact (eq_trans Hk1 (eq_sym Hx1))).
  cbn [rbind].
  apply (planes_ok (fun _ => mmul_const) r c); try assumption.
  intros _ u v. apply mmul_const_ok.
Qed.

Lemma interaction_ok (val : mat) (vi mk : ten3) (bs nf nd : nat) :
  (0 < bs)%nat -> (0 < nf)%nat ->
  has_shape2 bs nf val -> has_shape3 bs nf nd vi -> has_shape3 bs nf nf mk ->
  exists intx, interaction val vi mk = Ok intx /\ length intx = bs.
Proof.
  intros Hbs Hnf [Hv1 Hv2] [Hvi1 Hvi2] Hmk. unfold interaction.
  destruct (shape_of_nonempty bs nf val Hv1 Hv2 Hbs) as [Sv0 Sv1].
  assert (Hvi3 : Forall (fun V : mat => length V = nf) vi).
  { eapply Forall_impl; [|exact Hvi2]. intros V [HV _]. exact HV. }
  destruct (shape_of_nonempty bs nf vi Hvi1 Hvi3 Hbs) as [Si0 Si1].
  rewrite (batch_matmul_gram_ok vi) by (unfold mat, vec in *; rewrite ?Si0, ?Si1; assumption).
  rewrite (batch_matmul_outer_ok val) by (unfold mat, vec in *; rewrite ?Sv0, ?Sv1; assumption).
  cbn [rbind].
  assert (Hg : has_shape3 bs nf nf (map F.gram vi)).
  { split; [now rewrite length_map|]. apply Forall_map.
    eapply Forall_impl; [|exact Hvi2]. intros V [HV _].
    rewrite <- HV. apply gram_shape. }
  assert (Ho : has_shape3 bs nf nf (map F.outer val)).
  { split; [now rewrite length_map|]. apply Forall_map.
    eapply Forall_impl; [|exact Hv2]. intros x Hx. cbn beta in Hx.
    rewrite <- Hx. apply outer_shape. }
  destruct (tmul_ok bs nf nf _ _ Hg Ho) as [p [Hp Hsp]].
  rewrite Hp. cbn [rbind].
  destruct (tmul_const_ok bs nf nf p mk Hsp Hmk) as [q [Hq [Hlq _]]].
  rewrite Hq. cbn [rbind]. eexists. split; [reflexivity|].
  now rewrite length_map.
Qed.

End InteractionReturns.

Lemma mask_data_shape (st : St) (val : mat) (loc : list (list nat)) (y is_test : vec) :
  valid_call st val loc y is_test ->
  has_shape3 (shape0 val) (shape1 val) (shape1 val)
             (data (fst (mask (shape0 val) (shape1 val) st))).
Proof.
  intros [_ [_ [_ [_ [_ [_ [Hc _]]]]]]].
  destruct (cache_miss (self st) (shape0 val)) eqn:Hm.
  - rewrite (mask_miss _ _ st Hm). cbn [fst data]. apply build_mask_shape.
  - unfold cache_miss in Hm. destruct (_mask (self st)) as [c|] eqn:E; [|discriminate].
    apply negb_false_iff, Nat.eqb_eq in Hm.
    rewrite (mask_hit _ _ st c E Hm). cbn [fst]. now apply Hc.
Qed.

Lemma mean_squared_error_ok (x0 x1 : vec) :
  length x0 = length x1 -> exists mse, F.mean_squared_error x0 x1 = Ok mse.
Proof.
  intros H. unfold F.mean_squared_error, zip_with.
  destruct (izip_with_ok (fun _ a b => Ok ((a - b) * (a - b)))
                         (fun _ => True) (fun _ => True) (fun _ => True))
    with (a := x0) (b := x1) (i := 0%nat) as [r [Hr _]];
    try assumption; try (apply Forall_forall; auto).
  - intros. eexists. split; [reflexivity | exact I].
  - rewrite Hr. cbn [rbind]. eauto.
Qed.

Lemma forward_pred_ok (m : VFM) (val : mat) (loc : list (list nat)) (y is_test : vec)
      (lv_floor : R) (eps : Noise) (mk : ten3) :
  wf_model m ->
  has_shape2 (shape0 val) (shape1 val) val ->
  has_shape2 (shape0 val) (shape1 val) loc ->
  length y = shape0 val -> length is_test = shape0 val ->
  Forall (Forall (fun i => (i < n_features m)%nat)) loc ->
  has_shape3 (shape0 val) (shape1 val) (shape1 val) mk ->
  (0 < shape0 val)%nat -> (0 < shape1 val)%nat ->
  exists pred, forward_pred m val loc y is_test lv_floor eps mk = Ok pred
               /\ length pred = shape0 val.
Proof.
  intros Hwf Hval Hloc Hy Ht Hix Hmk Hbs Hnf. unfold forward_pred, forward_intx.
  destruct (forward_bias_ok m val y is_test lv_floor eps Hy Ht) as [b [Hb Hlb]].
  destruct (forward_slop_ok m val loc is_test lv_floor eps Hwf Hval Hloc Ht Hix)
    as [s [Hs Hls]].
  destruct (forward_vi_ok m val loc is_test lv_floor eps Hwf Hloc Ht Hix)
    as [vi [Hvi Hsvi]].
  destruct (interaction_ok val vi mk _ _ _ Hbs Hnf Hval Hsvi Hmk) as [ix [Hx Hlx]].
  rewrite Hb. cbn [rbind]. rewrite Hs. cbn [rbind].
  rewrite Hvi. cbn [rbind]. rewrite Hx. cbn [rbind].
  destruct (vadd_ok b s) as [p [Hp Hlp]]; [congruence|].
  rewrite Hp. cbn [rbind].
  destruct (intx_term m).
  - destruct (vadd_ok p ix) as [p' [Hp' Hlp']]; [congruence|].
    exists p'. split; [assumption | congruence].
  - exists p. split; [reflexivity | congruence].
Qed.

(** Every valid call returns a loss. *)
Lemma forward_returns (st : St) (val : mat) (loc : list (list nat)) (y is_test : vec)
      (lv_floor : R) (eps : Noise) :
  valid_call st val loc y is_test ->
  exists loss st', forward val loc y is_test lv_floor eps st = (Ok loss, st').
Proof.
  intros Hv. pose proof (mask_data_shape st val loc y is_test Hv) as Hmk.
  destruct Hv as [Hwf [Hval [Hloc [Hy [Ht [Hix [_ [Hbs [Hnf Hnobs]]]]]]]]].
  unfold forward.
  destruct (mask_frame (shape0 val) (shape1 val) st) as [Hself _].
  destruct (mask (shape0 val) (shape1 val) st) as [mk st1]. cbn [fst snd] in *.
  assert (Hwf1 : wf_model (self st1)).
  { injection Hself; intros. unfold wf_model in *. congruence. }
  assert (Hix1 : Forall (Forall (fun i => (i < n_features (self st1))%nat)) loc).
  { injection Hself; intros. now replace (n_features (self st1)) with (n_features (self st)). }
  assert (Hnobs1 : total_nobs (self st1) <> 0).
  { injection Hself; intros. now replace (total_nobs (self st1)) with (total_nobs (self st)). }
  destruct (forward_pred_ok (self st1) val loc y is_test lv_floor eps (data mk)
                            Hwf1 Hval Hloc Hy Ht Hix1 Hmk Hbs Hnf) as [pred [Hp Hlp]].
  unfold forward_logs. rewrite Hp. cbn [rbind].
  destruct (mean_squared_error_ok pred y) as [mse Hmse]; [congruence|].
  rewrite Hmse. cbn [rbind]. rewrite (frac_ok _ loc Hnobs1). cbn [rbind]. eauto.
Qed.

(** ** The loss *)

(** The closed form of the divergence from the standard normal, entry by
    entry: [0.5 * sum(exp(lv) + mu^2 - 1 - lv)]. *)
Definition kl_standard_normal (mu lv : vec) : R :=
  0.5 * vsum (map (fun p => exp (snd p) + fst p * fst p - 1 - snd p) (combine mu lv)).

(** The mean over the batch of the squared differences. *)
Definition mse_of (pred y : vec) : R :=
  vsum (map (fun p => (fst p - snd p) * (fst p - snd p)) (combine pred y)) / INR (length y).

(** The five divergences, each weighted by its lambda. *)
Definition summed_regularization (m : VFM) : R :=
  lambda1 m * kl_standard_normal (slope_mu m) (slope_lv m)
  + lambda2 m * kl_standard_normal (concat (latent_mu m)) (concat (latent_lv m))
  + lambda0 m * kl_standard_normal [bias_mu m] [bias_lv m]
  + lambda0 m * kl_standard_normal (prior_latent_mu m) (prior_latent_lv m)
  + lambda0 m * kl_standard_normal [prior_slope_mu m] [prior_slope_lv m].

Lemma gaussian_kl_divergence_closed_form (mu lv : vec) :
  length mu = length lv ->
  F.gaussian_kl_divergence_v mu lv = kl_standard_normal mu lv.
Proof.
  unfold F.gaussian_kl_divergence_v, kl_standard_normal.
  revert lv. induction mu as [|a mu IH]; intros [|b lv] H; cbn in H; try discriminate.
  - cbn. lra.
  - specialize (IH lv ltac:(lia)).
    change (length (a :: mu)) with (S (length mu)). rewrite S_INR.
    unfold vsum in *. cbn [map combine fold_right fst snd] in *. lra.
Qed.

Lemma concat_length_shape {X} (r c : nat) (a : list (list X)) :
  has_shape2 r c a -> length (concat a) = (r * c)%nat.
Proof.
  intros [H1 H2]. subst r. induction H2 as [|x a Hx _ IH]; cbn; [reflexivity|].
  rewrite length_app, IH, Hx. reflexivity.
Qed.

Lemma regt_closed_form (m : VFM) (loc : list (list nat)) :
  wf_model m -> regt m = summed_regularization m.
Proof.
  intros [H1 [H2 [H3 [H4 [H5 H6]]]]].
  unfold regt, reg0, reg1, reg2, reg3, reg4, summed_regularization,
    F.gaussian_kl_divergence_m.
  rewrite !gaussian_kl_divergence_closed_form; try reflexivity; try congruence.
  - lra.
  - rewrite (concat_length_shape _ _ _ H3), (concat_length_shape _ _ _ H4). reflexivity.
Qed.

Lemma mean_squared_error_value (x0 x1 : vec) (mse : R) :
  F.mean_squared_error x0 x1 = Ok mse -> mse = mse_of x0 x1 /\ length x0 = length x1.
Proof.
  unfold F.mean_squared_error. intros H.
  apply rbind_ok in H. destruct H as [sq [Hsq H]]. injection H as <-.
  apply (zip_with_pure (fun a b => (a - b) * (a - b))) in Hsq.
  destruct Hsq as [Hl ->]. unfold mse_of. rewrite Hl. auto.
Qed.

(** None of the functions of the forward pass reads the mask cache. *)
Lemma forward_logs_set_mask (m : VFM) (c : option ndarray3) :
  forward_logs (set_mask m c) = forward_logs m.
Proof. reflexivity. Qed.

Lemma forward_pred_set_mask (m : VFM) (c : option ndarray3) :
  forward_pred (set_mask m c) = forward_pred m.
Proof. reflexivity. Qed.

Lemma set_mask_eta (m : VFM) : set_mask m (_mask m) = m.
Proof. destruct m. reflexivity. Qed.

Lemma mask_self (bs nf : nat) (st : St) :
  self (snd (mask bs nf st)) = set_mask (self st) (_mask (self (snd (mask bs nf st)))).
Proof.
  destruct (cache_miss (self st) bs) eqn:Hm.
  - rewrite (mask_miss bs nf st Hm). reflexivity.
  - unfold cache_miss in Hm. destruct (_mask (self st)) as [c|] eqn:Hc; [|discriminate].
    apply negb_false_iff, Nat.eqb_eq in Hm.
    rewrite (mask_hit bs nf st c Hc Hm). cbn [snd]. now rewrite set_mask_eta.
Qed.

(** A call that returns has as many rows of indices as rows of values. *)
Lemma forward_coef_rows (m : VFM) (val : mat) (loc : list (list nat)) (is_test : vec)
      (lv_floor : R) (eps : Noise) (coef : mat) :
  forward_coef m val loc is_test lv_floor eps = Ok coef -> shape0 loc = shape0 val.
Proof.
  unfold forward_coef, sl_mu. intros H.
  apply rbind_ok in H. destruct H as [mu [Hmu _]].
  apply rbind_ok in Hmu. destruct Hmu as [e [He Hadd]].
  apply EmbedID_length in He.
  apply izip_with_length in Hadd. destruct Hadd as [Hl _].
  unfold F.broadcast_to_m in Hl. rewrite repeat_length in Hl.
  unfold shape0 in *. rewrite <- He. exact Hl.
Qed.

Lemma forward_pred_rows (m : VFM) (val : mat) (loc : list (list nat)) (y is_test : vec)
      (lv_floor : R) (eps : Noise) (mk : ten3) (pred : vec) :
  forward_pred m val loc y is_test lv_floor eps mk = Ok pred -> shape0 loc = shape0 val.
Proof.
  unfold forward_pred, forward_slop. intros H.
  apply rbind_ok in H. destruct H as [b [_ H]].
  apply rbind_ok in H. destruct H as [s [Hs _]].
  apply rbind_ok in Hs. destruct Hs as [coef [Hc _]].
  eapply forward_coef_rows; eauto.
Qed.

(** What a returning call returns, in terms of the code's own stages. *)
Lemma forward_inv (val : mat) (loc : list (list nat)) (y is_test : vec)
      (lv_floor : R) (eps : Noise) (st st' : St) (loss : R) :
  forward val loc y is_test lv_floor eps st = (Ok loss, st') ->
  exists pred mse,
    forward_pred (self st) val loc y is_test lv_floor eps
                 (data (fst (mask (shape0 val) (shape1 val) st))) = Ok pred
    /\ F.mean_squared_error pred y = Ok mse
    /\ loss = mse + regt (self st) * frac_of (self st) loc.
Proof.
  unfold forward. intros H.
  pose proof (mask_self (shape0 val) (shape1 val) st) as Hs.
  destruct (mask (shape0 val) (shape1 val) st) as [mk st1]. cbn [fst snd] in *.
  destruct (forward_logs (self st1) val loc y is_test lv_floor eps (data mk))
    as [logs|e] eqn:Hl; [|discriminate].
  injection H as <- <-.
  rewrite Hs, forward_logs_set_mask in Hl. unfold forward_logs in Hl.
  apply rbind_ok in Hl. destruct Hl as [pred [Hp Hl]].
  apply rbind_ok in Hl. destruct Hl as [mse [Hm Hl]].
  apply rbind_ok in Hl. destruct Hl as [fr [Hfr Hl]].
  apply frac_inv in Hfr. destruct Hfr as [_ ->].
  injection Hl as <-. cbn [log_loss]. eauto.
Qed.

(** A returning call has passed the division and both matrix products. *)
Lemma forward_returns_nondegenerate (val : mat) (loc : list (list nat)) (y is_test : vec)
      (lv_floor : R) (eps : Noise) (st st' : St) (loss : R) :
  forward val loc y is_test lv_floor eps st = (Ok loss, st') ->
  total_nobs (self st) <> 0 /\ (0 < shape0 val)%nat /\ (0 < shape1 val)%nat.
Proof.
  unfold forward. intros H.
  pose proof (mask_self (shape0 val) (shape1 val) st) as Hs.
  destruct (mask (shape0 val) (shape1 val) st) as [mk st1]. cbn [fst snd] in *.
  destruct (forward_logs (self st1) val loc y is_test lv_floor eps (data mk))
    as [logs|e] eqn:Hl; [|discriminate].
  rewrite Hs, forward_logs_set_mask in Hl. unfold forward_logs in Hl.
  apply rbind_ok in Hl. destruct Hl as [pred [Hp Hl]].
  apply rbind_ok in Hl. destruct Hl as [mse [Hm Hl]].
  apply rbind_ok in Hl. destruct Hl as [fr [Hfr _]].
  apply frac_inv in Hfr. destruct Hfr as [Hn _]. split; [exact Hn|].
  unfold forward_pred, forward_intx in Hp.
  apply rbind_ok in Hp. destruct Hp as [b [_ Hp]].
  apply rbind_ok in Hp. destruct Hp as [sl [_ Hp]].
  apply rbind_ok in Hp. destruct Hp as [ix [Hx _]].
  apply rbind_ok in Hx. destruct Hx as [vi [_ Hx]].
  unfold interaction in Hx.
  apply rbind_ok in Hx. destruct Hx as [vij [_ Hx]].
  apply rbind_ok in Hx. destruct Hx as [xij [Ho _]].
  apply batch_matmul_outer_inv in Ho. tauto.
Qed.

(** The result and the state of a call whose stages return and whose
    [total_nobs] is not zero. *)
Lemma forward_run (val : mat) (loc : list (list nat)) (y is_test : vec)
      (lv_floor : R) (eps : Noise) (st : St) (pred : vec) (mse : R) :
  total_nobs (self st) <> 0 ->
  forward_pred (self st) val loc y is_test lv_floor eps
               (data (fst (mask (shape0 val) (shape1 val) st))) = Ok pred ->
  F.mean_squared_error pred y = Ok mse ->
  forward val loc y is_test lv_floor eps st
  = (Ok (mse + regt (self st) * frac_of (self st) loc),
     report {| log_loss := mse + regt (self st) * frac_of (self st) loc;
               log_rmse := sqrt mse;
               log_reg0 := reg0 (self st); log_regt := regt (self st);
               log_reg1 := reg1 (self st); log_reg2 := reg2 (self st);
               log_bias := vsum [bias_mu (self st)] |}
            (snd (mask (shape0 val) (shape1 val) st))).
Proof.
  intros Hn Hp Hm. unfold forward.
  pose proof (mask_self (shape0 val) (shape1 val) st) as Hs.
  destruct (mask (shape0 val) (shape1 val) st) as [mk st1]. cbn [fst snd] in *.
  rewrite Hs, forward_logs_set_mask. unfold forward_logs.
  rewrite Hp. cbn [rbind]. rewrite Hm. cbn [rbind].
  rewrite (frac_ok _ loc Hn). cbn [rbind log_loss]. reflexivity.
Qed.

Ltac run_forward := eapply forward_run; [cbn; lra | reflexivity | reflexivity].

(** C1.  On a well-shaped model, a call of [forward] that returns, returns
    the mean squared error between the prediction and [y] plus the summed
    regularization times [B / total_nobs], where [B] is the batch size and
    the summed regularization is [lambda1] times the slope divergence plus
    [lambda2] times the latent divergence plus [lambda0] times each of the
    bias, prior-latent and prior-slope divergences; and every valid call
    returns. *)
Theorem forward_loss_is_mse_plus_scaled_regularization
        (val : mat) (loc : list (list nat)) (y is_test : vec)
        (lv_floor : R) (eps : Noise) (st : St) :
  wf_model (self st) ->
  (forall loss st',
      forward val loc y is_test lv_floor eps st = (Ok loss, st') ->
      exists pred,
        forward_pred (self st) val loc y is_test lv_floor eps
                     (data (fst (mask (shape0 val) (shape1 val) st))) = Ok pred
        /\ loss = mse_of pred y
                  + summed_regularization (self st)
                    * (INR (shape0 val) / total_nobs (self st)))
  /\ (valid_call st val loc y is_test ->
      exists loss st', forward val loc y is_test lv_floor eps st = (Ok loss, st')).
Proof.
  intros Hwf. split.
  - intros loss st' H. apply forward_inv in H.
    destruct H as [pred [mse [Hp [Hm ->]]]].
    exists pred. split; [assumption|].
    apply mean_squared_error_value in Hm. destruct Hm as [-> _].
    rewrite (regt_closed_form _ loc Hwf). unfold frac_of.
    rewrite (forward_pred_rows _ _ _ _ _ _ _ _ _ Hp). lra.
  - apply forward_returns.
Qed.

Lemma forward_loss_is_mse_plus_scaled_regularization_witness :
  exists loss st',
    forward [[1; 1]] [[0; 1]%nat] [0] [1] lv_floor_default no_noise (fresh_state demo)
    = (Ok loss, st').
Proof.
  apply (forward_loss_is_mse_plus_scaled_regularization
           [[1; 1]] [[0; 1]%nat] [0] [1] lv_floor_default no_noise (fresh_state demo)).
  - unfold wf_model, has_shape2. cbn.
    repeat split; try reflexivity; repeat constructor.
  - unfold valid_call, has_shape2. cbn.
    repeat split; try reflexivity; repeat constructor; try discriminate; try lra.
Defined.

(** ** Without the interaction term *)

(** The model with other latent tables and latent priors. *)
Definition with_latent (m : VFM) (lm ll : mat) (pm pl : vec) : VFM :=
  {| n_dim := n_dim m; n_features := n_features m;
     lambda0 := lambda0 m; lambda1 := lambda1 m; lambda2 := lambda2 m;
     intx_term := intx_term m; total_nobs := total_nobs m;
     bias_mu := bias_mu m; bias_lv := bias_lv m;
     slope_mu := slope_mu m; slope_lv := slope_lv m;
     prior_slope_mu := prior_slope_mu m; prior_slope_lv := prior_slope_lv m;
     latent_mu := lm; latent_lv := ll;
     prior_latent_mu := pm; prior_latent_lv := pl;
     _mask := _mask m |}.

Definition with_self (st : St) (m : VFM) : St :=
  {| self := m; next_id := next_id st; reported := reported st |}.

Lemma forward_pred_no_intx (m : VFM) (val : mat) (loc : list (list nat)) (y is_test : vec)
      (lv_floor : R) (eps : Noise) (mk : ten3) (pred : vec) :
  intx_term m = false ->
  forward_pred m val loc y is_test lv_floor eps mk = Ok pred ->
  exists bias slop,
    forward_bias m y is_test lv_floor eps = Ok bias
    /\ forward_slop m val loc is_test lv_floor eps = Ok slop
    /\ vadd bias slop = Ok pred.
Proof.
  intros Hi H. unfold forward_pred in H. rewrite Hi in H.
  apply rbind_ok in H. destruct H as [b [Hb H]].
  apply rbind_ok in H. destruct H as [s [Hs H]].
  apply rbind_ok in H. destruct H as [ix [_ H]].
  apply rbind_ok in H. destruct H as [p [Hp H]].
  injection H as <-. eauto.
Qed.

(** C9.  With [intx_term = False] a call that returns has computed the
    prediction as bias plus slope sum, two stages that do not read the
    latent tables or the latent prior; so the same call on the model with
    any other latent parameters, if it returns, has the same prediction
    error and differs in the loss by the regularization alone. *)
Theorem no_interaction_term_prediction
        (val : mat) (loc : list (list nat)) (y is_test : vec)
        (lv_floor : R) (eps : Noise) (st st' : St) (loss : R) :
  intx_term (self st) = false ->
  forward val loc y is_test lv_floor eps st = (Ok loss, st') ->
  exists bias slop pred,
    forward_bias (self st) y is_test lv_floor eps = Ok bias
    /\ forward_slop (self st) val loc is_test lv_floor eps = Ok slop
    /\ vadd bias slop = Ok pred
    /\ loss = mse_of pred y + regt (self st) * frac_of (self st) loc
    /\ forall lm ll pm pl loss2 st2',
        forward val loc y is_test lv_floor eps
                (with_self st (with_latent (self st) lm ll pm pl)) = (Ok loss2, st2') ->
        loss2 = mse_of pred y
                + regt (with_latent (self st) lm ll pm pl) * frac_of (self st) loc.
Proof.
  intros Hi H. apply forward_inv in H.
  destruct H as [pred [mse [Hp [Hm ->]]]].
  destruct (forward_pred_no_intx _ _ _ _ _ _ _ _ _ Hi Hp) as [b [s [Hb [Hs Hadd]]]].
  apply mean_squared_error_value in Hm. destruct Hm as [-> _].
  exists b, s, pred. repeat split; try assumption.
  intros lm ll pm pl loss2 st2' H2. apply forward_inv in H2.
  destruct H2 as [pred2 [mse2 [Hp2 [Hm2 ->]]]]. cbn [self with_self] in *.
  destruct (forward_pred_no_intx (with_latent (self st) lm ll pm pl) _ _ _ _ _ _ _ _ Hi Hp2)
    as [b2 [s2 [Hb2 [Hs2 Hadd2]]]].
  change (forward_bias (with_latent (self st) lm ll pm pl)) with (forward_bias (self st)) in Hb2.
  change (forward_slop (with_latent (self st) lm ll pm pl)) with (forward_slop (self st)) in Hs2.
  assert (pred2 = pred) by congruence. subst pred2.
  apply mean_squared_error_value in Hm2. destruct Hm2 as [-> _]. reflexivity.
Qed.

Definition demo_linear : VFM :=
  {| n_dim := 2; n_features := 3;
     lambda0 := 1; lambda1 := 1; lambda2 := 1;
     intx_term := false; total_nobs := 1;
     bias_mu := 0; bias_lv := 0;
     slope_mu := [0; 0; 0]; slope_lv := [0; 0; 0];
     prior_slope_mu := 0; prior_slope_lv := 0;
     latent_mu := [[1; 0]; [1; 0]; [0; 1]];
     latent_lv := [[0; 0]; [0; 0]; [0; 0]];
     prior_latent_mu := [0; 0]; prior_latent_lv := [0; 0];
     _mask := None |}.

Lemma no_interaction_term_prediction_witness :
  exists bias slop pred,
    forward_bias demo_linear [0] [1] lv_floor_default no_noise = Ok bias
    /\ forward_slop demo_linear [[1; 1]] [[0; 1]%nat] [1] lv_floor_default no_noise = Ok slop
    /\ vadd bias slop = Ok pred.
Proof.
  edestruct (no_interaction_term_prediction
               [[1; 1]] [[0; 1]%nat] [0] [1] lv_floor_default no_noise
               (fresh_state demo_linear))
    as [b [s [p [Hb [Hs [Hp _]]]]]].
  - reflexivity.
  - run_forward.
  - exists b, s, p. auto.
Defined.

(** ** Construction *)

(** The configurations the contract calls invalid: a size that is not
    positive or a lambda that is negative. *)
Definition invalid_config (cfg : Config) : Prop :=
  match cfg_n_features cfg with
  | Some n => (n <= 0)%Z
  | None => True
  end
  \/ (cfg_n_dim cfg <= 0)%Z
  \/ cfg_lambda0 cfg < 0 \/ cfg_lambda1 cfg < 0 \/ cfg_lambda2 cfg < 0.

(** The configurations the constructor rejects: a size that cannot be the
    extent of an array. *)
Definition unallocatable (cfg : Config) : Prop :=
  match cfg_n_features cfg with
  | Some n => (n < 0)%Z
  | None => True
  end
  \/ (cfg_n_dim cfg < 0)%Z.

Definition default_config (n : Z) : Config :=
  {| cfg_n_features := Some n; cfg_n_dim := 8;
     cfg_lambda0 := 5 / 1000; cfg_lambda1 := 5 / 1000; cfg_lambda2 := 5 / 1000;
     cfg_init_bias_mu := 0; cfg_init_bias_lv := 0;
     cfg_intx_term := true; cfg_total_nobs := 1 |}.

Definition with_lambda0 (cfg : Config) (l : R) : Config :=
  {| cfg_n_features := cfg_n_features cfg; cfg_n_dim := cfg_n_dim cfg;
     cfg_lambda0 := l; cfg_lambda1 := cfg_lambda1 cfg; cfg_lambda2 := cfg_lambda2 cfg;
     cfg_init_bias_mu := cfg_init_bias_mu cfg; cfg_init_bias_lv := cfg_init_bias_lv cfg;
     cfg_intx_term := cfg_intx_term cfg; cfg_total_nobs := cfg_total_nobs cfg |}.

Definition zero_draws : Randn :=
  {| rnd_latent_mu := fun _ _ => 0; rnd_latent_lv := fun _ _ => 0;
     rnd_slope_mu := fun _ => 0; rnd_slope_lv := fun _ => 0 |}.

Lemma extent_ok (n : Z) : (0 <= n)%Z -> extent n = Ok (Z.to_nat n).
Proof. intros H. unfold extent. destruct (Z.ltb_spec n 0); [lia | reflexivity]. Qed.

Lemma extent_err (n : Z) : (n < 0)%Z -> extent n = Err ValueError.
Proof. intros H. unfold extent. destruct (Z.ltb_spec n 0); [reflexivity | lia]. Qed.

Lemma tabulate_length {X} (n : nat) (f : nat -> X) : length (tabulate n f) = n.
Proof. unfold tabulate. now rewrite length_map, length_seq. Qed.

Lemma tabulate_shape2 {X} (r c : nat) (f : nat -> nat -> X) :
  has_shape2 r c (tabulate r (fun i => tabulate c (f i))).
Proof.
  split; [apply tabulate_length|]. unfold tabulate at 1.
  apply Forall_map, Forall_forall. intros i _. apply tabulate_length.
Qed.

(** C8, refuted as stated.  A negative [lambda0] and a zero [n_features]
    are both invalid configurations, and the constructor accepts each and
    returns a model. *)
Lemma init_accepts_invalid_config :
  (invalid_config (with_lambda0 (default_config 5) (-1))
   /\ (exists m, __init__ (with_lambda0 (default_config 5) (-1)) zero_draws = Ok m
                 /\ lambda0 m = -1)
   /\ ~ (exists e, __init__ (with_lambda0 (default_config 5) (-1)) zero_draws = Err e))
  /\ (invalid_config (default_config 0)
      /\ (exists m, __init__ (default_config 0) zero_draws = Ok m /\ n_features m = 0%nat)
      /\ ~ (exists e, __init__ (default_config 0) zero_draws = Err e)).
Proof.
  split; split; [| split | | split].
  - unfold invalid_config. cbn. right. right. left. lra.
  - eexists. split; reflexivity.
  - intros [e H]. discriminate H.
  - unfold invalid_config. cbn. left. lia.
  - eexists. split; reflexivity.
  - intros [e H]. discriminate H.
Qed.

(** C8, as the code has it.  The constructor checks nothing itself.  It
    raises exactly when a size cannot be allocated, which is when
    [n_features] is missing or a size is negative, and then no model
    exists.  Otherwise it returns a model of the requested sizes, with
    well-shaped parameter tensors, no cached mask, and the lambdas, the
    bias initial values, [intx_term] and [total_nobs] stored as given,
    whatever their sign. *)
Theorem init_fails_only_on_unallocatable_sizes (cfg : Config) (rnd : Randn) :
  (unallocatable cfg -> exists e, __init__ cfg rnd = Err e)
  /\ (~ unallocatable cfg ->
      exists m, __init__ cfg rnd = Ok m
                /\ wf_model m
                /\ _mask m = None
                /\ Some (Z.of_nat (n_features m)) = cfg_n_features cfg
                /\ Z.of_nat (n_dim m) = cfg_n_dim cfg
                /\ lambda0 m = cfg_lambda0 cfg
                /\ lambda1 m = cfg_lambda1 cfg
                /\ lambda2 m = cfg_lambda2 cfg
                /\ bias_mu m = cfg_init_bias_mu cfg
                /\ bias_lv m = cfg_init_bias_lv cfg
                /\ intx_term m = cfg_intx_term cfg
                /\ total_nobs m = cfg_total_nobs cfg).
Proof.
  unfold unallocatable, __init__. split.
  - intros H. destruct (cfg_n_features cfg) as [n|]; [|cbn; eauto].
    destruct (Z.ltb_spec n 0) as [Hn|Hn].
    + rewrite (extent_err n Hn). cbn. eauto.
    + rewrite (extent_ok n Hn). cbn [rbind].
      destruct H as [H|H]; [lia|]. rewrite (extent_err _ H). cbn. eauto.
  - intros H. destruct (cfg_n_features cfg) as [n|]; [|exfalso; apply H; now left].
    assert (Hn : (0 <= n)%Z) by (destruct (Z.ltb_spec n 0); [exfalso; apply H; now left | assumption]).
    assert (Hd : (0 <= cfg_n_dim cfg)%Z)
      by (destruct (Z.ltb_spec (cfg_n_dim cfg) 0); [exfalso; apply H; now right | assumption]).
    rewrite (extent_ok n Hn), (extent_ok _ Hd). cbn [rbind].
    eexists. split; [reflexivity|]. cbn.
    repeat split; try (rewrite Z2Nat.id by assumption; reflexivity); try lra.
    + apply tabulate_length.
    + apply tabulate_length.
    + apply tabulate_length.
    + apply (tabulate_shape2 (Z.to_nat n) (Z.to_nat (cfg_n_dim cfg))
                             (fun i j => rnd_latent_mu rnd i j / _)).
    + apply tabulate_length.
    + apply (tabulate_shape2 (Z.to_nat n) (Z.to_nat (cfg_n_dim cfg))
                             (fun i j => rnd_latent_lv rnd i j / _ - 2)).
    + apply repeat_length.
    + apply repeat_length.
Qed.

Lemma init_fails_only_on_unallocatable_sizes_witness :
  (exists e, __init__ (default_config (-3)) zero_draws = Err e)
  /\ (exists m, __init__ (with_lambda0 (default_config 5) (-1)) zero_draws = Ok m
                /\ lambda0 m = -1).
Proof.
  split.
  - apply (init_fails_only_on_unallocatable_sizes (default_config (-3)) zero_draws).
    unfold unallocatable. cbn. left. lia.
  - destruct (init_fails_only_on_unallocatable_sizes
                (with_lambda0 (default_config 5) (-1)) zero_draws) as [_ H].
    destruct H as [m [Hm [_ [_ [_ [_ [Hl _]]]]]]].
    + unfold unallocatable. cbn. intros [H|H]; lia.
    + exists m. split; [exact Hm | exact Hl].
Defined.

(** ** Mismatched shapes *)

(** The shapes the input contract asks for: [loc] of the shape of [val],
    one target and one flag per row. *)
Definition shapes_agree (val : mat) (loc : list (list nat)) (y is_test : vec) : Prop :=
  has_shape2 (shape0 val) (shape1 val) loc
  /\ length y = shape0 val
  /\ length is_test = shape0 val.

(** An operation whose only exception is the shape error. *)
Definition raises_shape {A} (r : result A) : Prop :=
  forall e, r = Err e -> e = ShapeMismatch.

Section ErrorFacts.

Lemma izip_with_Forall2 {A B C} (f : nat -> A -> B -> result C) (P : A -> B -> Prop) :
  (forall i x y z, f i x y = Ok z -> P x y) ->
  forall a b i r, izip_with f i a b = Ok r -> Forall2 P a b.
Proof.
  intros Hf. induction a as [|x a IH]; intros [|y b] i r H; cbn in H; try discriminate.
  - constructor.
  - apply rbind_ok in H. destruct H as [z [Hz H]].
    apply rbind_ok in H. destruct H as [r' [Hr _]].
    constructor; eauto.
Qed.

Lemma madd_same_shape (a b r : mat) :
  madd a b = Ok r -> Forall2 (fun x y => length x = length y) a b.
Proof.
  apply izip_with_Forall2. intros _ x y z H.
  apply izip_with_length in H. tauto.
Qed.

Lemma embed_row_length {X} (W : list X) (ix : list nat) (row : list X) :
  F.embed_row W ix = Ok row -> length row = length ix.
Proof.
  revert row. induction ix as [|i ix IH]; intros row H; cbn in H.
  - injection H as <-. reflexivity.
  - destruct (nth_error W i); [|discriminate].
    apply rbind_ok in H. destruct H as [r [Hr H]]. injection H as <-.
    cbn. f_equal. now apply IH.
Qed.

Lemma EmbedID_rows {X} (W : list X) (x : list (list nat)) (e : list (list X)) :
  F.EmbedID W x = Ok e -> Forall2 (fun row ix => length row = length ix) e x.
Proof.
  revert e. induction x as [|ix x IH]; intros e H; cbn in H.
  - injection H as <-. constructor.
  - apply rbind_ok in H. destruct H as [row [Hrow H]].
    apply rbind_ok in H. destruct H as [e' [He H]]. injection H as <-.
    constructor; [eapply embed_row_length; eauto | now apply IH].
Qed.

Lemma shape_of_broadcast (p : R) (r c : nat) (e : mat) (x : list (list nat)) :
  Forall2 (fun u v : vec => length u = length v) e (F.broadcast_to_m p r c) ->
  Forall2 (fun (row : vec) (ix : list nat) => length row = length ix) e x ->
  has_shape2 r c x.
Proof.
  unfold F.broadcast_to_m. revert e x.
  induction r as [|r IH]; intros e x H1 H2; cbn in H1.
  - inversion H1; subst. inversion H2; subst. split; [reflexivity | constructor].
  - inversion H1 as [|u v e' b' Huv H1']; subst.
    inversion H2 as [|u' ix e'' x' Hix H2']; subst.
    destruct (IH e' x' H1' H2') as [Hl Hf].
    split; [cbn; now rewrite Hl|]. constructor; [|assumption].
    rewrite repeat_length in Huv. congruence.
Qed.

(** What a call that computes a prediction says about its inputs. *)
Lemma forward_pred_shapes (m : VFM) (val : mat) (loc : list (list nat)) (y is_test : vec)
      (lv_floor : R) (eps : Noise) (mk : ten3) (pred : vec) :
  forward_pred m val loc y is_test lv_floor eps mk = Ok pred ->
  shapes_agree val loc y is_test.
Proof.
  unfold forward_pred. intros H.
  apply rbind_ok in H. destruct H as [b [Hb H]].
  apply rbind_ok in H. destruct H as [s [Hs _]].
  unfold forward_bias, bs_lv in Hb.
  apply rbind_ok in Hb. destruct Hb as [lv [Hlv _]].
  apply izip_with_length in Hlv. destruct Hlv as [Hyt _].
  unfold F.broadcast_to_v, vscale in Hyt. rewrite repeat_length, length_map in Hyt.
  unfold forward_slop in Hs.
  apply rbind_ok in Hs. destruct Hs as [coef [Hc _]].
  unfold forward_coef in Hc.
  apply rbind_ok in Hc. destruct Hc as [mu [Hmu Hc]].
  apply rbind_ok in Hc. destruct Hc as [lv2 [_ Hc]].
  apply rbind_ok in Hc. destruct Hc as [lvc [Hlvc _]].
  unfold sl_lvc, F.reshape_rows in Hlvc.
  destruct (Nat.eqb_spec (length is_test) (shape0 val)) as [Ht|Ht]; [|discriminate].
  unfold sl_mu in Hmu.
  apply rbind_ok in Hmu. destruct Hmu as [e [He Hadd]].
  apply madd_same_shape in Hadd. apply EmbedID_rows in He.
  split; [|split].
  - eapply shape_of_broadcast; eauto.
  - congruence.
  - assumption.
Qed.

Lemma raises_shape_bind {A B} (r : result A) (k : A -> result B) :
  raises_shape r -> (forall x, r = Ok x -> raises_shape (k x)) ->
  raises_shape (rbind r k).
Proof.
  intros Hr Hk e H. destruct r as [x|e']; cbn in H.
  - eapply Hk; eauto.
  - injection H as <-. now apply Hr.
Qed.

Lemma raises_shape_ok {A} (a : A) : raises_shape (Ok a).
Proof. intros e H. discriminate. Qed.

Lemma raises_shape_izip {A B C} (f : nat -> A -> B -> result C) :
  (forall i x y, raises_shape (f i x y)) ->
  forall a b i, raises_shape (izip_with f i a b).
Proof.
  intros Hf. induction a as [|x a IH]; intros [|y b] i; cbn.
  - apply raises_shape_ok.
  - intros e H. now injection H as <-.
  - intros e H. now injection H as <-.
  - apply raises_shape_bind; [apply Hf|]. intros z _.
    apply raises_shape_bind; [apply IH|]. intros r _. apply raises_shape_ok.
Qed.

Lemma raises_shape_bcast {A} (n : nat) (l : list A) : raises_shape (bcast n l).
Proof.
  unfold bcast. destruct (length l =? n)%nat; [apply raises_shape_ok|].
  destruct l as [|a [|b l]]; intros e H; try discriminate; now injection H as <-.
Qed.

Lemma raises_shape_vadd (u v : vec) : raises_shape (vadd u v).
Proof. apply raises_shape_izip. intros. apply raises_shape_ok. Qed.

Lemma raises_shape_madd (a b : mat) : raises_shape (madd a b).
Proof. apply raises_shape_izip. intros. apply raises_shape_vadd. Qed.

Lemma raises_shape_tadd (a b : ten3) : raises_shape (tadd a b).
Proof. apply raises_shape_izip. intros. apply raises_shape_madd. Qed.

Lemma raises_shape_vmul (u v : vec) : raises_shape (vmul u v).
Proof. apply raises_shape_izip. intros. apply raises_shape_ok. Qed.

Lemma raises_shape_mmul (a b : mat) : raises_shape (mmul a b).
Proof. apply raises_shape_izip. intros. apply raises_shape_vmul. Qed.

Lemma raises_shape_tmul (a b : ten3) : raises_shape (tmul a b).
Proof. apply raises_shape_izip. intros. apply raises_shape_mmul. Qed.

Lemma raises_shape_vmul_const (x c : vec) : raises_shape (vmul_const x c).
Proof.
  apply raises_shape_bind; [apply raises_shape_bcast|]. intros. apply raises_shape_vmul.
Qed.

Lemma raises_shape_mmul_const (x c : mat) : raises_shape (mmul_const x c).
Proof.
  apply raises_shape_bind; [apply raises_shape_bcast|]. intros.
  apply raises_shape_izip. intros. apply raises_shape_vmul_const.
Qed.

Lemma raises_shape_tmul_const (x c : ten3) : raises_shape (tmul_const x c).
Proof.
  apply raises_shape_bind; [apply raises_shape_bcast|]. intros.
  apply raises_shape_izip. intros. apply raises_shape_mmul_const.
Qed.

Lemma raises_shape_gaussian_v (eps : nat -> R) (a b : vec) : raises_shape (F.gaussian_v eps a b).
Proof. apply raises_shape_izip. intros. apply raises_shape_ok. Qed.

Lemma raises_shape_gaussian_m (eps : nat -> nat -> R) (a b : mat) :
  raises_shape (F.gaussian_m eps a b).
Proof. apply raises_shape_izip. intros. apply raises_shape_gaussian_v. Qed.

Lemma raises_shape_gaussian_t (eps : nat -> nat -> nat -> R) (a b : ten3) :
  raises_shape (F.gaussian_t eps a b).
Proof. apply raises_shape_izip. intros. apply raises_shape_gaussian_m. Qed.

Lemma embed_row_in_range {X} (W : list X) (ix : list nat) :
  Forall (fun i => (i < length W)%nat) ix -> raises_shape (F.embed_row W ix).
Proof.
  intros H. destruct (embed_row_ok W (fun _ => True) ix) as [r [Hr _]];
    [apply Forall_forall; auto | assumption |].
  rewrite Hr. apply raises_shape_ok.
Qed.

Lemma EmbedID_in_range {X} (W : list X) (x : list (list nat)) :
  Forall (Forall (fun i => (i < length W)%nat)) x -> raises_shape (F.EmbedID W x).
Proof.
  induction 1 as [|ix x Hix _ IH]; cbn.
  - apply raises_shape_ok.
  - apply raises_shape_bind; [now apply embed_row_in_range|]. intros row _.
    apply raises_shape_bind; [exact IH|]. intros. apply raises_shape_ok.
Qed.

End ErrorFacts.

Create HintDb shape_errors.

#[export] Hint Resolve raises_shape_ok raises_shape_vadd raises_shape_madd raises_shape_tadd
  raises_shape_vmul raises_shape_mmul raises_shape_tmul raises_shape_tmul_const
  raises_shape_gaussian_v raises_shape_gaussian_m raises_shape_gaussian_t
  raises_shape_bcast EmbedID_in_range : shape_errors.

Ltac shape_errors :=
  repeat first
    [ solve [auto with shape_errors]
    | apply raises_shape_bind; [|intros ? _] ].

Lemma raises_shape_reshape_rows (t : vec) (bs : nat) : raises_shape (F.reshape_rows t bs).
Proof.
  unfold F.reshape_rows. destruct (length t =? bs)%nat; intros e H;
    [discriminate | now injection H as <-].
Qed.

Lemma raises_shape_mean_squared_error (x0 x1 : vec) :
  raises_shape (F.mean_squared_error x0 x1).
Proof.
  unfold F.mean_squared_error. apply raises_shape_bind; [|intros; apply raises_shape_ok].
  apply raises_shape_izip. intros. apply raises_shape_ok.
Qed.

Lemma raises_shape_batch_matmul_gram (vi : ten3) : raises_shape (F.batch_matmul_gram vi).
Proof.
  unfold F.batch_matmul_gram. destruct (F.no_slots vi); intros e H;
    [now injection H as <- | discriminate].
Qed.

Lemma raises_shape_batch_matmul_outer (val : mat) : raises_shape (F.batch_matmul_outer val).
Proof.
  unfold F.batch_matmul_outer. destruct (F.no_slots val); intros e H;
    [now injection H as <- | discriminate].
Qed.

(** With indices inside the tables, the only exception of the stages up
    to the prediction is the shape error. *)
Lemma forward_pred_raises_shape (m : VFM) (val : mat) (loc : list (list nat))
      (y is_test : vec) (lv_floor : R) (eps : Noise) (mk : ten3) :
  wf_model m ->
  Forall (Forall (fun i => (i < n_features m)%nat)) loc ->
  raises_shape (forward_pred m val loc y is_test lv_floor eps mk).
Proof.
  intros [H1 [H2 [[H3 _] [[H4 _] _]]]] Hix.
  assert (Hsm : raises_shape (F.EmbedID (slope_mu m) loc))
    by (apply EmbedID_in_range; now rewrite H1).
  assert (Hsl : raises_shape (F.EmbedID (slope_lv m) loc))
    by (apply EmbedID_in_range; now rewrite H2).
  assert (Hlm : raises_shape (F.EmbedID (latent_mu m) loc))
    by (apply EmbedID_in_range; unfold mat, vec in *; now rewrite H3).
  assert (Hll : raises_shape (F.EmbedID (latent_lv m) loc))
    by (apply EmbedID_in_range; unfold mat, vec in *; now rewrite H4).
  pose proof raises_shape_reshape_rows as Hrr.
  pose proof raises_shape_batch_matmul_gram as Hbg.
  pose proof raises_shape_batch_matmul_outer as Hbo.
  unfold forward_pred, forward_bias, bs_lv, forward_slop, forward_coef,
    sl_mu, sl_lv, sl_lvc, forward_intx, forward_vi, vi_mu, vi_lv, vi_lvc,
    F.broadcast_to_t, interaction.
  shape_errors.
  destruct (intx_term m); shape_errors.
Qed.

(** C7, refuted as stated.  A call with one row of values and two targets
    and flags is mismatched and raises, but not before the cache is
    touched: the model had no cached mask before the call and holds the
    mask of shape [(1, 1, 1)] after it. *)
Lemma shape_mismatch_raises_after_cache_update :
  let st := fresh_state demo in
  let r := forward [[1]] [[0%nat]] [0; 0] [1; 1] lv_floor_default no_noise st in
  ~ shapes_agree [[1]] [[0%nat]] [0; 0] [1; 1]
  /\ fst r = Err ShapeMismatch
  /\ _mask (self st) = None
  /\ _mask (self (snd r)) = Some {| id := 0; data := build_mask 1 1 |}
  /\ _mask (self (snd r)) <> _mask (self st).
Proof.
  cbn zeta. split; [|split; [|split; [|split]]].
  - intros [_ [H _]]. discriminate H.
  - reflexivity.
  - reflexivity.
  - reflexivity.
  - discriminate.
Qed.

(** C7, as the code has it.  [forward] validates nothing itself and its
    first statement is the call of [mask].  A call whose shapes disagree
    (the shape of [loc] with that of [val], or the number of targets or of
    flags with the number of rows) raises, and the state it leaves is the
    state [mask(bs, nf)] leaves: the cache rebuilt for this batch if the
    batch size was not the cached one, everything else untouched.  With a
    well-shaped model and indices inside the tables the exception is the
    shape error. *)
Theorem shape_mismatch_raises_after_mask
        (val : mat) (loc : list (list nat)) (y is_test : vec)
        (lv_floor : R) (eps : Noise) (st : St) :
  ~ shapes_agree val loc y is_test ->
  exists e,
    forward val loc y is_test lv_floor eps st
    = (Err e, snd (mask (shape0 val) (shape1 val) st))
    /\ (wf_model (self st) ->
        Forall (Forall (fun i => (i < n_features (self st))%nat)) loc ->
        e = ShapeMismatch).
Proof.
  intros Hbad. unfold forward.
  pose proof (mask_self (shape0 val) (shape1 val) st) as Hs.
  destruct (mask (shape0 val) (shape1 val) st) as [mk st1]. cbn [fst snd] in *.
  rewrite Hs, forward_logs_set_mask.
  unfold forward_logs.
  destruct (forward_pred (self st) val loc y is_test lv_floor eps (data mk))
    as [pred|e] eqn:Hp.
  - exfalso. apply Hbad. eapply forward_pred_shapes; eauto.
  - exists e. cbn [rbind]. split; [reflexivity|]. intros Hwf Hix.
    eapply forward_pred_raises_shape; eauto.
Qed.

Lemma shape_mismatch_raises_after_mask_witness :
  exists e,
    forward [[1]] [[0%nat]] [0; 0] [1; 1] lv_floor_default no_noise (fresh_state demo)
    = (Err e, snd (mask 1 1 (fresh_state demo))).
Proof.
  destruct (shape_mismatch_raises_after_mask
              [[1]] [[0%nat]] [0; 0] [1; 1] lv_floor_default no_noise (fresh_state demo))
    as [e [He _]].
  - intros [_ [H _]]. discriminate H.
  - exists e. exact He.
Defined.

(** ** The regularization groups *)

(** The divergence of the Gaussian of mean [mu1] and log-variance [lv1]
    from the Gaussian of mean [mu2] and log-variance [lv2]. *)
Definition kl_gaussian (mu1 lv1 mu2 lv2 : R) : R :=
  0.5 * (lv2 - lv1 + (exp lv1 + (mu1 - mu2) * (mu1 - mu2)) / exp lv2 - 1).

(** The divergence of one feature's posterior, of mean [mu + pm] and
    log-variance [lv + pl], from the learned prior of mean [pm] and
    log-variance [pl], summed over the components. *)
Definition kl_against_prior_v (pm pl mu lv : vec) : R :=
  vsum (map (fun q => kl_gaussian (fst (fst q) + fst (snd q)) (snd (fst q) + snd (snd q))
                                  (fst (snd q)) (snd (snd q)))
            (combine (combine mu lv) (combine pm pl))).

Definition slope_kl_against_prior (m : VFM) : R :=
  vsum (map (fun f => kl_against_prior_v [prior_slope_mu m] [prior_slope_lv m] [fst f] [snd f])
            (combine (slope_mu m) (slope_lv m))).

Definition latent_kl_against_prior (m : VFM) : R :=
  vsum (map (fun f => kl_against_prior_v (prior_latent_mu m) (prior_latent_lv m) (fst f) (snd f))
            (combine (latent_mu m) (latent_lv m))).

(** One feature with offset mean one and a learned prior of variance two. *)
Definition kl_demo : VFM :=
  {| n_dim := 1; n_features := 1;
     lambda0 := 1; lambda1 := 1; lambda2 := 1;
     intx_term := true; total_nobs := 1;
     bias_mu := 0; bias_lv := 0;
     slope_mu := [1]; slope_lv := [0];
     prior_slope_mu := 0; prior_slope_lv := ln 2;
     latent_mu := [[1]]; latent_lv := [[0]];
     prior_latent_mu := [0]; prior_latent_lv := [ln 2];
     _mask := None |}.

Lemma kl_gaussian_demo : kl_gaussian (1 + 0) (0 + ln 2) 0 (ln 2) = 0.25.
Proof.
  unfold kl_gaussian. rewrite Rplus_0_l, exp_ln by lra. lra.
Qed.

(** C2, refuted as stated.  For a model whose learned priors have variance
    two, the slope and latent terms the code computes are [0.5] each, the
    divergences of the feature posteriors from their learned priors are
    [0.25] each. *)
Lemma slope_latent_kl_not_against_learned_prior :
  reg1 kl_demo = 0.5 /\ slope_kl_against_prior kl_demo = 0.25
  /\ reg2 kl_demo = 0.5 /\ latent_kl_against_prior kl_demo = 0.25
  /\ reg1 kl_demo <> slope_kl_against_prior kl_demo
  /\ reg2 kl_demo <> latent_kl_against_prior kl_demo.
Proof.
  assert (H1 : reg1 kl_demo = 0.5).
  { unfold reg1, F.gaussian_kl_divergence_v. cbn. rewrite exp_0. lra. }
  assert (H2 : slope_kl_against_prior kl_demo = 0.25).
  { unfold slope_kl_against_prior, kl_against_prior_v. cbn.
    rewrite kl_gaussian_demo. lra. }
  assert (H3 : reg2 kl_demo = 0.5).
  { unfold reg2, F.gaussian_kl_divergence_m, F.gaussian_kl_divergence_v. cbn.
    rewrite exp_0. lra. }
  assert (H4 : latent_kl_against_prior kl_demo = 0.25).
  { unfold latent_kl_against_prior, kl_against_prior_v. cbn.
    rewrite kl_gaussian_demo. lra. }
  repeat split; try assumption.
  - rewrite H1, H2. lra.
  - rewrite H3, H4. lra.
Qed.

Section KlFacts.

Lemma kl_gaussian_unit_prior (mu lv pm : R) :
  kl_gaussian (mu + pm) (lv + 0) pm 0 = 0.5 * (exp lv + mu * mu - 1 - lv).
Proof.
  unfold kl_gaussian. rewrite Rplus_0_r, exp_0.
  replace (mu + pm - pm) with mu by ring. lra.
Qed.

Lemma kl_against_prior_unit (pm pl mu lv : vec) :
  Forall (eq 0) pl ->
  length mu = length lv -> length pm = length mu -> length pl = length mu ->
  kl_against_prior_v pm pl mu lv = kl_standard_normal mu lv.
Proof.
  unfold kl_against_prior_v, kl_standard_normal, vsum.
  intros Hz. revert pm mu lv.
  induction Hz as [|z pl <- _ IH]; intros pm mu lv H1 H2 H3.
  - destruct mu; [|discriminate]. destruct lv; [|discriminate]. cbn. lra.
  - destruct mu as [|a mu]; [discriminate|]. destruct lv as [|b lv]; [discriminate|].
    destruct pm as [|c pm]; [discriminate|]. cbn in H1, H2, H3.
    specialize (IH pm mu lv ltac:(lia) ltac:(lia) ltac:(lia)).
    cbn [combine map fold_right fst snd]. rewrite IH, kl_gaussian_unit_prior. lra.
Qed.

Lemma kl_standard_normal_app (a b c d : vec) :
  length a = length b ->
  kl_standard_normal (a ++ c) (b ++ d) = kl_standard_normal a b + kl_standard_normal c d.
Proof.
  unfold kl_standard_normal, vsum. revert b.
  induction a as [|x a IH]; intros [|y b] H; cbn in H; try discriminate.
  - cbn. lra.
  - specialize (IH b ltac:(lia)). cbn [app combine map fold_right fst snd] in *. lra.
Qed.

Lemma kl_standard_normal_entries (mu lv : vec) :
  vsum (map (fun f => kl_standard_normal [fst f] [snd f]) (combine mu lv))
  = kl_standard_normal mu lv.
Proof.
  revert lv. induction mu as [|a mu IH]; intros [|b lv];
    try (unfold kl_standard_normal, vsum; cbn; lra).
  cbn [combine map]. change (vsum (?x :: ?l)) with (x + vsum l). rewrite IH.
  change (a :: mu) with ([a] ++ mu). change (b :: lv) with ([b] ++ lv).
  rewrite kl_standard_normal_app by reflexivity. reflexivity.
Qed.

Lemma kl_standard_normal_rows (M L : mat) :
  Forall2 (fun u v : vec => length u = length v) M L ->
  vsum (map (fun f => kl_standard_normal (fst f) (snd f)) (combine M L))
  = kl_standard_normal (concat M) (concat L).
Proof.
  induction 1 as [|u v M L Huv _ IH].
  - unfold kl_standard_normal, vsum. cbn. lra.
  - cbn [combine map concat]. change (vsum (?x :: ?l)) with (x + vsum l).
    rewrite IH, kl_standard_normal_app by assumption. reflexivity.
Qed.

Lemma shape2_Forall2 {X} (r c : nat) (a b : list (list X)) :
  has_shape2 r c a -> has_shape2 r c b ->
  Forall2 (fun u v => length u = length v) a b.
Proof.
  intros [Ha1 Ha2] [Hb1 Hb2]. subst r. revert b Hb1 Hb2.
  induction Ha2 as [|x a Hx _ IH]; intros [|y b] Hb1 Hb2; cbn in Hb1; try discriminate.
  - constructor.
  - inversion Hb2; subst. constructor; [congruence | apply IH; [lia | assumption]].
Qed.

Lemma slope_kl_unit_prior (m : VFM) :
  prior_slope_lv m = 0 ->
  slope_kl_against_prior m = kl_standard_normal (slope_mu m) (slope_lv m).
Proof.
  intros H. unfold slope_kl_against_prior. rewrite H.
  rewrite <- kl_standard_normal_entries. f_equal.
  apply map_ext. intros [a b]. cbn [fst snd].
  apply kl_against_prior_unit; try reflexivity. repeat constructor.
Qed.

Lemma latent_kl_unit_prior (m : VFM) :
  wf_model m -> Forall (eq 0) (prior_latent_lv m) ->
  latent_kl_against_prior m
  = kl_standard_normal (concat (latent_mu m)) (concat (latent_lv m)).
Proof.
  intros [_ [_ [H3 [H4 [H5 H6]]]]] Hz. unfold latent_kl_against_prior.
  rewrite <- (kl_standard_normal_rows _ _ (shape2_Forall2 _ _ _ _ H3 H4)). f_equal.
  apply map_ext_in. intros [a b] Hin. cbn [fst snd].
  pose proof (in_combine_l _ _ _ _ Hin) as Ha.
  pose proof (in_combine_r _ _ _ _ Hin) as Hb.
  destruct H3 as [_ H3], H4 as [_ H4]. rewrite Forall_forall in H3, H4.
  specialize (H3 _ Ha). specialize (H4 _ Hb). cbn beta in H3, H4.
  apply kl_against_prior_unit; try assumption; congruence.
Qed.

End KlFacts.

Lemma forward_reports (val : mat) (loc : list (list nat)) (y is_test : vec)
      (lv_floor : R) (eps : Noise) (st st' : St) (loss : R) :
  forward val loc y is_test lv_floor eps st = (Ok loss, st') ->
  exists logs,
    reported st' = logs :: reported st
    /\ log_loss logs = loss
    /\ log_reg0 logs = reg0 (self st)
    /\ log_reg1 logs = reg1 (self st)
    /\ log_reg2 logs = reg2 (self st)
    /\ log_regt logs = regt (self st).
Proof.
  unfold forward. intros H.
  pose proof (mask_self (shape0 val) (shape1 val) st) as Hs.
  destruct (mask_frame (shape0 val) (shape1 val) st) as [_ [Hr _]].
  destruct (mask (shape0 val) (shape1 val) st) as [mk st1]. cbn [fst snd] in *.
  destruct (forward_logs (self st1) val loc y is_test lv_floor eps (data mk))
    as [logs|e] eqn:Hl; [|discriminate].
  injection H as <- <-. exists logs. cbn [reported report]. rewrite Hr.
  rewrite Hs, forward_logs_set_mask in Hl. unfold forward_logs in Hl.
  apply rbind_ok in Hl. destruct Hl as [pred [_ Hl]].
  apply rbind_ok in Hl. destruct Hl as [mse [_ Hl]].
  apply rbind_ok in Hl. destruct Hl as [fr [_ Hl]].
  injection Hl as <-. cbn. repeat split.
Qed.

(** C2, as the code has it.  In a call that returns, the regularization is
    computed in five groups (bias, slope, latent, prior-latent,
    prior-slope), every one of them as the divergence from the standard
    normal of the group's own mean and log-variance tensors; for slope and
    latent these are the per-feature tables, to which the learned prior is
    added only when sampling.  The slope (latent) term is the divergence of
    the feature posteriors from their learned prior when the log-variance
    of that prior is zero. *)
Theorem regularization_groups_against_standard_normal
        (val : mat) (loc : list (list nat)) (y is_test : vec)
        (lv_floor : R) (eps : Noise) (st st' : St) (loss : R) :
  wf_model (self st) ->
  forward val loc y is_test lv_floor eps st = (Ok loss, st') ->
  exists logs,
    reported st' = logs :: reported st
    /\ log_reg0 logs = kl_standard_normal [bias_mu (self st)] [bias_lv (self st)]
    /\ log_reg1 logs = kl_standard_normal (slope_mu (self st)) (slope_lv (self st))
    /\ log_reg2 logs = kl_standard_normal (concat (latent_mu (self st)))
                                          (concat (latent_lv (self st)))
    /\ reg3 (self st) = kl_standard_normal (prior_latent_mu (self st))
                                           (prior_latent_lv (self st))
    /\ reg4 (self st) = kl_standard_normal [prior_slope_mu (self st)]
                                           [prior_slope_lv (self st)]
    /\ log_regt logs
       = (log_reg0 logs * lambda0 (self st) + log_reg1 logs * lambda1 (self st)
          + log_reg2 logs * lambda2 (self st))
         + (reg3 (self st) * lambda0 (self st) + reg4 (self st) * lambda0 (self st))
    /\ (prior_slope_lv (self st) = 0 ->
        log_reg1 logs = slope_kl_against_prior (self st))
    /\ (Forall (eq 0) (prior_latent_lv (self st)) ->
        log_reg2 logs = latent_kl_against_prior (self st)).
Proof.
  intros Hwf H. apply forward_reports in H.
  destruct H as [logs [Hr [_ [H0 [H1 [H2 Ht]]]]]].
  pose proof Hwf as [W1 [W2 [W3 [W4 [W5 W6]]]]].
  assert (E1 : reg1 (self st) = kl_standard_normal (slope_mu (self st)) (slope_lv (self st))).
  { unfold reg1. apply gaussian_kl_divergence_closed_form. congruence. }
  assert (E2 : reg2 (self st) = kl_standard_normal (concat (latent_mu (self st)))
                                                   (concat (latent_lv (self st)))).
  { unfold reg2, F.gaussian_kl_divergence_m. apply gaussian_kl_divergence_closed_form.
    rewrite (concat_length_shape _ _ _ W3), (concat_length_shape _ _ _ W4). reflexivity. }
  exists logs. rewrite H0, H1, H2, Ht.
  split; [assumption|].
  split; [unfold reg0; now apply gaussian_kl_divergence_closed_form|].
  split; [assumption|]. split; [assumption|].
  split; [unfold reg3; apply gaussian_kl_divergence_closed_form; congruence|].
  split; [unfold reg4; now apply gaussian_kl_divergence_closed_form|].
  split; [reflexivity|]. split.
  - intros Hp. now rewrite slope_kl_unit_prior.
  - intros Hp. now rewrite latent_kl_unit_prior.
Qed.

Lemma regularization_groups_against_standard_normal_witness :
  exists logs : Logs,
    log_reg1 logs = kl_standard_normal (slope_mu demo) (slope_lv demo)
    /\ log_reg1 logs = slope_kl_against_prior demo
    /\ log_reg2 logs = latent_kl_against_prior demo.
Proof.
  edestruct (regularization_groups_against_standard_normal
               [[1; 1]] [[0; 1]%nat] [0] [1] lv_floor_default no_noise
               (fresh_state demo)) as [logs [_ [_ [H1 [_ [_ [_ [_ [Hs Hl]]]]]]]]].
  - unfold wf_model, has_shape2. cbn.
    repeat split; try reflexivity; repeat constructor.
  - run_forward.
  - exists logs. split; [exact H1|]. split.
    + apply Hs. reflexivity.
    + apply Hl. cbn. repeat constructor.
Defined.


(** ** The interaction term *)

(** The sum over the ordered pairs [i <> j] of slots of
    [<v_i, v_j> * x_i * x_j], and the factorization-machine sum over the
    pairs [i < j]. *)
Definition pair_term (V : mat) (x : vec) (i j : nat) : R :=
  dot (nth i V []) (nth j V []) * (nth i x 0 * nth j x 0).

Definition ordered_pair_sum (V : mat) (x : vec) : R :=
  vsum (map (fun i =>
               vsum (map (fun j => if (i =? j)%nat then 0 else pair_term V x i j)
                         (seq 0 (length x))))
            (seq 0 (length x))).

Definition unordered_pair_sum (V : mat) (x : vec) : R :=
  vsum (map (fun i =>
               vsum (map (fun j => if (i <? j)%nat then pair_term V x i j else 0)
                         (seq 0 (length x))))
            (seq 0 (length x))).

(** C3 at the failing input.  A first call with one slot per row caches a
    mask of shape [(1, 1, 1)], whose single entry is zero.  A second call
    with the same batch size and two slots per row reuses it: the mask
    broadcasts over the [2 x 2] products and the interaction term of the
    row is zero, while the sum over the ordered pairs of its sampled latent
    vectors is two. *)
Theorem interaction_with_stale_mask :
  let first := forward [[1]] [[0%nat]] [0] [1] lv_floor_default no_noise (fresh_state demo) in
  let mk := data (fst (mask 1 2 (snd first))) in
  is_ok (fst first) = true
  /\ mk = build_mask 1 1
  /\ exists V intx,
      forward_vi demo [[1; 1]] [[0; 1]%nat] [1] lv_floor_default no_noise = Ok [V]
      /\ forward_intx demo [[1; 1]] [[0; 1]%nat] [1] lv_floor_default no_noise mk = Ok [intx]
      /\ intx = 0
      /\ ordered_pair_sum V [1; 1] = 2.
Proof.
  cbn zeta.
  erewrite (forward_run [[1]] [[0%nat]] [0] [1] lv_floor_default no_noise (fresh_state demo));
    [|cbn; lra | reflexivity | reflexivity].
  split; [reflexivity|]. split; [reflexivity|].
  eexists. eexists. split; [reflexivity|]. split; [reflexivity|]. split.
  - unfold msum, vsum. cbn [map fold_right fst snd Nat.eqb]. ring.
  - unfold ordered_pair_sum, pair_term, dot, vsum, F.gaussian1.
    cbn [length seq map fold_right Nat.eqb nth combine fst snd eps_latent no_noise]. ring.
Qed.

(** ** Test rows: the samples collapse to their means *)

(** Two values that differ by at most [K * eta] and are bounded by [K];
    [eta] is the scale of the perturbation. *)
Section Closeness.

Variable eta : R.
Hypothesis eta_nonneg : 0 <= eta.

Definition rel (K a b : R) : Prop :=
  Rabs (a - b) <= K * eta /\ Rabs a <= K /\ Rabs b <= K.

Lemma rel_nonneg (K a b : R) : rel K a b -> 0 <= K.
Proof. intros [_ [H _]]. pose proof (Rabs_pos a). lra. Qed.

Lemma rel_mono (K K' a b : R) : K <= K' -> rel K a b -> rel K' a b.
Proof.
  intros HK [H1 [H2 H3]]. repeat split; try lra.
  apply Rle_trans with (K * eta); [assumption|].
  apply Rmult_le_compat_r; assumption.
Qed.

Lemma rel_const (K c : R) : Rabs c <= K -> rel K c c.
Proof.
  intros H. repeat split; try assumption.
  replace (c - c) with 0 by ring. rewrite Rabs_R0.
  apply Rmult_le_pos; [|assumption]. pose proof (Rabs_pos c). lra.
Qed.

Lemma rel_add (K1 K2 a b c d : R) :
  rel K1 a b -> rel K2 c d -> rel (K1 + K2) (a + c) (b + d).
Proof.
  intros [H1 [H2 H3]] [H4 [H5 H6]]. repeat split.
  - replace (a + c - (b + d)) with ((a - b) + (c - d)) by ring.
    eapply Rle_trans; [apply Rabs_triang|]. lra.
  - eapply Rle_trans; [apply Rabs_triang|]. lra.
  - eapply Rle_trans; [apply Rabs_triang|]. lra.
Qed.

Lemma rel_sub (K1 K2 a b c d : R) :
  rel K1 a b -> rel K2 c d -> rel (K1 + K2) (a - c) (b - d).
Proof.
  intros [H1 [H2 H3]] [H4 [H5 H6]]. repeat split.
  - replace (a - c - (b - d)) with ((a - b) + (d - c)) by ring.
    eapply Rle_trans; [apply Rabs_triang|].
    rewrite (Rabs_minus_sym d c). lra.
  - unfold Rminus. eapply Rle_trans; [apply Rabs_triang|]. rewrite Rabs_Ropp. lra.
  - unfold Rminus. eapply Rle_trans; [apply Rabs_triang|]. rewrite Rabs_Ropp. lra.
Qed.

Lemma Rabs_mult_le (x y X Y : R) : Rabs x <= X -> Rabs y <= Y -> Rabs (x * y) <= X * Y.
Proof.
  intros Hx Hy. rewrite Rabs_mult.
  apply Rmult_le_compat; try assumption; apply Rabs_pos.
Qed.

Lemma rel_mul (K1 K2 a b c d : R) :
  rel K1 a b -> rel K2 c d -> rel (2 * K1 * K2) (a * c) (b * d).
Proof.
  intros Hab Hcd.
  pose proof (rel_nonneg _ _ _ Hab) as P1. pose proof (rel_nonneg _ _ _ Hcd) as P2.
  destruct Hab as [H1 [H2 H3]], Hcd as [H4 [H5 H6]].
  assert (P12 : 0 <= K1 * K2) by (apply Rmult_le_pos; assumption).
  repeat split.
  - replace (a * c - b * d) with (a * (c - d) + (a - b) * d) by ring.
    eapply Rle_trans; [apply Rabs_triang|].
    pose proof (Rabs_mult_le _ _ _ _ H2 H4) as Q1.
    pose proof (Rabs_mult_le _ _ _ _ H1 H6) as Q2.
    replace (2 * K1 * K2 * eta) with (K1 * (K2 * eta) + K1 * eta * K2) by ring. lra.
  - pose proof (Rabs_mult_le _ _ _ _ H2 H5). lra.
  - pose proof (Rabs_mult_le _ _ _ _ H3 H6). lra.
Qed.

(** Division by the number of entries of a non-empty array. *)
Lemma rel_div_INR (K a b : R) (n : nat) :
  (0 < n)%nat -> rel K a b -> rel K (a / INR n) (b / INR n).
Proof.
  intros Hn Hab. pose proof (rel_nonneg _ _ _ Hab) as P.
  destruct Hab as [H1 [H2 H3]].
  assert (Hp : 1 <= INR n) by (change 1 with (INR 1); apply le_INR; lia).
  assert (Hi : 0 < / INR n <= 1).
  { split; [apply Rinv_0_lt_compat; lra|].
    rewrite <- Rinv_1. apply Rinv_le_contravar; lra. }
  assert (Hs : forall x X, 0 <= X -> Rabs x <= X -> Rabs (x / INR n) <= X).
  { intros x X HX Hx. unfold Rdiv. rewrite Rabs_mult, (Rabs_right (/ INR n)) by lra.
    pose proof (Rabs_pos x). nra. }
  repeat split.
  - replace (a / INR n - b / INR n) with ((a - b) / INR n) by (unfold Rdiv; ring).
    apply Hs; [apply Rmult_le_pos|]; assumption.
  - now apply Hs.
  - now apply Hs.
Qed.

(** Entrywise closeness of vectors, matrices and three-axis arrays. *)
Definition rel1 (K : R) : vec -> vec -> Prop := Forall2 (rel K).
Definition rel2 (K : R) : mat -> mat -> Prop := Forall2 (rel1 K).
Definition rel3 (K : R) : ten3 -> ten3 -> Prop := Forall2 (rel2 K).

(** No axis longer than [N]. *)
Definition sized1 (N : nat) (u : vec) : Prop := (length u <= N)%nat.
Definition sized2 (N : nat) (a : mat) : Prop := (length a <= N)%nat /\ Forall (sized1 N) a.
Definition sized3 (N : nat) (t : ten3) : Prop := (length t <= N)%nat /\ Forall (sized2 N) t.

Lemma Forall2_mono {A B} (P Q : A -> B -> Prop) (l : list A) (l' : list B) :
  (forall x y, P x y -> Q x y) -> Forall2 P l l' -> Forall2 Q l l'.
Proof. intros H. induction 1; constructor; auto. Qed.

Lemma rel1_mono (K K' : R) (u u' : vec) : K <= K' -> rel1 K u u' -> rel1 K' u u'.
Proof. intros H. apply Forall2_mono. intros x y. now apply rel_mono. Qed.

Lemma vsum_rel_length (K : R) (u u' : vec) :
  0 <= K -> rel1 K u u' -> rel (INR (length u) * K) (vsum u) (vsum u').
Proof.
  intros HK. induction 1 as [|x y u u' Hxy _ IH].
  - cbn. apply rel_const. rewrite Rabs_R0. lra.
  - change (vsum (x :: u)) with (x + vsum u). change (vsum (y :: u')) with (y + vsum u').
    change (length (x :: u)) with (S (length u)). rewrite S_INR.
    replace ((INR (length u) + 1) * K) with (K + INR (length u) * K) by ring.
    now apply rel_add.
Qed.

Lemma vsum_rel (K : R) (N : nat) (u u' : vec) :
  0 <= K -> sized1 N u -> rel1 K u u' -> rel (INR N * K) (vsum u) (vsum u').
Proof.
  intros HK Hs H. apply rel_mono with (INR (length u) * K).
  - apply Rmult_le_compat_r; [assumption | now apply le_INR].
  - now apply vsum_rel_length.
Qed.

(** Lifting a relation through an elementwise operation. *)
Lemma izip_with_lift {A A' B B' C C'}
      (f : nat -> A -> B -> result C) (f' : nat -> A' -> B' -> result C')
      (RA : A -> A' -> Prop) (RB : B -> B' -> Prop) (RC : C -> C' -> Prop) :
  (forall i x x' y y' z z',
      RA x x' -> RB y y' -> f i x y = Ok z -> f' i x' y' = Ok z' -> RC z z') ->
  forall a a' b b' i r r',
    Forall2 RA a a' -> Forall2 RB b b' ->
    izip_with f i a b = Ok r -> izip_with f' i a' b' = Ok r' ->
    Forall2 RC r r'.
Proof.
  intros Hf a a' b b' i r r' Ha. revert b b' i r r'.
  induction Ha as [|x x' a a' Hx _ IH]; intros b b' i r r' Hb H H'.
  - destruct Hb; cbn in H, H'; try discriminate.
    injection H as <-. injection H' as <-. constructor.
  - destruct Hb as [|y y' b b' Hy Hb]; cbn in H, H'; try discriminate.
    apply rbind_ok in H. destruct H as [z [Hz H]].
    apply rbind_ok in H. destruct H as [t [Ht H]]. injection H as <-.
    apply rbind_ok in H'. destruct H' as [z' [Hz' H']].
    apply rbind_ok in H'. destruct H' as [t' [Ht' H']]. injection H' as <-.
    constructor; eauto.
Qed.

(** The sizes of the result are those of the first argument. *)
Lemma izip_with_sized {A B C} (f : nat -> A -> B -> result C)
      (SA : A -> Prop) (SC : C -> Prop) :
  (forall i x y z, SA x -> f i x y = Ok z -> SC z) ->
  forall a b i r, Forall SA a -> izip_with f i a b = Ok r -> Forall SC r.
Proof.
  intros Hf a b i r Ha. revert b i r.
  induction Ha as [|x a Hx _ IH]; intros [|y b] i r H; cbn in H; try discriminate.
  - injection H as <-. constructor.
  - apply rbind_ok in H. destruct H as [z [Hz H]].
    apply rbind_ok in H. destruct H as [t [Ht H]]. injection H as <-.
    constructor; eauto.
Qed.

Lemma Forall2_diag {A} (P : A -> Prop) (l : list A) :
  Forall P l -> Forall2 (fun x y => x = y /\ P x) l l.
Proof. induction 1; constructor; auto. Qed.

Lemma Forall2_map {A A' B B'} (R : B -> B' -> Prop) (f : A -> B) (f' : A' -> B')
      (l : list A) (l' : list A') :
  Forall2 (fun x x' => R (f x) (f' x')) l l' -> Forall2 R (map f l) (map f' l').
Proof. induction 1; cbn; constructor; auto. Qed.

(** Entries bounded by [K]. *)
Definition bounded1 (K : R) (u : vec) : Prop := Forall (fun x => Rabs x <= K) u.
Definition bounded2 (K : R) (a : mat) : Prop := Forall (bounded1 K) a.
Definition bounded3 (K : R) (t : ten3) : Prop := Forall (bounded2 K) t.

Lemma Forall2_refl_of {A} (P : A -> Prop) (R : A -> A -> Prop) (l : list A) :
  (forall x, P x -> R x x) -> Forall P l -> Forall2 R l l.
Proof. intros H. induction 1; constructor; auto. Qed.

Lemma bounded1_rel (K : R) (u : vec) : bounded1 K u -> rel1 K u u.
Proof. apply Forall2_refl_of. intros x. now apply rel_const. Qed.

Lemma bounded2_rel (K : R) (a : mat) : bounded2 K a -> rel2 K a a.
Proof. apply Forall2_refl_of. intros x. apply bounded1_rel. Qed.

Lemma bounded3_rel (K : R) (t : ten3) : bounded3 K t -> rel3 K t t.
Proof. apply Forall2_refl_of. intros x. apply bounded2_rel. Qed.

Lemma vadd_rel (K1 K2 : R) (u u' v v' z z' : vec) :
  rel1 K1 u u' -> rel1 K2 v v' -> vadd u v = Ok z -> vadd u' v' = Ok z' ->
  rel1 (K1 + K2) z z'.
Proof.
  apply izip_with_lift. intros _ x x' y y' t t' Hx Hy H H'.
  injection H as <-. injection H' as <-. now apply rel_add.
Qed.

Lemma vmul_rel (K1 K2 : R) (u u' v v' z z' : vec) :
  rel1 K1 u u' -> rel1 K2 v v' -> vmul u v = Ok z -> vmul u' v' = Ok z' ->
  rel1 (2 * K1 * K2) z z'.
Proof.
  apply izip_with_lift. intros _ x x' y y' t t' Hx Hy H H'.
  injection H as <-. injection H' as <-. now apply rel_mul.
Qed.

Lemma mmul_rel (K1 K2 : R) (a a' b b' z z' : mat) :
  rel2 K1 a a' -> rel2 K2 b b' -> mmul a b = Ok z -> mmul a' b' = Ok z' ->
  rel2 (2 * K1 * K2) z z'.
Proof. apply izip_with_lift. intros _ x x' y y' t t'. apply vmul_rel. Qed.

Lemma tmul_rel (K1 K2 : R) (a a' b b' z z' : ten3) :
  rel3 K1 a a' -> rel3 K2 b b' -> tmul a b = Ok z -> tmul a' b' = Ok z' ->
  rel3 (2 * K1 * K2) z z'.
Proof. apply izip_with_lift. intros _ x x' y y' t t'. apply mmul_rel. Qed.

(** Broadcasting keeps the entries. *)
Lemma bcast_Forall {A} (P : A -> Prop) (n : nat) (l l' : list A) :
  bcast n l = Ok l' -> Forall P l -> Forall P l'.
Proof.
  unfold bcast. destruct (length l =? n)%nat.
  - intros H. now injection H as <-.
  - destruct l as [|a [|b l]]; try discriminate.
    intros H Hl. injection H as <-. inversion Hl; subst.
    apply Forall_forall. intros x Hx. apply repeat_spec in Hx. now subst.
Qed.

Lemma vmul_const_rel (K1 K2 : R) (x x' c z z' : vec) :
  rel1 K1 x x' -> bounded1 K2 c ->
  vmul_const x c = Ok z -> vmul_const x' c = Ok z' -> rel1 (2 * K1 * K2) z z'.
Proof.
  intros Hx Hc H H'. unfold vmul_const in H, H'.
  rewrite <- (Forall2_length Hx) in H'.
  apply rbind_ok in H. destruct H as [c1 [Hc1 H]].
  rewrite Hc1 in H'. cbn [rbind] in H'.
  eapply vmul_rel; eauto. apply bounded1_rel. eapply bcast_Forall; eauto.
Qed.

Lemma mmul_const_rel (K1 K2 : R) (x x' c z z' : mat) :
  rel2 K1 x x' -> bounded2 K2 c ->
  mmul_const x c = Ok z -> mmul_const x' c = Ok z' -> rel2 (2 * K1 * K2) z z'.
Proof.
  intros Hx Hc H H'. unfold mmul_const in H, H'.
  rewrite <- (Forall2_length Hx) in H'.
  apply rbind_ok in H. destruct H as [c1 [Hc1 H]].
  rewrite Hc1 in H'. cbn [rbind] in H'.
  pose proof (bcast_Forall _ _ _ _ Hc1 Hc) as Hb.
  revert H H'. unfold zip_with.
  apply (izip_with_lift _ _ (rel1 K1) (fun y y' => y = y' /\ bounded1 K2 y));
    [|assumption | now apply Forall2_diag].
  intros _ u u' y y' t t' Hu [<- Hy]. now apply vmul_const_rel.
Qed.

Lemma tmul_const_rel (K1 K2 : R) (x x' c z z' : ten3) :
  rel3 K1 x x' -> bounded3 K2 c ->
  tmul_const x c = Ok z -> tmul_const x' c = Ok z' -> rel3 (2 * K1 * K2) z z'.
Proof.
  intros Hx Hc H H'. unfold tmul_const in H, H'.
  rewrite <- (Forall2_length Hx) in H'.
  apply rbind_ok in H. destruct H as [c1 [Hc1 H]].
  rewrite Hc1 in H'. cbn [rbind] in H'.
  pose proof (bcast_Forall _ _ _ _ Hc1 Hc) as Hb.
  revert H H'. unfold zip_with.
  apply (izip_with_lift _ _ (rel2 K1) (fun y y' => y = y' /\ bounded2 K2 y));
    [|assumption | now apply Forall2_diag].
  intros _ u u' y y' t t' Hu [<- Hy]. now apply mmul_const_rel.
Qed.

(** Sizes: an elementwise result is as long as its first argument, at
    every level. *)
Lemma izip_sized1 {B} (f : nat -> R -> B -> result R) (N i : nat) (a : vec) (b : list B) (r : vec) :
  sized1 N a -> izip_with f i a b = Ok r -> sized1 N r.
Proof.
  unfold sized1. intros Ha H. apply izip_with_length in H. lia.
Qed.

Lemma izip_sized2 {B} (f : nat -> vec -> B -> result vec) (N i : nat)
      (a : mat) (b : list B) (r : mat) :
  (forall j x y z, sized1 N x -> f j x y = Ok z -> sized1 N z) ->
  sized2 N a -> izip_with f i a b = Ok r -> sized2 N r.
Proof.
  intros Hf [Ha1 Ha2] H. split.
  - apply izip_with_length in H. lia.
  - eapply izip_with_sized; eauto.
Qed.

Lemma izip_sized3 {B} (f : nat -> mat -> B -> result mat) (N i : nat)
      (a : ten3) (b : list B) (r : ten3) :
  (forall j x y z, sized2 N x -> f j x y = Ok z -> sized2 N z) ->
  sized3 N a -> izip_with f i a b = Ok r -> sized3 N r.
Proof.
  intros Hf [Ha1 Ha2] H. split.
  - apply izip_with_length in H. lia.
  - eapply izip_with_sized; eauto.
Qed.

Lemma mmul_sized (N : nat) (a b r : mat) : sized2 N a -> mmul a b = Ok r -> sized2 N r.
Proof. apply izip_sized2. intros j x y z. apply izip_sized1. Qed.

Lemma tmul_sized (N : nat) (a b r : ten3) : sized3 N a -> tmul a b = Ok r -> sized3 N r.
Proof. apply izip_sized3. intros j x y z. apply mmul_sized. Qed.

Lemma vmul_const_sized (N : nat) (x c r : vec) :
  sized1 N x -> vmul_const x c = Ok r -> sized1 N r.
Proof.
  intros Hx H. unfold vmul_const in H. apply rbind_ok in H.
  destruct H as [c' [_ H]]. eapply izip_sized1; eauto.
Qed.

Lemma mmul_const_sized (N : nat) (x c r : mat) :
  sized2 N x -> mmul_const x c = Ok r -> sized2 N r.
Proof.
  intros Hx H. unfold mmul_const in H. apply rbind_ok in H.
  destruct H as [c' [_ H]]. revert H. apply izip_sized2; [|assumption].
  intros j u y z. apply vmul_const_sized.
Qed.

Lemma tmul_const_sized (N : nat) (x c r : ten3) :
  sized3 N x -> tmul_const x c = Ok r -> sized3 N r.
Proof.
  intros Hx H. unfold tmul_const in H. apply rbind_ok in H.
  destruct H as [c' [_ H]]. revert H. apply izip_sized3; [|assumption].
  intros j u y z. apply mmul_const_sized.
Qed.

(** Sums over rows and over planes. *)
Lemma Forall2_Forall_l {A B} (P : A -> Prop) (Q : A -> B -> Prop) (T : A -> B -> Prop)
      (l : list A) (l' : list B) :
  (forall x y, P x -> Q x y -> T x y) -> Forall P l -> Forall2 Q l l' -> Forall2 T l l'.
Proof.
  intros H Hl H2. induction H2; constructor; inversion Hl; subst; auto.
Qed.

Lemma row_sums_rel (K : R) (N : nat) (a a' : mat) :
  0 <= K -> sized2 N a -> rel2 K a a' ->
  rel1 (INR N * K) (map vsum a) (map vsum a').
Proof.
  intros HK [_ Hs] H. apply Forall2_map.
  eapply Forall2_Forall_l; [|exact Hs | exact H].
  intros x y Hx Hxy. now apply vsum_rel.
Qed.

Lemma msum_rel (K : R) (N : nat) (a a' : mat) :
  0 <= K -> sized2 N a -> rel2 K a a' ->
  rel (INR N * (INR N * K)) (msum a) (msum a').
Proof.
  intros HK Hs H. unfold msum. apply vsum_rel.
  - apply Rmult_le_pos; [apply pos_INR | assumption].
  - unfold sized1. rewrite length_map. apply Hs.
  - now apply row_sums_rel.
Qed.

Lemma plane_sums_rel (K : R) (N : nat) (t t' : ten3) :
  0 <= K -> sized3 N t -> rel3 K t t' ->
  rel1 (INR N * (INR N * K)) (map msum t) (map msum t').
Proof.
  intros HK [_ Hs] H. apply Forall2_map.
  eapply Forall2_Forall_l; [|exact Hs | exact H].
  intros x y Hx Hxy. now apply msum_rel.
Qed.

(** Inner products and Gram matrices. *)
Lemma products_rel (K1 K2 : R) (u u' v v' : vec) :
  rel1 K1 u u' -> rel1 K2 v v' ->
  rel1 (2 * K1 * K2) (map (fun p => fst p * snd p) (combine u v))
       (map (fun p => fst p * snd p) (combine u' v')).
Proof.
  intros Hu. revert v v'. induction Hu as [|x x' u u' Hx _ IH]; intros v v' Hv.
  - constructor.
  - destruct Hv as [|y y' v v' Hy Hv]; cbn; constructor.
    + now apply rel_mul.
    + now apply IH.
Qed.

Lemma dot_rel (K : R) (N : nat) (u u' v v' : vec) :
  0 <= K -> sized1 N u -> rel1 K u u' -> rel1 K v v' ->
  rel (INR N * (2 * K * K)) (dot u v) (dot u' v').
Proof.
  intros HK Hs Hu Hv. unfold dot. apply vsum_rel.
  - apply Rmult_le_pos; [lra | assumption].
  - unfold sized1 in *. rewrite length_map, length_combine. lia.
  - now apply products_rel.
Qed.

Lemma gram_rel (K : R) (N : nat) (V V' : mat) :
  0 <= K -> sized2 N V -> rel2 K V V' ->
  rel2 (INR N * (2 * K * K)) (F.gram V) (F.gram V').
Proof.
  intros HK [_ Hs] H. unfold F.gram. apply Forall2_map.
  eapply Forall2_Forall_l; [|exact Hs | exact H].
  intros x x' Hx Hxx'. apply Forall2_map.
  eapply Forall2_mono; [|exact H]. intros y y' Hyy'. now apply dot_rel.
Qed.

Lemma gram_sized (N : nat) (V : mat) : sized2 N V -> sized2 N (F.gram V).
Proof.
  intros [H _]. unfold F.gram. split; [now rewrite length_map|].
  apply Forall_map, Forall_forall. intros x _. unfold sized1. now rewrite length_map.
Qed.

Lemma grams_rel (K : R) (N : nat) (t t' : ten3) :
  0 <= K -> sized3 N t -> rel3 K t t' ->
  rel3 (INR N * (2 * K * K)) (map F.gram t) (map F.gram t').
Proof.
  intros HK [_ Hs] H. apply Forall2_map.
  eapply Forall2_Forall_l; [|exact Hs | exact H].
  intros x y Hx Hxy. now apply gram_rel.
Qed.

Lemma grams_sized (N : nat) (t : ten3) : sized3 N t -> sized3 N (map F.gram t).
Proof.
  intros [H1 H2]. split; [now rewrite length_map|].
  apply Forall_map. eapply Forall_impl; [|exact H2]. apply gram_sized.
Qed.

(** The outer products of the feature values are constants of the call. *)
Lemma outer_bounded (K : R) (x : vec) :
  bounded1 K x -> bounded2 (K * K) (F.outer x).
Proof.
  intros H. unfold F.outer. apply Forall_map, Forall_forall. intros a Ha.
  apply Forall_map, Forall_forall. intros b Hb.
  unfold bounded1 in H. rewrite Forall_forall in H.
  apply Rabs_mult_le; auto.
Qed.

Lemma outers_bounded (K : R) (val : mat) :
  bounded2 K val -> bounded3 (K * K) (map F.outer val).
Proof.
  intros H. apply Forall_map. eapply Forall_impl; [|exact H]. apply outer_bounded.
Qed.

Lemma mean_squared_error_rel (K Ky : R) (N : nat) (p p' y : vec) (e e' : R) :
  0 <= K -> 0 <= Ky -> sized1 N p -> rel1 K p p' -> bounded1 Ky y ->
  F.mean_squared_error p y = Ok e -> F.mean_squared_error p' y = Ok e' ->
  rel (INR N * (2 * (K + Ky) * (K + Ky))) e e'.
Proof.
  intros HK HKy Hs Hp Hy H H'. unfold F.mean_squared_error in H, H'.
  apply rbind_ok in H. destruct H as [sq [Hsq H]]. injection H as <-.
  apply rbind_ok in H'. destruct H' as [sq' [Hsq' H']]. injection H' as <-.
  assert (Hrel : rel1 (2 * (K + Ky) * (K + Ky)) sq sq').
  { revert Hsq Hsq'. unfold zip_with.
    apply (izip_with_lift _ _ (rel K) (fun b b' => b = b' /\ Rabs b <= Ky));
      [|assumption | now apply Forall2_diag].
    intros _ a a' b b' z z' Ha [<- Hb] Hz Hz'.
    injection Hz as <-. injection Hz' as <-.
    apply rel_mul; apply rel_sub; try assumption; now apply rel_const. }
  assert (Hsz : sized1 N sq) by (eapply izip_sized1; eauto).
  assert (HC : 0 <= 2 * (K + Ky) * (K + Ky)) by nra.
  pose proof (vsum_rel _ N _ _ HC Hsz Hrel) as Hsum.
  rewrite <- (Forall2_length Hp).
  destruct p as [|a p].
  - apply izip_with_length in Hsq. destruct Hsq as [_ Hl]. destruct sq; [|discriminate].
    inversion Hrel; subst. cbn. unfold Rdiv. rewrite Rmult_0_l.
    apply rel_const. rewrite Rabs_R0. apply Rmult_le_pos; [apply pos_INR | assumption].
  - apply rel_div_INR; [cbn; lia | assumption].
Qed.

Lemma izip_with_Forall {A B C} (f : nat -> A -> B -> result C)
      (PA : A -> Prop) (PB : B -> Prop) (PC : C -> Prop) :
  (forall i x y z, PA x -> PB y -> f i x y = Ok z -> PC z) ->
  forall a b i r, Forall PA a -> Forall PB b -> izip_with f i a b = Ok r -> Forall PC r.
Proof.
  intros Hf a b i r Ha. revert b i r.
  induction Ha as [|x a Hx _ IH]; intros [|y b] i r Hb H; cbn in H; try discriminate.
  - injection H as <-. constructor.
  - inversion Hb; subst.
    apply rbind_ok in H. destruct H as [z [Hz H]].
    apply rbind_ok in H. destruct H as [t [Ht H]]. injection H as <-.
    constructor; eauto.
Qed.

(** The result of an elementwise operation against its first argument. *)
Lemma izip_with_vs_first {A B C} (f : nat -> A -> B -> result C)
      (PB : B -> Prop) (T : C -> A -> Prop) :
  (forall i x y z, PB y -> f i x y = Ok z -> T z x) ->
  forall a b i r, Forall PB b -> izip_with f i a b = Ok r -> Forall2 T r a.
Proof.
  intros Hf. induction a as [|x a IH]; intros [|y b] i r Hb H; cbn in H; try discriminate.
  - injection H as <-. constructor.
  - inversion Hb; subst.
    apply rbind_ok in H. destruct H as [z [Hz H]].
    apply rbind_ok in H. destruct H as [t [Ht H]]. injection H as <-.
    constructor; eauto.
Qed.

(** *** Sampling on test rows *)

Section TestRows.

Variable lv_floor : R.
Hypothesis eta_floor : eta = exp (lv_floor * 0.5).
Hypothesis eta_le_1 : eta <= 1.

Variable M : R.
Hypothesis M_nonneg : 0 <= M.

(** A log-variance of a test row: the posterior's plus the floor, and the
    bound [S] on the posterior's standard deviation. *)
Definition floored (S l : R) : Prop :=
  exists l0, l = l0 + 1 * lv_floor /\ exp (l0 * 0.5) <= S.

Lemma gaussian1_scale (e m l0 : R) :
  F.gaussian1 e m (l0 + 1 * lv_floor) = m + exp (l0 * 0.5) * eta * e.
Proof.
  unfold F.gaussian1. rewrite eta_floor, <- exp_plus. do 3 f_equal. lra.
Qed.

Lemma gaussian1_near_mean (S e m l : R) :
  floored S l -> Rabs e <= M -> Rabs (F.gaussian1 e m l - m) <= S * M * eta.
Proof.
  intros [l0 [-> HS]] He. rewrite gaussian1_scale.
  replace (m + exp (l0 * 0.5) * eta * e - m) with (exp (l0 * 0.5) * e * eta) by ring.
  pose proof (exp_pos (l0 * 0.5)) as Hp.
  rewrite !Rabs_mult, (Rabs_right (exp _)), (Rabs_right eta) by lra.
  apply Rmult_le_compat_r; [assumption|].
  apply Rmult_le_compat; try lra. apply Rabs_pos.
Qed.

Lemma gaussian1_rel (Km S e1 e2 m l : R) :
  Rabs m <= Km -> floored S l -> Rabs e1 <= M -> Rabs e2 <= M ->
  rel (Km + 2 * (S * M)) (F.gaussian1 e1 m l) (F.gaussian1 e2 m l).
Proof.
  intros Hm Hl H1 H2.
  pose proof (gaussian1_near_mean S e1 m l Hl H1) as N1.
  pose proof (gaussian1_near_mean S e2 m l Hl H2) as N2.
  assert (HS : 0 <= S * M).
  { destruct Hl as [l0 [_ HS]]. pose proof (exp_pos (l0 * 0.5)).
    apply Rmult_le_pos; lra. }
  assert (HSe : S * M * eta <= S * M) by nra.
  pose proof (Rabs_pos m) as Pm.
  assert (B : forall e, Rabs (F.gaussian1 e m l - m) <= S * M * eta ->
                        Rabs (F.gaussian1 e m l) <= Km + 2 * (S * M)).
  { intros e Hn.
    replace (F.gaussian1 e m l) with (m + (F.gaussian1 e m l - m)) by ring.
    eapply Rle_trans; [apply Rabs_triang|]. lra. }
  repeat split; auto.
  replace (F.gaussian1 e1 m l - F.gaussian1 e2 m l)
    with ((F.gaussian1 e1 m l - m) + (m - F.gaussian1 e2 m l)) by ring.
  eapply Rle_trans; [apply Rabs_triang|].
  rewrite (Rabs_minus_sym m). nra.
Qed.

Definition near_mean (S : R) (s m : R) : Prop := Rabs (s - m) <= S * M * eta.

Lemma gaussian_v_rel (Km S : R) (e1 e2 : nat -> R) (mu lv s1 s2 : vec) :
  bounded1 Km mu -> Forall (floored S) lv ->
  (forall i, Rabs (e1 i) <= M) -> (forall i, Rabs (e2 i) <= M) ->
  F.gaussian_v e1 mu lv = Ok s1 -> F.gaussian_v e2 mu lv = Ok s2 ->
  rel1 (Km + 2 * (S * M)) s1 s2.
Proof.
  intros Hmu Hlv H1 H2. unfold F.gaussian_v.
  apply (izip_with_lift _ _ (fun m m' => m = m' /\ Rabs m <= Km)
                        (fun l l' => l = l' /\ floored S l));
    [| now apply Forall2_diag | now apply Forall2_diag].
  intros i m m' l l' z z' [<- Hm] [<- Hl] Hz Hz'.
  injection Hz as <-. injection Hz' as <-. now apply gaussian1_rel.
Qed.

Lemma gaussian_v_near (S : R) (e : nat -> R) (mu lv s : vec) :
  Forall (floored S) lv -> (forall i, Rabs (e i) <= M) ->
  F.gaussian_v e mu lv = Ok s -> Forall2 (near_mean S) s mu.
Proof.
  intros Hlv He. unfold F.gaussian_v.
  apply izip_with_vs_first with (PB := floored S); [|assumption].
  intros i m l z Hl Hz. injection Hz as <-. now apply gaussian1_near_mean.
Qed.

Lemma gaussian_m_rel (Km S : R) (e1 e2 : nat -> nat -> R) (mu lv s1 s2 : mat) :
  bounded2 Km mu -> Forall (Forall (floored S)) lv ->
  (forall i j, Rabs (e1 i j) <= M) -> (forall i j, Rabs (e2 i j) <= M) ->
  F.gaussian_m e1 mu lv = Ok s1 -> F.gaussian_m e2 mu lv = Ok s2 ->
  rel2 (Km + 2 * (S * M)) s1 s2.
Proof.
  intros Hmu Hlv H1 H2. unfold F.gaussian_m.
  apply (izip_with_lift _ _ (fun m m' => m = m' /\ bounded1 Km m)
                        (fun l l' => l = l' /\ Forall (floored S) l));
    [| now apply Forall2_diag | now apply Forall2_diag].
  intros i m m' l l' z z' [<- Hm] [<- Hl]. now apply gaussian_v_rel.
Qed.

Lemma gaussian_m_near (S : R) (e : nat -> nat -> R) (mu lv s : mat) :
  Forall (Forall (floored S)) lv -> (forall i j, Rabs (e i j) <= M) ->
  F.gaussian_m e mu lv = Ok s -> Forall2 (Forall2 (near_mean S)) s mu.
Proof.
  intros Hlv He. unfold F.gaussian_m.
  apply izip_with_vs_first with (PB := Forall (floored S)); [|assumption].
  intros i m l z Hl. now apply gaussian_v_near.
Qed.

Lemma gaussian_t_rel (Km S : R) (e1 e2 : nat -> nat -> nat -> R) (mu lv s1 s2 : ten3) :
  bounded3 Km mu -> Forall (Forall (Forall (floored S))) lv ->
  (forall i j k, Rabs (e1 i j k) <= M) -> (forall i j k, Rabs (e2 i j k) <= M) ->
  F.gaussian_t e1 mu lv = Ok s1 -> F.gaussian_t e2 mu lv = Ok s2 ->
  rel3 (Km + 2 * (S * M)) s1 s2.
Proof.
  intros Hmu Hlv H1 H2. unfold F.gaussian_t.
  apply (izip_with_lift _ _ (fun m m' => m = m' /\ bounded2 Km m)
                        (fun l l' => l = l' /\ Forall (Forall (floored S)) l));
    [| now apply Forall2_diag | now apply Forall2_diag].
  intros i m m' l l' z z' [<- Hm] [<- Hl]. now apply gaussian_m_rel.
Qed.

Lemma gaussian_t_near (S : R) (e : nat -> nat -> nat -> R) (mu lv s : ten3) :
  Forall (Forall (Forall (floored S))) lv -> (forall i j k, Rabs (e i j k) <= M) ->
  F.gaussian_t e mu lv = Ok s -> Forall2 (Forall2 (Forall2 (near_mean S))) s mu.
Proof.
  intros Hlv He. unfold F.gaussian_t.
  apply izip_with_vs_first with (PB := Forall (Forall (floored S))); [|assumption].
  intros i m l z Hl. now apply gaussian_m_near.
Qed.

(** The log-variances handed to [F.gaussian] on test rows. *)
Definition is_floor (t : R) : Prop := t = 1 * lv_floor.
Definition sd_below (S l : R) : Prop := exp (l * 0.5) <= S.

Lemma vadd_floored (S : R) (lv lvc lv' : vec) :
  Forall (sd_below S) lv -> Forall is_floor lvc -> vadd lv lvc = Ok lv' ->
  Forall (floored S) lv'.
Proof.
  apply izip_with_Forall. intros _ l t z Hl Ht Hz. injection Hz as <-.
  exists l. split; [now rewrite Ht | assumption].
Qed.

Lemma madd_floored (S : R) (lv lvc lv' : mat) :
  Forall (Forall (sd_below S)) lv -> Forall (Forall is_floor) lvc -> madd lv lvc = Ok lv' ->
  Forall (Forall (floored S)) lv'.
Proof. apply izip_with_Forall. intros _ l t z. apply vadd_floored. Qed.

Lemma tadd_floored (S : R) (lv lvc lv' : ten3) :
  Forall (Forall (Forall (sd_below S))) lv -> Forall (Forall (Forall is_floor)) lvc ->
  tadd lv lvc = Ok lv' -> Forall (Forall (Forall (floored S))) lv'.
Proof. apply izip_with_Forall. intros _ l t z. apply madd_floored. Qed.

Variable is_test : vec.
Hypothesis all_test : Forall (eq 1) is_test.

Lemma repeat_Forall {A} (P : A -> Prop) (a : A) (n : nat) : P a -> Forall P (repeat a n).
Proof. intros H. apply Forall_forall. intros x Hx. apply repeat_spec in Hx. now rewrite Hx. Qed.

Lemma vscale_is_floor : Forall is_floor (vscale lv_floor is_test).
Proof.
  unfold vscale. apply Forall_map. eapply Forall_impl; [|exact all_test].
  intros t <-. reflexivity.
Qed.

Lemma sl_lvc_is_floor (val : mat) (lvc : mat) :
  sl_lvc val is_test lv_floor = Ok lvc -> Forall (Forall is_floor) lvc.
Proof using all_test.
  unfold sl_lvc, F.reshape_rows. destruct (length is_test =? shape0 val)%nat; [|discriminate].
  cbn [rbind]. intros H. injection H as <-.
  unfold mscale, F.rows_to_m. rewrite map_map. apply Forall_map.
  eapply Forall_impl; [|exact all_test]. intros t <-.
  unfold vscale. apply Forall_map, repeat_Forall. reflexivity.
Qed.

Lemma vi_lvc_is_floor (m : VFM) (val : mat) (lvc : ten3) :
  vi_lvc m val is_test lv_floor = Ok lvc -> Forall (Forall (Forall is_floor)) lvc.
Proof using all_test.
  unfold vi_lvc, F.reshape_rows. destruct (length is_test =? shape0 val)%nat; [|discriminate].
  cbn [rbind]. intros H. injection H as <-.
  unfold tscale, F.rows_to_t. rewrite map_map. apply Forall_map.
  eapply Forall_impl; [|exact all_test]. intros t <-.
  unfold mscale. apply Forall_map, repeat_Forall.
  unfold vscale. apply Forall_map, repeat_Forall. reflexivity.
Qed.

End TestRows.

End Closeness.

(** *** Bounds read off the tensors of the call *)

Section Bounds.

Lemma vsum_map_nonneg {A} (g : A -> R) (l : list A) :
  (forall x, 0 <= g x) -> 0 <= vsum (map g l).
Proof.
  intros H. induction l as [|x l IH]; cbn; [lra|].
  specialize (H x). unfold vsum in IH. lra.
Qed.

Lemma le_vsum_map {A} (g : A -> R) (l : list A) :
  (forall x, 0 <= g x) -> Forall (fun x => g x <= vsum (map g l)) l.
Proof.
  intros H. induction l as [|x l IH]; constructor.
  - pose proof (vsum_map_nonneg g l H). cbn. unfold vsum in *. lra.
  - eapply Forall_impl; [|exact IH]. intros y Hy.
    specialize (H x). cbn. unfold vsum in *. lra.
Qed.

Definition sum1 (f : R -> R) (u : vec) : R := vsum (map f u).
Definition sum2 (f : R -> R) (a : mat) : R := vsum (map (sum1 f) a).
Definition sum3 (f : R -> R) (t : ten3) : R := vsum (map (sum2 f) t).

Variable f : R -> R.
Hypothesis f_nonneg : forall x, 0 <= f x.

Lemma sum1_nonneg (u : vec) : 0 <= sum1 f u.
Proof. now apply vsum_map_nonneg. Qed.

Lemma sum2_nonneg (a : mat) : 0 <= sum2 f a.
Proof. apply vsum_map_nonneg. apply sum1_nonneg. Qed.

Lemma sum3_nonneg (t : ten3) : 0 <= sum3 f t.
Proof. apply vsum_map_nonneg. apply sum2_nonneg. Qed.

Lemma sum1_bounds (u : vec) : Forall (fun x => f x <= sum1 f u) u.
Proof. now apply le_vsum_map. Qed.

Lemma sum2_bounds (a : mat) : Forall (Forall (fun x => f x <= sum2 f a)) a.
Proof.
  pose proof (le_vsum_map (sum1 f) a sum1_nonneg) as H.
  eapply Forall_impl; [|exact H]. intros u Hu. cbn beta in Hu.
  eapply Forall_impl; [|apply sum1_bounds]. intros x Hx. cbn beta in Hx.
  unfold sum2. lra.
Qed.

Lemma sum3_bounds (t : ten3) : Forall (Forall (Forall (fun x => f x <= sum3 f t))) t.
Proof.
  pose proof (le_vsum_map (sum2 f) t sum2_nonneg) as H.
  eapply Forall_impl; [|exact H]. intros a Ha. cbn beta in Ha.
  eapply Forall_impl; [|apply sum2_bounds]. intros u Hu. cbn beta in Hu.
  eapply Forall_impl; [|exact Hu]. intros x Hx. cbn beta in Hx.
  unfold sum3. lra.
Qed.

End Bounds.

Definition sd (l : R) : R := exp (l * 0.5).

Lemma sd_nonneg (l : R) : 0 <= sd l.
Proof. unfold sd. pose proof (exp_pos (l * 0.5)). lra. Qed.

Lemma Rabs_nonneg (x : R) : 0 <= Rabs x.
Proof. apply Rabs_pos. Qed.

(** The number of entries along every axis, bounded by one number. *)
Definition size2 (a : mat) : nat := length a + list_sum (map (@length R) a).
Definition size3 (t : ten3) : nat := length t + list_sum (map size2 t).

Lemma le_list_sum {A} (g : A -> nat) (l : list A) :
  Forall (fun x => (g x <= list_sum (map g l))%nat) l.
Proof.
  induction l as [|x l IH]; constructor; cbn; [lia|].
  eapply Forall_impl; [|exact IH]. intros y Hy. cbn beta in Hy.
  unfold list_sum in *. lia.
Qed.

Lemma sized2_mono (N N' : nat) (a : mat) : (N <= N')%nat -> sized2 N a -> sized2 N' a.
Proof.
  intros H [H1 H2]. split; [lia|].
  eapply Forall_impl; [|exact H2]. unfold sized1. intros; lia.
Qed.

Lemma sized3_mono (N N' : nat) (t : ten3) : (N <= N')%nat -> sized3 N t -> sized3 N' t.
Proof.
  intros H [H1 H2]. split; [lia|].
  eapply Forall_impl; [|exact H2]. intros a. now apply sized2_mono.
Qed.

Lemma size2_sized (a : mat) : sized2 (size2 a) a.
Proof.
  unfold size2. split; [lia|].
  eapply Forall_impl; [|apply (le_list_sum (@length R) a)].
  unfold sized1. intros u Hu. cbn beta in Hu. lia.
Qed.

Lemma size3_sized (t : ten3) : sized3 (size3 t) t.
Proof.
  unfold size3. split; [lia|].
  eapply Forall_impl; [|apply (le_list_sum size2 t)].
  intros a Ha. cbn beta in Ha. eapply sized2_mono; [|apply size2_sized]. lia.
Qed.

(** *** Two runs of one call on test rows *)

Definition ok_or {A} (d : A) (r : result A) : A :=
  match r with Ok a => a | Err _ => d end.

(** Every draw is at most [M] in absolute value. *)
Definition noise_bounded (M : R) (e : Noise) : Prop :=
  (forall i, Rabs (eps_bias e i) <= M)
  /\ (forall i j, Rabs (eps_slope e i j) <= M)
  /\ (forall i j k, Rabs (eps_latent e i j k) <= M).

Section Constants.

Variable m : VFM.
Variables (val : mat) (loc : list (list nat)) (y : vec).
Variable mk : ten3.
Variable M : R.

(** Bounds on the samples of the three groups, on the constants of the
    call, and on the stages of the prediction, in terms of the posterior
    means and standard deviations of the call. *)
Definition K_bias : R := Rabs (bias_mu m) + 2 * (sd (bias_lv m) * M).
Definition K_coef : R :=
  sum2 Rabs (ok_or [] (sl_mu m val loc)) + 2 * (sum2 sd (ok_or [] (sl_lv m val loc)) * M).
Definition K_vi : R :=
  sum3 Rabs (ok_or [] (vi_mu m val loc)) + 2 * (sum3 sd (ok_or [] (vi_lv m val loc)) * M).
Definition K_val : R := sum2 Rabs val.
Definition K_y : R := sum1 Rabs y.
Definition K_mask : R := sum3 Rabs mk.
Definition N_call : nat :=
  length y + size2 (ok_or [] (sl_mu m val loc)) + size3 (ok_or [] (vi_mu m val loc)).
Definition K_slop : R := INR N_call * (2 * K_coef * K_val).
Definition K_intx : R :=
  INR N_call * (INR N_call
                * (2 * (2 * (INR N_call * (2 * K_vi * K_vi)) * (K_val * K_val)) * K_mask)).
Definition K_pred : R := K_bias + K_slop + K_intx.
Definition K_loss : R := INR N_call * (2 * (K_pred + K_y) * (K_pred + K_y)).
Definition S_all : R :=
  sd (bias_lv m) + sum2 sd (ok_or [] (sl_lv m val loc)) + sum3 sd (ok_or [] (vi_lv m val loc)).

Hypothesis M_nonneg : 0 <= M.

Lemma K_bias_nonneg : 0 <= K_bias.
Proof.
  unfold K_bias. pose proof (Rabs_pos (bias_mu m)). pose proof (sd_nonneg (bias_lv m)). nra.
Qed.

Lemma K_coef_nonneg : 0 <= K_coef.
Proof.
  unfold K_coef.
  pose proof (sum2_nonneg Rabs Rabs_nonneg (ok_or [] (sl_mu m val loc))).
  pose proof (sum2_nonneg sd sd_nonneg (ok_or [] (sl_lv m val loc))). nra.
Qed.

Lemma K_vi_nonneg : 0 <= K_vi.
Proof.
  unfold K_vi.
  pose proof (sum3_nonneg Rabs Rabs_nonneg (ok_or [] (vi_mu m val loc))).
  pose proof (sum3_nonneg sd sd_nonneg (ok_or [] (vi_lv m val loc))). nra.
Qed.

Lemma K_val_nonneg : 0 <= K_val.
Proof. apply sum2_nonneg, Rabs_nonneg. Qed.

Lemma K_y_nonneg : 0 <= K_y.
Proof. apply sum1_nonneg, Rabs_nonneg. Qed.

Lemma K_mask_nonneg : 0 <= K_mask.
Proof. apply sum3_nonneg, Rabs_nonneg. Qed.

Lemma K_slop_nonneg : 0 <= K_slop.
Proof.
  unfold K_slop. pose proof (pos_INR N_call).
  pose proof K_coef_nonneg. pose proof K_val_nonneg.
  apply Rmult_le_pos; [assumption|]. apply Rmult_le_pos; [lra | assumption].
Qed.

Lemma K_intx_nonneg : 0 <= K_intx.
Proof.
  unfold K_intx. pose proof (pos_INR N_call).
  pose proof K_vi_nonneg. pose proof K_val_nonneg. pose proof K_mask_nonneg.
  repeat (apply Rmult_le_pos; try assumption; try lra).
Qed.

Lemma K_pred_nonneg : 0 <= K_pred.
Proof.
  unfold K_pred. pose proof K_bias_nonneg. pose proof K_slop_nonneg.
  pose proof K_intx_nonneg. lra.
Qed.

Lemma K_loss_nonneg : 0 <= K_loss.
Proof.
  unfold K_loss. pose proof (pos_INR N_call). pose proof K_pred_nonneg.
  pose proof K_y_nonneg. apply Rmult_le_pos; [assumption|]. nra.
Qed.

Lemma S_all_nonneg : 0 <= S_all.
Proof.
  unfold S_all. pose proof (sd_nonneg (bias_lv m)).
  pose proof (sum2_nonneg sd sd_nonneg (ok_or [] (sl_lv m val loc))).
  pose proof (sum3_nonneg sd sd_nonneg (ok_or [] (vi_lv m val loc))). lra.
Qed.

End Constants.

Section TwoRuns.

Variable m : VFM.
Variables (val : mat) (loc : list (list nat)) (y is_test : vec).
Variable mk : ten3.
Variables (lv_floor eta M : R).
Variables e1 e2 : Noise.

Hypothesis all_test : Forall (eq 1) is_test.
Hypothesis eta_floor : eta = exp (lv_floor * 0.5).
Hypothesis eta_le_1 : eta <= 1.
Hypothesis M_nonneg : 0 <= M.
Hypothesis e1_bounded : noise_bounded M e1.
Hypothesis e2_bounded : noise_bounded M e2.

Lemma eta_pos : 0 <= eta.
Proof. rewrite eta_floor. pose proof (exp_pos (lv_floor * 0.5)). lra. Qed.

Let N := N_call m val loc y.

Lemma bs_lv_floored (lv : vec) :
  bs_lv m y is_test lv_floor = Ok lv -> Forall (floored lv_floor (sd (bias_lv m))) lv.
Proof.
  unfold bs_lv, F.broadcast_to_v. intros H.
  eapply vadd_floored; [| apply vscale_is_floor; exact all_test | exact H].
  apply Forall_forall. intros x Hx. apply repeat_spec in Hx. subst x.
  unfold sd_below, sd. lra.
Qed.

Lemma bs_mu_bounded : bounded1 (Rabs (bias_mu m)) (bs_mu m y).
Proof.
  unfold bs_mu, F.broadcast_to_v. apply Forall_forall. intros x Hx.
  apply repeat_spec in Hx. subst x. lra.
Qed.

Lemma bias_two_runs (b1 b2 : vec) :
  forward_bias m y is_test lv_floor e1 = Ok b1 ->
  forward_bias m y is_test lv_floor e2 = Ok b2 ->
  rel1 eta (K_bias m M) b1 b2 /\ sized1 N b1.
Proof.
  unfold forward_bias. intros H1 H2.
  apply rbind_ok in H1. destruct H1 as [lv [Hlv H1]].
  rewrite Hlv in H2. cbn [rbind] in H2.
  pose proof (bs_lv_floored lv Hlv) as Hfl.
  destruct e1_bounded as [B1 _], e2_bounded as [B2 _]. split.
  - apply (gaussian_v_rel eta eta_pos lv_floor eta_floor eta_le_1 M M_nonneg
                          _ _ (eps_bias e1) (eps_bias e2) (bs_mu m y) lv b1 b2);
      auto using bs_mu_bounded.
  - eapply izip_sized1; [|exact H1]. unfold sized1, bs_mu, F.broadcast_to_v.
    rewrite repeat_length. unfold N, N_call. lia.
Qed.

Lemma bias_near_mean (b1 : vec) :
  forward_bias m y is_test lv_floor e1 = Ok b1 ->
  Forall2 (near_mean eta M (sd (bias_lv m))) b1 (bs_mu m y).
Proof.
  unfold forward_bias. intros H1.
  apply rbind_ok in H1. destruct H1 as [lv [Hlv H1]].
  destruct e1_bounded as [B1 _].
  apply (gaussian_v_near eta eta_pos lv_floor eta_floor M _ (eps_bias e1) (bs_mu m y) lv b1);
    auto using bs_lv_floored.
Qed.

(** The slope coefficients. *)
Lemma sl_ln_var_floored (lv lvc lv' : mat) :
  sl_lvc val is_test lv_floor = Ok lvc -> madd lv lvc = Ok lv' ->
  Forall (Forall (floored lv_floor (sum2 sd lv))) lv'.
Proof.
  intros Hlvc Hlv'. eapply madd_floored; [| | exact Hlv'].
  - apply (sum2_bounds sd sd_nonneg).
  - apply (sl_lvc_is_floor lv_floor is_test all_test val lvc Hlvc).
Qed.

Lemma coef_two_runs (c1 c2 : mat) :
  forward_coef m val loc is_test lv_floor e1 = Ok c1 ->
  forward_coef m val loc is_test lv_floor e2 = Ok c2 ->
  rel2 eta (K_coef m val loc M) c1 c2 /\ sized2 N c1.
Proof.
  unfold forward_coef. intros H1 H2.
  apply rbind_ok in H1. destruct H1 as [mu [Hmu H1]].
  apply rbind_ok in H1. destruct H1 as [lv [Hlv H1]].
  apply rbind_ok in H1. destruct H1 as [lvc [Hlvc H1]].
  apply rbind_ok in H1. destruct H1 as [lv' [Hlv' H1]].
  rewrite Hmu, Hlv, Hlvc in H2. cbn [rbind] in H2. rewrite Hlv' in H2. cbn [rbind] in H2.
  pose proof (sl_ln_var_floored lv lvc lv' Hlvc Hlv') as Hfl.
  destruct e1_bounded as [_ [B1 _]], e2_bounded as [_ [B2 _]].
  unfold K_coef. rewrite Hmu, Hlv. cbn [ok_or]. split.
  - apply (gaussian_m_rel eta eta_pos lv_floor eta_floor eta_le_1 M M_nonneg
                          _ _ (eps_slope e1) (eps_slope e2) mu lv' c1 c2); auto.
    apply (sum2_bounds Rabs Rabs_nonneg).
  - apply sized2_mono with (size2 mu).
    + unfold N, N_call. rewrite Hmu. cbn [ok_or]. lia.
    + revert H1. apply izip_sized2; [|apply size2_sized].
      intros j x u z. apply izip_sized1.
Qed.

Lemma coef_near_mean (c1 mu : mat) :
  forward_coef m val loc is_test lv_floor e1 = Ok c1 ->
  sl_mu m val loc = Ok mu ->
  Forall2 (Forall2 (near_mean eta M (sum2 sd (ok_or [] (sl_lv m val loc))))) c1 mu.
Proof.
  unfold forward_coef. intros H1 Hmu. rewrite Hmu in H1. cbn [rbind] in H1.
  apply rbind_ok in H1. destruct H1 as [lv [Hlv H1]].
  apply rbind_ok in H1. destruct H1 as [lvc [Hlvc H1]].
  apply rbind_ok in H1. destruct H1 as [lv' [Hlv' H1]].
  pose proof (sl_ln_var_floored lv lvc lv' Hlvc Hlv') as Hfl.
  destruct e1_bounded as [_ [B1 _]]. rewrite Hlv. cbn [ok_or].
  apply (gaussian_m_near eta eta_pos lv_floor eta_floor M _ (eps_slope e1) mu lv' c1); auto.
Qed.

Lemma val_bounded : bounded2 (K_val val) val.
Proof. apply (sum2_bounds Rabs Rabs_nonneg). Qed.

Lemma slop_two_runs (s1 s2 : vec) :
  forward_slop m val loc is_test lv_floor e1 = Ok s1 ->
  forward_slop m val loc is_test lv_floor e2 = Ok s2 ->
  rel1 eta (K_slop m val loc y M) s1 s2.
Proof.
  unfold forward_slop. intros H1 H2.
  apply rbind_ok in H1. destruct H1 as [c1 [Hc1 H1]].
  apply rbind_ok in H1. destruct H1 as [cv1 [Hcv1 H1]]. injection H1 as <-.
  apply rbind_ok in H2. destruct H2 as [c2 [Hc2 H2]].
  apply rbind_ok in H2. destruct H2 as [cv2 [Hcv2 H2]]. injection H2 as <-.
  destruct (coef_two_runs c1 c2 Hc1 Hc2) as [Hrel Hsz].
  pose proof (mmul_rel eta _ _ _ _ _ _ _ _ Hrel (bounded2_rel eta eta_pos _ _ val_bounded)
                       Hcv1 Hcv2) as Hcv.
  pose proof (mmul_sized _ _ _ _ Hsz Hcv1) as Hszcv.
  unfold K_slop. apply row_sums_rel; try assumption; [apply eta_pos|].
  pose proof (K_coef_nonneg m val loc M M_nonneg). pose proof (K_val_nonneg val).
  apply Rmult_le_pos; [lra | assumption].
Qed.

(** The latent vectors. *)
Lemma vi_ln_var_floored (lv lvc lv' : ten3) :
  vi_lvc m val is_test lv_floor = Ok lvc -> tadd lv lvc = Ok lv' ->
  Forall (Forall (Forall (floored lv_floor (sum3 sd lv)))) lv'.
Proof.
  intros Hlvc Hlv'. eapply tadd_floored; [| | exact Hlv'].
  - apply (sum3_bounds sd sd_nonneg).
  - apply (vi_lvc_is_floor lv_floor is_test all_test m val lvc Hlvc).
Qed.

Lemma vi_two_runs (v1 v2 : ten3) :
  forward_vi m val loc is_test lv_floor e1 = Ok v1 ->
  forward_vi m val loc is_test lv_floor e2 = Ok v2 ->
  rel3 eta (K_vi m val loc M) v1 v2 /\ sized3 N v1.
Proof.
  unfold forward_vi. intros H1 H2.
  apply rbind_ok in H1. destruct H1 as [mu [Hmu H1]].
  apply rbind_ok in H1. destruct H1 as [lv [Hlv H1]].
  apply rbind_ok in H1. destruct H1 as [lvc [Hlvc H1]].
  apply rbind_ok in H1. destruct H1 as [lv' [Hlv' H1]].
  rewrite Hmu, Hlv, Hlvc in H2. cbn [rbind] in H2. rewrite Hlv' in H2. cbn [rbind] in H2.
  pose proof (vi_ln_var_floored lv lvc lv' Hlvc Hlv') as Hfl.
  destruct e1_bounded as [_ [_ B1]], e2_bounded as [_ [_ B2]].
  unfold K_vi. rewrite Hmu, Hlv. cbn [ok_or]. split.
  - apply (gaussian_t_rel eta eta_pos lv_floor eta_floor eta_le_1 M M_nonneg
                          _ _ (eps_latent e1) (eps_latent e2) mu lv' v1 v2); auto.
    apply (sum3_bounds Rabs Rabs_nonneg).
  - apply sized3_mono with (size3 mu).
    + unfold N, N_call. rewrite Hmu. cbn [ok_or]. lia.
    + revert H1. apply izip_sized3; [|apply size3_sized].
      intros j x u z. apply izip_sized2. intros k a b c. apply izip_sized1.
Qed.

Lemma vi_near_mean (v1 mu : ten3) :
  forward_vi m val loc is_test lv_floor e1 = Ok v1 ->
  vi_mu m val loc = Ok mu ->
  Forall2 (Forall2 (Forall2 (near_mean eta M (sum3 sd (ok_or [] (vi_lv m val loc)))))) v1 mu.
Proof.
  unfold forward_vi. intros H1 Hmu. rewrite Hmu in H1. cbn [rbind] in H1.
  apply rbind_ok in H1. destruct H1 as [lv [Hlv H1]].
  apply rbind_ok in H1. destruct H1 as [lvc [Hlvc H1]].
  apply rbind_ok in H1. destruct H1 as [lv' [Hlv' H1]].
  pose proof (vi_ln_var_floored lv lvc lv' Hlvc Hlv') as Hfl.
  destruct e1_bounded as [_ [_ B1]]. rewrite Hlv. cbn [ok_or].
  apply (gaussian_t_near eta eta_pos lv_floor eta_floor M _ (eps_latent e1) mu lv' v1); auto.
Qed.

Lemma intx_two_runs (i1 i2 : vec) :
  forward_intx m val loc is_test lv_floor e1 mk = Ok i1 ->
  forward_intx m val loc is_test lv_floor e2 mk = Ok i2 ->
  rel1 eta (K_intx m val loc y mk M) i1 i2.
Proof.
  unfold forward_intx, interaction. intros H1 H2.
  apply rbind_ok in H1. destruct H1 as [v1 [Hv1 H1]].
  apply rbind_ok in H1. destruct H1 as [g1 [Hg1 H1]].
  apply batch_matmul_gram_inv in Hg1. destruct Hg1 as [-> _].
  apply rbind_ok in H1. destruct H1 as [o1 [Ho1 H1]].
  apply batch_matmul_outer_inv in Ho1. destruct Ho1 as [-> _].
  apply rbind_ok in H1. destruct H1 as [p1 [Hp1 H1]].
  apply rbind_ok in H1. destruct H1 as [q1 [Hq1 H1]]. injection H1 as <-.
  apply rbind_ok in H2. destruct H2 as [v2 [Hv2 H2]].
  apply rbind_ok in H2. destruct H2 as [g2 [Hg2 H2]].
  apply batch_matmul_gram_inv in Hg2. destruct Hg2 as [-> _].
  apply rbind_ok in H2. destruct H2 as [o2 [Ho2 H2]].
  apply batch_matmul_outer_inv in Ho2. destruct Ho2 as [-> _].
  apply rbind_ok in H2. destruct H2 as [p2 [Hp2 H2]].
  apply rbind_ok in H2. destruct H2 as [q2 [Hq2 H2]]. injection H2 as <-.
  destruct (vi_two_runs v1 v2 Hv1 Hv2) as [Hrel Hsz].
  pose proof (K_vi_nonneg m val loc M M_nonneg) as Pv.
  pose proof (K_val_nonneg val) as Pval.
  pose proof (K_mask_nonneg mk) as Pm.
  pose proof (pos_INR N) as PN.
  pose proof (grams_rel eta eta_pos _ N _ _ Pv Hsz Hrel) as Hg.
  pose proof (grams_sized N _ Hsz) as Hgs.
  pose proof (bounded3_rel eta eta_pos _ _ (outers_bounded _ _ val_bounded)) as Hx.
  pose proof (tmul_rel eta _ _ _ _ _ _ _ _ Hg Hx Hp1 Hp2) as Hp.
  pose proof (tmul_sized _ _ _ _ Hgs Hp1) as Hps.
  assert (Hmk : bounded3 (K_mask mk) mk) by apply (sum3_bounds Rabs Rabs_nonneg).
  pose proof (tmul_const_rel eta eta_pos _ _ _ _ _ _ _ Hp Hmk Hq1 Hq2) as Hq.
  pose proof (tmul_const_sized _ _ _ _ Hps Hq1) as Hqs.
  unfold K_intx. apply plane_sums_rel; try assumption; [apply eta_pos|].
  fold N. repeat (apply Rmult_le_pos; try assumption; try lra).
Qed.

Lemma pred_two_runs (p1 p2 : vec) :
  forward_pred m val loc y is_test lv_floor e1 mk = Ok p1 ->
  forward_pred m val loc y is_test lv_floor e2 mk = Ok p2 ->
  rel1 eta (K_pred m val loc y mk M) p1 p2 /\ sized1 N p1.
Proof.
  unfold forward_pred. intros H1 H2.
  apply rbind_ok in H1. destruct H1 as [b1 [Hb1 H1]].
  apply rbind_ok in H1. destruct H1 as [s1 [Hs1 H1]].
  apply rbind_ok in H1. destruct H1 as [x1 [Hx1 H1]].
  apply rbind_ok in H1. destruct H1 as [q1 [Hq1 H1]].
  apply rbind_ok in H2. destruct H2 as [b2 [Hb2 H2]].
  apply rbind_ok in H2. destruct H2 as [s2 [Hs2 H2]].
  apply rbind_ok in H2. destruct H2 as [x2 [Hx2 H2]].
  apply rbind_ok in H2. destruct H2 as [q2 [Hq2 H2]].
  destruct (bias_two_runs b1 b2 Hb1 Hb2) as [Hb Hbs].
  pose proof (slop_two_runs s1 s2 Hs1 Hs2) as Hs.
  pose proof (intx_two_runs x1 x2 Hx1 Hx2) as Hx.
  pose proof (vadd_rel eta _ _ _ _ _ _ _ _ Hb Hs Hq1 Hq2) as Hq.
  assert (Hqs : sized1 N q1) by (eapply izip_sized1; eauto).
  unfold K_pred. destruct (intx_term m).
  - split.
    + eapply vadd_rel; eauto.
    + eapply izip_sized1; eauto.
  - injection H1 as <-. injection H2 as <-. split; [|assumption].
    eapply rel1_mono; [apply eta_pos | | exact Hq].
    pose proof (K_intx_nonneg m val loc y mk M M_nonneg). lra.
Qed.

Lemma loss_two_runs (l1 l2 : Logs) :
  forward_logs m val loc y is_test lv_floor e1 mk = Ok l1 ->
  forward_logs m val loc y is_test lv_floor e2 mk = Ok l2 ->
  Rabs (log_loss l1 - log_loss l2) <= K_loss m val loc y mk M * eta.
Proof.
  unfold forward_logs. intros H1 H2.
  apply rbind_ok in H1. destruct H1 as [p1 [Hp1 H1]].
  apply rbind_ok in H1. destruct H1 as [a1 [Ha1 H1]].
  apply rbind_ok in H1. destruct H1 as [f1 [Hf1 H1]]. injection H1 as <-.
  apply frac_inv in Hf1. destruct Hf1 as [_ ->].
  apply rbind_ok in H2. destruct H2 as [p2 [Hp2 H2]].
  apply rbind_ok in H2. destruct H2 as [a2 [Ha2 H2]].
  apply rbind_ok in H2. destruct H2 as [f2 [Hf2 H2]]. injection H2 as <-.
  apply frac_inv in Hf2. destruct Hf2 as [_ ->].
  destruct (pred_two_runs p1 p2 Hp1 Hp2) as [Hrel Hsz].
  assert (Hy : bounded1 (K_y y) y) by apply (sum1_bounds Rabs Rabs_nonneg).
  pose proof (mean_squared_error_rel eta eta_pos _ _ N _ _ _ _ _
                (K_pred_nonneg m val loc y mk M M_nonneg) (K_y_nonneg y)
                Hsz Hrel Hy Ha1 Ha2) as [H _].
  cbn [log_loss].
  replace (a1 + regt m * frac_of m loc - (a2 + regt m * frac_of m loc)) with (a1 - a2) by ring.
  exact H.
Qed.

End TwoRuns.

Lemma forward_logs_of (val : mat) (loc : list (list nat)) (y is_test : vec)
      (lv_floor : R) (eps : Noise) (st st' : St) (loss : R) :
  forward val loc y is_test lv_floor eps st = (Ok loss, st') ->
  exists logs,
    forward_logs (self st) val loc y is_test lv_floor eps
                 (data (fst (mask (shape0 val) (shape1 val) st))) = Ok logs
    /\ log_loss logs = loss.
Proof.
  unfold forward. intros H.
  pose proof (mask_self (shape0 val) (shape1 val) st) as Hs.
  destruct (mask (shape0 val) (shape1 val) st) as [mk st1]. cbn [fst snd] in *.
  destruct (forward_logs (self st1) val loc y is_test lv_floor eps (data mk))
    as [logs|e] eqn:Hl; [|discriminate].
  injection H as <- <-. exists logs.
  rewrite Hs, forward_logs_set_mask in Hl. auto.
Qed.

Lemma exp_half_le (x e0 : R) : 0 < e0 -> x <= 2 * ln e0 -> exp (x * 0.5) <= e0.
Proof.
  intros He Hx. apply Rle_trans with (exp (ln e0)); [|rewrite exp_ln by assumption; lra].
  destruct (Rle_lt_or_eq_dec (x * 0.5) (ln e0)) as [Hlt|Heq]; [lra | |].
  - left. now apply exp_increasing.
  - right. now rewrite Heq.
Qed.

(** A sample within [tol] of its mean. *)
Definition within (tol : R) (s mu : R) : Prop := Rabs (s - mu) <= tol.

(** C4.  Let every row be flagged as test and let the draws be bounded by
    [M].  For every tolerance there is a floor such that, for every
    [lv_floor] at or below it, every sample of a run (the bias of every
    row, the slope coefficient of every slot, every component of the
    latent vector of every slot) is within the tolerance of its posterior
    mean, and the losses returned by any two runs of the call on the same
    state with different draws are within the tolerance of each other;
    and a valid call returns. *)
Theorem test_rows_collapse_to_mean
        (st : St) (val : mat) (loc : list (list nat)) (y is_test : vec) (M tol : R) :
  Forall (eq 1) is_test -> 0 <= M -> 0 < tol ->
  exists L0, forall lv_floor, lv_floor <= L0 ->
    forall e1 e2, noise_bounded M e1 -> noise_bounded M e2 ->
      (forall b, forward_bias (self st) y is_test lv_floor e1 = Ok b ->
                 Forall2 (within tol) b (bs_mu (self st) y))
      /\ (forall c mu, forward_coef (self st) val loc is_test lv_floor e1 = Ok c ->
                       sl_mu (self st) val loc = Ok mu ->
                       Forall2 (Forall2 (within tol)) c mu)
      /\ (forall v mu, forward_vi (self st) val loc is_test lv_floor e1 = Ok v ->
                       vi_mu (self st) val loc = Ok mu ->
                       Forall2 (Forall2 (Forall2 (within tol))) v mu)
      /\ (forall l1 l2 s1 s2,
             forward val loc y is_test lv_floor e1 st = (Ok l1, s1) ->
             forward val loc y is_test lv_floor e2 st = (Ok l2, s2) ->
             Rabs (l1 - l2) <= tol)
      /\ (valid_call st val loc y is_test ->
          exists l1 s1, forward val loc y is_test lv_floor e1 st = (Ok l1, s1)).
Proof.
  intros Htest HM Htol.
  set (m := self st).
  set (mk := data (fst (mask (shape0 val) (shape1 val) st))).
  set (C := K_loss m val loc y mk M).
  set (S := S_all m val loc).
  pose proof (K_loss_nonneg m val loc y mk M HM) as PC. fold C in PC.
  pose proof (S_all_nonneg m val loc) as PS. fold S in PS.
  set (D := C + S * M + 1).
  assert (PD : 0 < D) by (unfold D; nra).
  set (eta0 := Rmin 1 (tol / D)).
  assert (P0 : 0 < eta0).
  { unfold eta0. apply Rmin_glb_lt; [lra|]. now apply Rdiv_lt_0_compat. }
  exists (2 * ln eta0). intros lv_floor Hfl e1 e2 B1 B2.
  set (eta := exp (lv_floor * 0.5)).
  assert (He0 : eta <= eta0) by (apply exp_half_le; assumption).
  assert (He1 : eta <= 1) by (eapply Rle_trans; [exact He0 | apply Rmin_l]).
  assert (Hep : 0 <= eta) by (unfold eta; pose proof (exp_pos (lv_floor * 0.5)); lra).
  assert (Het : D * eta <= tol).
  { assert (eta <= tol / D) by (eapply Rle_trans; [exact He0 | apply Rmin_r]).
    replace tol with (D * (tol / D)) by (field; lra).
    apply Rmult_le_compat_l; lra. }
  assert (Hsmall : forall X, 0 <= X -> X <= D -> X * eta <= tol).
  { intros X HX HXD. apply Rle_trans with (D * eta); [|assumption].
    apply Rmult_le_compat_r; assumption. }
  assert (Hnear : forall S0 s mu, 0 <= S0 -> S0 <= S ->
                                  near_mean eta M S0 s mu -> within tol s mu).
  { intros S0 s mu HS0 HS0S Hn. unfold near_mean in Hn. unfold within.
    eapply Rle_trans; [exact Hn|]. apply Hsmall.
    - now apply Rmult_le_pos.
    - unfold D. nra. }
  pose proof (sd_nonneg (bias_lv m)) as Q1.
  pose proof (sum2_nonneg sd sd_nonneg (ok_or [] (sl_lv m val loc))) as Q2.
  pose proof (sum3_nonneg sd sd_nonneg (ok_or [] (vi_lv m val loc))) as Q3.
  assert (ES : S = sd (bias_lv m) + sum2 sd (ok_or [] (sl_lv m val loc))
                   + sum3 sd (ok_or [] (vi_lv m val loc))) by reflexivity.
  split; [|split; [|split; [|split]]]; [| | | |apply forward_returns].
  - intros b Hb.
    pose proof (bias_near_mean m y is_test lv_floor eta M e1 Htest eq_refl B1 b Hb) as H.
    eapply Forall2_mono; [|exact H]. intros s mu. apply Hnear; lra.
  - intros c mu Hc Hmu.
    pose proof (coef_near_mean m val loc is_test lv_floor eta M e1 Htest eq_refl B1 c mu Hc Hmu)
      as H.
    eapply Forall2_mono; [|exact H]. intros u v.
    apply Forall2_mono. intros s x. apply Hnear; lra.
  - intros v mu Hv Hmu.
    pose proof (vi_near_mean m val loc is_test lv_floor eta M e1 Htest eq_refl B1 v mu Hv Hmu)
      as H.
    eapply Forall2_mono; [|exact H]. intros a a'.
    apply Forall2_mono. intros u u'.
    apply Forall2_mono. intros s x. apply Hnear; lra.
  - intros l1 l2 s1 s2 H1 H2.
    apply forward_logs_of in H1. destruct H1 as [g1 [Hg1 <-]].
    apply forward_logs_of in H2. destruct H2 as [g2 [Hg2 <-]].
    pose proof (loss_two_runs m val loc y is_test mk lv_floor eta M e1 e2
                              Htest eq_refl He1 HM B1 B2 g1 g2 Hg1 Hg2) as H.
    eapply Rle_trans; [exact H|]. apply Hsmall; [assumption|].
    change (C <= D). unfold D. nra.
Qed.

Definition unit_noise : Noise :=
  {| eps_bias := fun _ => 1; eps_slope := fun _ _ => 1; eps_latent := fun _ _ _ => 1 |}.

Lemma test_rows_collapse_to_mean_witness :
  exists L0,
    (forall b, forward_bias demo [0] [1] L0 unit_noise = Ok b ->
               Forall2 (within 1) b (bs_mu demo [0]))
    /\ (forall l1 l2 s1 s2,
           forward [[1; 1]] [[0; 1]%nat] [0] [1] L0 unit_noise (fresh_state demo) = (Ok l1, s1) ->
           forward [[1; 1]] [[0; 1]%nat] [0] [1] L0 no_noise (fresh_state demo) = (Ok l2, s2) ->
           Rabs (l1 - l2) <= 1)
    /\ (exists l1 s1,
           forward [[1; 1]] [[0; 1]%nat] [0] [1] L0 unit_noise (fresh_state demo) = (Ok l1, s1)).
Proof.
  destruct (test_rows_collapse_to_mean (fresh_state demo) [[1; 1]] [[0; 1]%nat] [0] [1] 1 1)
    as [L0 H].
  - repeat constructor.
  - lra.
  - lra.
  - exists L0.
    destruct (H L0 (Rle_refl L0) unit_noise no_noise) as [Hb [_ [_ [Hl Hr]]]].
    + repeat split; intros; cbn; rewrite Rabs_R1; lra.
    + repeat split; intros; cbn; rewrite Rabs_R0; lra.
    + split; [exact Hb | split; [exact Hl|]]. apply Hr.
      unfold valid_call, has_shape2. cbn.
      repeat split; try reflexivity; repeat constructor; try discriminate; try lra.
Defined.

(** ** The interaction term with a mask of the right shape *)

Section PairSums.

(** Elementwise product of two matrices of one shape. *)
Definition hadamard (a b : mat) : mat :=
  map (fun p => map (fun q => fst q * snd q) (combine (fst p) (snd p))) (combine a b).

Lemma izip_with_value {A B C} (f : nat -> A -> B -> result C) (g : A -> B -> C)
      (P : A -> Prop) (Q : B -> Prop) :
  (forall i x y, P x -> Q y -> f i x y = Ok (g x y)) ->
  forall a b i, length a = length b -> Forall P a -> Forall Q b ->
                izip_with f i a b = Ok (map (fun p => g (fst p) (snd p)) (combine a b)).
Proof.
  intros Hf. induction a as [|x a IH]; intros [|y b] i Hl Ha Hb; cbn in Hl; try discriminate.
  - reflexivity.
  - inversion Ha; subst. inversion Hb; subst. cbn.
    rewrite Hf by assumption. cbn. rewrite IH by (auto; lia). reflexivity.
Qed.

Lemma vmul_value (u v : vec) :
  length u = length v -> vmul u v = Ok (map (fun q => fst q * snd q) (combine u v)).
Proof.
  intros H. unfold vmul, zip_with.
  apply (izip_with_value _ Rmult (fun _ => True) (fun _ => True)); auto;
    apply Forall_forall; auto.
Qed.

Lemma mmul_value (r c : nat) (a b : mat) :
  has_shape2 r c a -> has_shape2 r c b -> mmul a b = Ok (hadamard a b).
Proof.
  intros [Ha1 Ha2] [Hb1 Hb2]. unfold mmul, zip_with, hadamard.
  apply (izip_with_value
           _ (fun u v => map (fun q => fst q * snd q) (combine u v))
           (fun u => length u = c) (fun v => length v = c)); try assumption; [|congruence].
  intros _ u v Hu Hv. apply vmul_value. congruence.
Qed.

Lemma vmul_const_value (u v : vec) :
  length u = length v -> vmul_const u v = Ok (map (fun q => fst q * snd q) (combine u v)).
Proof.
  intros H. unfold vmul_const. rewrite (bcast_same _ _ (eq_sym H)). cbn [rbind].
  now apply vmul_value.
Qed.

Lemma mmul_const_value (r c : nat) (a b : mat) :
  has_shape2 r c a -> has_shape2 r c b -> mmul_const a b = Ok (hadamard a b).
Proof.
  intros [Ha1 Ha2] [Hb1 Hb2]. unfold mmul_const.
  rewrite (bcast_same (length a) b) by exact (eq_trans Hb1 (eq_sym Ha1)). cbn [rbind].
  unfold zip_with, hadamard.
  apply (izip_with_value
           _ (fun u v => map (fun q => fst q * snd q) (combine u v))
           (fun u => length u = c) (fun v => length v = c)); try assumption; [|congruence].
  intros _ u v Hu Hv. apply vmul_const_value. congruence.
Qed.

Lemma hadamard_shape (r c : nat) (a b : mat) :
  has_shape2 r c a -> has_shape2 r c b -> has_shape2 r c (hadamard a b).
Proof.
  intros [Ha1 Ha2] [Hb1 Hb2]. unfold hadamard. unfold mat, vec in *. split.
  - rewrite length_map, length_combine, Ha1, Hb1. apply Nat.min_id.
  - apply Forall_map, Forall_forall. intros [u v] Hin. cbn [fst snd].
    rewrite Forall_forall in Ha2, Hb2.
    rewrite length_map, length_combine,
      (Ha2 _ (in_combine_l _ _ _ _ Hin)), (Hb2 _ (in_combine_r _ _ _ _ Hin)).
    apply Nat.min_id.
Qed.

Lemma shape2_row {X} (r c i : nat) (a : list (list X)) :
  has_shape2 r c a -> (i < r)%nat -> length (nth i a []) = c.
Proof.
  intros [H1 H2] Hi. rewrite Forall_forall in H2. apply H2, nth_In. lia.
Qed.

Lemma hadamard_entry (r c i j : nat) (a b : mat) :
  has_shape2 r c a -> has_shape2 r c b -> (i < r)%nat -> (j < c)%nat ->
  nth j (nth i (hadamard a b) []) 0 = nth j (nth i a []) 0 * nth j (nth i b []) 0.
Proof.
  intros Ha Hb Hi Hj. unfold hadamard.
  pose proof (shape2_row r c i a Ha Hi) as La.
  pose proof (shape2_row r c i b Hb Hi) as Lb.
  destruct Ha as [Ha1 _], Hb as [Hb1 _]. unfold mat, vec in *.
  rewrite (nth_map_lt _ _ _ _ (([], []) : list R * list R))
    by (rewrite length_combine, Ha1, Hb1, Nat.min_id; exact Hi).
  rewrite combine_nth by (rewrite Ha1, Hb1; reflexivity). cbn [fst snd].
  rewrite (nth_map_lt _ _ _ _ ((0, 0) : R * R))
    by (rewrite length_combine, La, Lb, Nat.min_id; exact Hj).
  rewrite combine_nth by (rewrite La, Lb; reflexivity). reflexivity.
Qed.

Lemma vsum_nth (l : vec) :
  vsum l = vsum (map (fun i => nth i l 0) (seq 0 (length l))).
Proof.
  induction l as [|x l IH]; [reflexivity|].
  cbn [length]. rewrite <- cons_seq, <- seq_shift, map_cons, map_map.
  cbn [nth]. change (vsum (x :: l)) with (x + vsum l).
  change (vsum (x :: ?t)) with (x + vsum t). now rewrite IH.
Qed.

Lemma msum_nth (r c : nat) (a : mat) :
  has_shape2 r c a ->
  msum a = vsum (map (fun i => vsum (map (fun j => nth j (nth i a []) 0) (seq 0 c)))
                     (seq 0 r)).
Proof.
  intros Ha. unfold msum. rewrite vsum_nth, length_map.
  destruct Ha as [Ha1 Ha2]. unfold mat, vec in *. rewrite Ha1. f_equal.
  apply map_ext_in. intros i Hi. apply in_seq in Hi.
  rewrite (nth_map_lt _ _ _ _ ([] : list R)) by (rewrite Ha1; lia).
  rewrite vsum_nth. rewrite Forall_forall in Ha2.
  rewrite (Ha2 (nth i a [])) by (apply nth_In; rewrite Ha1; lia). reflexivity.
Qed.

Lemma gram_entry (V : mat) (i j : nat) :
  (i < length V)%nat -> (j < length V)%nat ->
  nth j (nth i (F.gram V) []) 0 = dot (nth i V []) (nth j V []).
Proof.
  intros Hi Hj. unfold F.gram. unfold mat, vec in *.
  rewrite (nth_map_lt _ _ _ _ ([] : list R)) by exact Hi.
  rewrite (nth_map_lt _ _ _ _ ([] : list R)) by exact Hj. reflexivity.
Qed.

Lemma outer_entry (x : vec) (i j : nat) :
  (i < length x)%nat -> (j < length x)%nat ->
  nth j (nth i (F.outer x) []) 0 = nth i x 0 * nth j x 0.
Proof.
  intros Hi Hj. unfold F.outer. unfold vec in *.
  rewrite (nth_map_lt _ _ _ _ 0) by exact Hi.
  rewrite (nth_map_lt _ _ _ _ 0) by exact Hj. reflexivity.
Qed.

(** One row of the batch: the masked sum is the sum over the ordered pairs
    of distinct slots. *)
Lemma row_interaction (nf : nat) (V : mat) (x : vec) :
  length V = nf -> length x = nf ->
  msum (hadamard (hadamard (F.gram V) (F.outer x)) (msub (ones nf nf) (eye nf)))
  = ordered_pair_sum V x.
Proof.
  intros HV Hx.
  assert (Sg : has_shape2 nf nf (F.gram V)) by (rewrite <- HV; apply gram_shape).
  assert (So : has_shape2 nf nf (F.outer x)) by (rewrite <- Hx; apply outer_shape).
  pose proof (ones_msub_eye_shape nf) as Sm.
  pose proof (hadamard_shape _ _ _ _ Sg So) as Sp.
  rewrite (msum_nth nf nf) by now apply hadamard_shape.
  unfold ordered_pair_sum. rewrite Hx. f_equal.
  apply map_ext_in. intros i Hi. apply in_seq in Hi. f_equal.
  apply map_ext_in. intros j Hj. apply in_seq in Hj.
  rewrite (hadamard_entry nf nf), (hadamard_entry nf nf) by (assumption || lia).
  rewrite gram_entry, outer_entry, mask_slice_entry by lia.
  unfold pair_term. destruct (i =? j)%nat; ring.
Qed.

End PairSums.

Section PairSumsOfBatch.

Lemma interaction_rows (nf : nat) :
  forall (vi : ten3) (val : mat) (bs : nat),
    length vi = bs -> length val = bs ->
    Forall (fun V => length V = nf) vi -> Forall (fun x => length x = nf) val ->
    map msum
        (map (fun p => hadamard (fst p) (snd p))
             (combine (map (fun p => hadamard (fst p) (snd p))
                           (combine (map F.gram vi) (map F.outer val)))
                      (repeat (msub (ones nf nf) (eye nf)) bs)))
    = map (fun p => ordered_pair_sum (fst p) (snd p)) (combine vi val).
Proof.
  induction vi as [|V vi IH]; intros [|x val] [|bs] Hvi Hval HV Hx;
    cbn in Hvi, Hval; try discriminate; [reflexivity|].
  inversion HV; subst. inversion Hx; subst.
  cbn [map combine repeat fst snd]. f_equal.
  - now apply row_interaction.
  - apply IH; auto.
Qed.

(** With the mask built for the shape of the batch, the interaction term of
    every row is the sum over the ordered pairs of distinct slots. *)
Lemma interaction_fresh_mask (bs nf nd : nat) (val : mat) (vi : ten3) :
  (0 < bs)%nat -> (0 < nf)%nat ->
  has_shape2 bs nf val -> has_shape3 bs nf nd vi ->
  interaction val vi (build_mask bs nf)
  = Ok (map (fun p => ordered_pair_sum (fst p) (snd p)) (combine vi val)).
Proof.
  intros Hbs Hnf [Hv1 Hv2] [Hvi1 Hvi2]. unfold interaction.
  assert (HV : Forall (fun V : mat => length V = nf) vi).
  { eapply Forall_impl; [|exact Hvi2]. intros V [H _]. exact H. }
  destruct (shape_of_nonempty bs nf val Hv1 Hv2 Hbs) as [Sv0 Sv1].
  destruct (shape_of_nonempty bs nf vi Hvi1 HV Hbs) as [Si0 Si1].
  rewrite (batch_matmul_gram_ok vi) by (unfold mat, vec in *; rewrite ?Si0, ?Si1; assumption).
  rewrite (batch_matmul_outer_ok val) by (unfold mat, vec in *; rewrite ?Sv0, ?Sv1; assumption).
  cbn [rbind].
  assert (Hg : Forall (has_shape2 nf nf) (map F.gram vi)).
  { apply Forall_map. eapply Forall_impl; [|exact HV]. intros V H. cbn beta in H.
    rewrite <- H. apply gram_shape. }
  assert (Ho : Forall (has_shape2 nf nf) (map F.outer val)).
  { apply Forall_map. eapply Forall_impl; [|exact Hv2]. intros x H. cbn beta in H.
    rewrite <- H. apply outer_shape. }
  assert (Hl : length (map F.gram vi) = length (map F.outer val))
    by (rewrite !length_map; exact (eq_trans Hvi1 (eq_sym Hv1))).
  unfold tmul, zip_with.
  rewrite (izip_with_value (fun _ : nat => mmul) hadamard (has_shape2 nf nf) (has_shape2 nf nf)
                           (fun _ a b => mmul_value nf nf a b) _ _ 0%nat Hl Hg Ho).
  cbn [rbind]. unfold tmul_const, build_mask, tile.
  set (p := map (fun q : mat * mat => hadamard (fst q) (snd q))
                (combine (map F.gram vi) (map F.outer val))).
  assert (Hlp : length p = bs).
  { unfold p. rewrite length_map, length_combine, !length_map.
    unfold mat, vec in *. rewrite Hvi1, Hv1. apply Nat.min_id. }
  assert (Hp : Forall (has_shape2 nf nf) p).
  { unfold p. apply Forall_map, Forall_forall. intros [a b] Hin. cbn [fst snd].
    rewrite Forall_forall in Hg, Ho.
    apply hadamard_shape; [eapply Hg, in_combine_l | eapply Ho, in_combine_r]; eauto. }
  assert (Hlm : length p = length (repeat (msub (ones nf nf) (eye nf)) bs))
    by (rewrite repeat_length; exact Hlp).
  assert (Hm : Forall (has_shape2 nf nf) (repeat (msub (ones nf nf) (eye nf)) bs)).
  { apply Forall_forall. intros x Hx. apply repeat_spec in Hx. rewrite Hx.
    apply ones_msub_eye_shape. }
  rewrite (bcast_same _ _ (eq_sym Hlm)). cbn [rbind].
  unfold zip_with.
  rewrite (izip_with_value (fun _ : nat => mmul_const) hadamard
                           (has_shape2 nf nf) (has_shape2 nf nf)
                           (fun _ a b => mmul_const_value nf nf a b) _ _ 0%nat Hlm Hp Hm).
  cbn [rbind]. f_equal. unfold p. apply interaction_rows; auto.
Qed.

Lemma dot_comm (u v : vec) : dot u v = dot v u.
Proof.
  unfold dot, vsum. revert v. induction u as [|a u IH]; intros [|b v]; cbn; try reflexivity.
  rewrite IH. ring.
Qed.

Lemma pair_term_sym (V : mat) (x : vec) (i j : nat) : pair_term V x i j = pair_term V x j i.
Proof. unfold pair_term. rewrite dot_comm. ring. Qed.

Lemma vsum_map_plus {A} (g h : A -> R) (l : list A) :
  vsum (map (fun i => g i + h i) l) = vsum (map g l) + vsum (map h l).
Proof.
  unfold vsum. induction l as [|a l IH]; cbn; [lra|]. rewrite IH. ring.
Qed.

Lemma vsum_map_zero {A} (l : list A) : vsum (map (fun _ => 0) l) = 0.
Proof. unfold vsum. induction l as [|a l IH]; cbn; [reflexivity|]. rewrite IH. ring. Qed.

Lemma vsum_swap {A B} (g : A -> B -> R) (l : list A) (l' : list B) :
  vsum (map (fun i => vsum (map (fun j => g i j) l')) l)
  = vsum (map (fun j => vsum (map (fun i => g i j) l)) l').
Proof.
  induction l as [|a l IH].
  - cbn. now rewrite vsum_map_zero.
  - cbn [map]. change (vsum (?h :: ?t)) with (h + vsum t).
    rewrite IH, <- vsum_map_plus. reflexivity.
Qed.

(** The sum over the ordered pairs is twice the sum over the unordered
    pairs. *)
Lemma ordered_twice_unordered (V : mat) (x : vec) :
  ordered_pair_sum V x = 2 * unordered_pair_sum V x.
Proof.
  unfold ordered_pair_sum, unordered_pair_sum.
  set (l := seq 0 (length x)).
  pose (up := fun i j : nat => if (i <? j)%nat then pair_term V x i j else 0).
  pose (U := vsum (map (fun i => vsum (map (fun j => up i j) l)) l)).
  assert (E1 : vsum (map (fun i => vsum (map (fun j => up j i) l)) l) = U).
  { rewrite (vsum_swap (fun i j => up j i)). reflexivity. }
  change (vsum (map (fun i => vsum (map (fun j => if (i =? j)%nat then 0
                                                  else pair_term V x i j) l)) l)
          = 2 * U).
  rewrite (map_ext (fun i => vsum (map (fun j => if (i =? j)%nat then 0 else pair_term V x i j) l))
                   (fun i => vsum (map (fun j => up i j) l) + vsum (map (fun j => up j i) l))).
  - rewrite vsum_map_plus, E1. fold U. lra.
  - intros i. rewrite <- vsum_map_plus. f_equal. apply map_ext. intros j. unfold up.
    rewrite (pair_term_sym V x j i).
    destruct (Nat.eqb_spec i j), (Nat.ltb_spec i j), (Nat.ltb_spec j i); try lia; lra.
Qed.

End PairSumsOfBatch.

(** C3 where the cache cannot be stale.  On a model that has no cached
    mask, a valid call computes for every row the sum over the ordered
    pairs [i <> j] of [<v_i, v_j> * x_i * x_j], which is twice the
    factorization-machine sum over the pairs [i < j]. *)
Lemma interaction_first_call (m : VFM) (val : mat) (loc : list (list nat)) (y is_test : vec)
      (lv_floor : R) (eps : Noise) :
  _mask m = None ->
  valid_call (fresh_state m) val loc y is_test ->
  exists vi,
    forward_vi m val loc is_test lv_floor eps = Ok vi
    /\ forward_intx m val loc is_test lv_floor eps
                    (data (fst (mask (shape0 val) (shape1 val) (fresh_state m))))
       = Ok (map (fun p => ordered_pair_sum (fst p) (snd p)) (combine vi val))
    /\ map (fun p => ordered_pair_sum (fst p) (snd p)) (combine vi val)
       = map (fun p => 2 * unordered_pair_sum (fst p) (snd p)) (combine vi val).
Proof.
  intros Hnone [Hwf [Hval [Hloc [Hy [Ht [Hix [_ [Hbs [Hnf _]]]]]]]]].
  cbn [self fresh_state] in *.
  destruct (forward_vi_ok m val loc is_test lv_floor eps Hwf Hloc Ht Hix) as [vi [Hvi Hs]].
  exists vi. split; [assumption|]. split.
  - unfold forward_intx. rewrite Hvi. cbn [rbind].
    rewrite mask_miss by (unfold cache_miss; cbn; now rewrite Hnone).
    cbn [fst data]. eapply interaction_fresh_mask; eauto.
  - apply map_ext. intros p. apply ordered_twice_unordered.
Qed.


(** * Further properties of the code *)

(** ** The sign of the regularization *)

Section KlSign.

Lemma kl_entry_nonneg (m l : R) : 0 <= exp l + m * m - 1 - l.
Proof. pose proof (exp_ineq1_le l). nra. Qed.

Lemma kl_entry_zero (m l : R) : exp l + m * m - 1 - l = 0 -> m = 0 /\ l = 0.
Proof.
  intros H. pose proof (exp_ineq1_le l) as Hl.
  assert (Hm : m * m = 0) by nra.
  split; [nra|].
  destruct (Req_dec l 0) as [E|E]; [assumption|].
  pose proof (exp_ineq1 l E). nra.
Qed.

Lemma kl_standard_normal_nonneg (mu lv : vec) : 0 <= kl_standard_normal mu lv.
Proof.
  unfold kl_standard_normal.
  pose proof (vsum_map_nonneg (fun p : R * R => exp (snd p) + fst p * fst p - 1 - snd p)
                              (combine mu lv) (fun p => kl_entry_nonneg (fst p) (snd p))).
  lra.
Qed.

Lemma kl_standard_normal_zero (mu lv : vec) :
  length mu = length lv ->
  (kl_standard_normal mu lv = 0 <-> Forall (eq 0) mu /\ Forall (eq 0) lv).
Proof.
  unfold kl_standard_normal, vsum. revert lv.
  induction mu as [|a mu IH]; intros [|b lv] Hl; cbn in Hl; try discriminate.
  - cbn. split; [intros _; split; constructor | intros _; lra].
  - specialize (IH lv ltac:(lia)). cbn [combine map fold_right fst snd].
    pose proof (kl_entry_nonneg a b) as P1.
    pose proof (vsum_map_nonneg (fun p : R * R => exp (snd p) + fst p * fst p - 1 - snd p)
                                (combine mu lv) (fun p => kl_entry_nonneg (fst p) (snd p))) as P2.
    unfold vsum in P2. split.
    + intros H.
      assert (E1 : exp b + a * a - 1 - b = 0) by lra.
      destruct (kl_entry_zero a b E1) as [-> ->].
      destruct IH as [IH _]. destruct IH as [H1 H2]; [lra|].
      split; constructor; auto.
    + intros [H1 H2].
      inversion H1 as [|? ? Ea Hmu]; subst. inversion H2 as [|? ? Eb Hlv]; subst.
      destruct IH as [_ IH]. specialize (IH (conj Hmu Hlv)).
      rewrite exp_0. lra.
Qed.

Lemma Forall_concat_iff {X} (P : X -> Prop) (a : list (list X)) :
  Forall P (concat a) <-> Forall (Forall P) a.
Proof.
  induction a as [|u a IH]; cbn.
  - split; constructor.
  - rewrite Forall_app, IH. split.
    + intros [H1 H2]. now constructor.
    + intros H. inversion H; subst. auto.
Qed.

Lemma wf_concat_lengths (m : VFM) :
  wf_model m -> length (concat (latent_mu m)) = length (concat (latent_lv m)).
Proof.
  intros [_ [_ [H3 [H4 _]]]].
  now rewrite (concat_length_shape _ _ _ H3), (concat_length_shape _ _ _ H4).
Qed.

Lemma regs_closed_form (m : VFM) :
  wf_model m ->
  reg0 m = kl_standard_normal [bias_mu m] [bias_lv m]
  /\ reg1 m = kl_standard_normal (slope_mu m) (slope_lv m)
  /\ reg2 m = kl_standard_normal (concat (latent_mu m)) (concat (latent_lv m))
  /\ reg3 m = kl_standard_normal (prior_latent_mu m) (prior_latent_lv m)
  /\ reg4 m = kl_standard_normal [prior_slope_mu m] [prior_slope_lv m].
Proof.
  intros Hwf. pose proof (wf_concat_lengths m Hwf) as Hc.
  destruct Hwf as [H1 [H2 [H3 [H4 [H5 H6]]]]].
  unfold reg0, reg1, reg2, reg3, reg4, F.gaussian_kl_divergence_m.
  repeat split; apply gaussian_kl_divergence_closed_form; try reflexivity; congruence.
Qed.

End KlSign.

(** X1.  On a well-shaped model each of the five regularization terms is
    non-negative; with non-negative lambdas so is their weighted sum, and
    then, for a positive [total_nobs], a call that returns, returns a loss
    that is at least the mean squared error of its prediction, which is
    itself non-negative. *)
Theorem loss_at_least_mse
        (val : mat) (loc : list (list nat)) (y is_test : vec)
        (lv_floor : R) (eps : Noise) (st st' : St) (loss : R) :
  wf_model (self st) ->
  0 <= lambda0 (self st) -> 0 <= lambda1 (self st) -> 0 <= lambda2 (self st) ->
  0 < total_nobs (self st) ->
  forward val loc y is_test lv_floor eps st = (Ok loss, st') ->
  (0 <= reg0 (self st) /\ 0 <= reg1 (self st) /\ 0 <= reg2 (self st)
   /\ 0 <= reg3 (self st) /\ 0 <= reg4 (self st) /\ 0 <= regt (self st))
  /\ exists pred,
      forward_pred (self st) val loc y is_test lv_floor eps
                   (data (fst (mask (shape0 val) (shape1 val) st))) = Ok pred
      /\ 0 <= mse_of pred y <= loss.
Proof.
  intros Hwf L0 L1 L2 HN H.
  destruct (regs_closed_form _ Hwf) as [E0 [E1 [E2 [E3 E4]]]].
  assert (P0 : 0 <= reg0 (self st)) by (rewrite E0; apply kl_standard_normal_nonneg).
  assert (P1 : 0 <= reg1 (self st)) by (rewrite E1; apply kl_standard_normal_nonneg).
  assert (P2 : 0 <= reg2 (self st)) by (rewrite E2; apply kl_standard_normal_nonneg).
  assert (P3 : 0 <= reg3 (self st)) by (rewrite E3; apply kl_standard_normal_nonneg).
  assert (P4 : 0 <= reg4 (self st)) by (rewrite E4; apply kl_standard_normal_nonneg).
  assert (Pt : 0 <= regt (self st)) by (unfold regt; nra).
  split; [repeat split; assumption|].
  apply forward_inv in H. destruct H as [pred [mse [Hp [Hm ->]]]].
  exists pred. split; [assumption|].
  apply mean_squared_error_value in Hm. destruct Hm as [-> Hl].
  assert (Pm : 0 <= mse_of pred y).
  { unfold mse_of.
    pose proof (vsum_map_nonneg (fun p : R * R => (fst p - snd p) * (fst p - snd p))
                                (combine pred y)) as Hs.
    assert (Hsq : forall p : R * R, 0 <= (fst p - snd p) * (fst p - snd p))
      by (intros p; apply Rle_0_sqr).
    specialize (Hs Hsq).
    destruct y as [|b y'].
    - destruct pred; [|discriminate]. cbn. unfold Rdiv. rewrite Rmult_0_l. lra.
    - apply Rmult_le_pos; [assumption|]. left. apply Rinv_0_lt_compat.
      apply lt_0_INR. cbn. lia. }
  split; [assumption|].
  assert (Pf : 0 <= frac_of (self st) loc).
  { unfold frac_of. pose proof (pos_INR (shape0 loc)).
    apply Rmult_le_pos; [nra|]. left. now apply Rinv_0_lt_compat. }
  nra.
Qed.

Lemma loss_at_least_mse_witness :
  exists loss pred,
    forward_pred demo [[1; 1]] [[0; 1]%nat] [0] [1] lv_floor_default no_noise
                 (data (fst (mask 1 2 (fresh_state demo)))) = Ok pred
    /\ 0 <= mse_of pred [0] <= loss.
Proof.
  edestruct (loss_at_least_mse [[1; 1]] [[0; 1]%nat] [0] [1] lv_floor_default no_noise
                               (fresh_state demo)) as [_ [pred [Hp Hm]]].
  - unfold wf_model, has_shape2. cbn. repeat split; try reflexivity; repeat constructor.
  - cbn. lra.
  - cbn. lra.
  - cbn. lra.
  - cbn. lra.
  - run_forward.
  - eexists. exists pred. split; [exact Hp | exact Hm].
Defined.

(** X2.  On a well-shaped model a regularization term is zero exactly when
    every mean and every log-variance of its group is zero. *)
Theorem regularization_term_zero_iff (m : VFM) :
  wf_model m ->
  (reg0 m = 0 <-> bias_mu m = 0 /\ bias_lv m = 0)
  /\ (reg1 m = 0 <-> Forall (eq 0) (slope_mu m) /\ Forall (eq 0) (slope_lv m))
  /\ (reg2 m = 0 <-> Forall (Forall (eq 0)) (latent_mu m) /\ Forall (Forall (eq 0)) (latent_lv m))
  /\ (reg3 m = 0 <-> Forall (eq 0) (prior_latent_mu m) /\ Forall (eq 0) (prior_latent_lv m))
  /\ (reg4 m = 0 <-> prior_slope_mu m = 0 /\ prior_slope_lv m = 0).
Proof.
  intros Hwf. pose proof (wf_concat_lengths m Hwf) as Hc.
  destruct (regs_closed_form m Hwf) as [E0 [E1 [E2 [E3 E4]]]].
  destruct Hwf as [H1 [H2 [H3 [H4 [H5 H6]]]]].
  rewrite E0, E1, E2, E3, E4.
  assert (S1 : forall a b : R, (Forall (eq 0) [a] /\ Forall (eq 0) [b]) <-> (a = 0 /\ b = 0)).
  { intros a b. split.
    - intros [Ha Hb]. inversion Ha; subst. inversion Hb; subst. auto.
    - intros [-> ->]. split; repeat constructor. }
  split; [|split; [|split; [|split]]].
  - rewrite <- S1. now apply kl_standard_normal_zero.
  - apply kl_standard_normal_zero. congruence.
  - rewrite <- !Forall_concat_iff. now apply kl_standard_normal_zero.
  - apply kl_standard_normal_zero. congruence.
  - rewrite <- S1. now apply kl_standard_normal_zero.
Qed.

Lemma regularization_term_zero_iff_witness :
  reg4 demo = 0 /\ reg3 demo = 0 /\ reg1 demo = 0 /\ reg0 demo = 0.
Proof.
  destruct (regularization_term_zero_iff demo) as [H0 [H1 [_ [H3 H4]]]].
  - unfold wf_model, has_shape2. cbn. repeat split; try reflexivity; repeat constructor.
  - split; [|split; [|split]].
    + apply H4. split; reflexivity.
    + apply H3. split; repeat constructor.
    + apply H1. split; repeat constructor.
    + apply H0. split; reflexivity.
Defined.

(** ** The size of the training set *)

Definition with_total_nobs (m : VFM) (n : R) : VFM :=
  {| n_dim := n_dim m; n_features := n_features m;
     lambda0 := lambda0 m; lambda1 := lambda1 m; lambda2 := lambda2 m;
     intx_term := intx_term m; total_nobs := n;
     bias_mu := bias_mu m; bias_lv := bias_lv m;
     slope_mu := slope_mu m; slope_lv := slope_lv m;
     prior_slope_mu := prior_slope_mu m; prior_slope_lv := prior_slope_lv m;
     latent_mu := latent_mu m; latent_lv := latent_lv m;
     prior_latent_mu := prior_latent_mu m; prior_latent_lv := prior_latent_lv m;
     _mask := _mask m |}.

(** The mask a call gets depends on the cache and the allocator alone. *)
Lemma mask_fst_with_self (bs nf : nat) (st : St) (m' : VFM) :
  _mask m' = _mask (self st) -> fst (mask bs nf (with_self st m')) = fst (mask bs nf st).
Proof.
  intros H. unfold mask, with_self. cbn [self next_id reported]. rewrite H.
  destruct (_mask (self st)) as [c|]; [|reflexivity].
  destruct (negb (shape0 (data c) =? bs)%nat); reflexivity.
Qed.

(** X3.  With non-negative lambdas on a well-shaped model, the same call on
    the model with a larger [total_nobs] has the same prediction error and
    a loss that is smaller by the regularization times
    [B / N1 - B / N2]. *)
Theorem larger_total_nobs_smaller_loss
        (val : mat) (loc : list (list nat)) (y is_test : vec)
        (lv_floor : R) (eps : Noise) (st st1 st2 : St) (n2 l1 l2 : R) :
  wf_model (self st) ->
  0 <= lambda0 (self st) -> 0 <= lambda1 (self st) -> 0 <= lambda2 (self st) ->
  0 < total_nobs (self st) <= n2 ->
  forward val loc y is_test lv_floor eps st = (Ok l1, st1) ->
  forward val loc y is_test lv_floor eps (with_self st (with_total_nobs (self st) n2))
  = (Ok l2, st2) ->
  l2 <= l1
  /\ l1 - l2 = regt (self st)
               * (INR (shape0 val) / total_nobs (self st) - INR (shape0 val) / n2).
Proof.
  intros Hwf L0 L1 L2 [HN1 HN2] H1 H2.
  destruct (regs_closed_form _ Hwf) as [E0 [E1 [E2 [E3 E4]]]].
  assert (Pt : 0 <= regt (self st)).
  { unfold regt. rewrite E0, E1, E2, E3, E4.
    pose proof (kl_standard_normal_nonneg [bias_mu (self st)] [bias_lv (self st)]).
    pose proof (kl_standard_normal_nonneg (slope_mu (self st)) (slope_lv (self st))).
    pose proof (kl_standard_normal_nonneg (concat (latent_mu (self st)))
                                          (concat (latent_lv (self st)))).
    pose proof (kl_standard_normal_nonneg (prior_latent_mu (self st))
                                          (prior_latent_lv (self st))).
    pose proof (kl_standard_normal_nonneg [prior_slope_mu (self st)]
                                          [prior_slope_lv (self st)]).
    nra. }
  apply forward_inv in H1. destruct H1 as [p1 [m1 [Hp1 [Hm1 ->]]]].
  apply forward_inv in H2. destruct H2 as [p2 [m2 [Hp2 [Hm2 ->]]]].
  rewrite mask_fst_with_self in Hp2 by reflexivity.
  cbn [self with_self] in Hp2, Hm2 |- *.
  change (forward_pred (with_total_nobs (self st) n2)) with (forward_pred (self st)) in Hp2.
  change (regt (with_total_nobs (self st) n2)) with (regt (self st)).
  assert (p2 = p1) by congruence. subst p2.
  assert (m2 = m1) by congruence. subst m2.
  unfold frac_of. cbn [total_nobs with_total_nobs].
  rewrite (forward_pred_rows _ _ _ _ _ _ _ _ _ Hp1).
  pose proof (pos_INR (shape0 val)) as PB.
  assert (Hinv : / n2 <= / total_nobs (self st)) by (apply Rinv_le_contravar; lra).
  assert (P2 : 0 < / n2) by (apply Rinv_0_lt_compat; lra).
  unfold Rdiv. replace (INR (shape0 val) * 1.0) with (INR (shape0 val)) by lra.
  split; [|ring].
  apply Rplus_le_compat_l, Rmult_le_compat_l; [assumption|].
  apply Rmult_le_compat_l; assumption.
Qed.

Lemma larger_total_nobs_smaller_loss_witness :
  exists l1 l2 st1 st2,
    forward [[1; 1]] [[0; 1]%nat] [0] [1] lv_floor_default no_noise (fresh_state demo)
    = (Ok l1, st1)
    /\ forward [[1; 1]] [[0; 1]%nat] [0] [1] lv_floor_default no_noise
               (with_self (fresh_state demo) (with_total_nobs demo 1000))
       = (Ok l2, st2)
    /\ l2 <= l1.
Proof.
  do 4 eexists. split; [run_forward|]. split; [run_forward|].
  eapply (larger_total_nobs_smaller_loss
            [[1; 1]] [[0; 1]%nat] [0] [1] lv_floor_default no_noise (fresh_state demo)).
  - unfold wf_model, has_shape2. cbn. repeat split; try reflexivity; repeat constructor.
  - cbn. lra.
  - cbn. lra.
  - cbn. lra.
  - cbn. instantiate (1 := 1000). lra.
  - run_forward.
  - run_forward.
Defined.

(** ** Training rows and the floor *)

Section TrainingRows.

Variable is_test : vec.
Hypothesis all_train : Forall (eq 0) is_test.

Lemma vscale_train (f1 f2 : R) : vscale f1 is_test = vscale f2 is_test.
Proof.
  unfold vscale. apply map_ext_in. intros t Ht.
  rewrite Forall_forall in all_train. rewrite <- (all_train t Ht). ring.
Qed.

Lemma bs_lv_train (m : VFM) (y : vec) (f1 f2 : R) :
  bs_lv m y is_test f1 = bs_lv m y is_test f2.
Proof. unfold bs_lv. now rewrite (vscale_train f1 f2). Qed.

Lemma rows_train (nf : nat) (f1 f2 : R) :
  mscale f1 (F.rows_to_m is_test nf) = mscale f2 (F.rows_to_m is_test nf).
Proof.
  unfold mscale, F.rows_to_m. rewrite !map_map. apply map_ext_in. intros t Ht.
  rewrite Forall_forall in all_train. rewrite <- (all_train t Ht).
  unfold vscale. apply map_ext_in. intros x Hx.
  apply repeat_spec in Hx. rewrite Hx. ring.
Qed.

End TrainingRows.

Section TrainingRowsForward.

Variable is_test : vec.
Hypothesis all_train : Forall (eq 0) is_test.

Lemma planes_train (nf nd : nat) (f1 f2 : R) :
  tscale f1 (F.rows_to_t is_test nf nd) = tscale f2 (F.rows_to_t is_test nf nd).
Proof.
  unfold tscale, F.rows_to_t. rewrite !map_map. apply map_ext_in. intros t Ht.
  rewrite Forall_forall in all_train. rewrite <- (all_train t Ht).
  unfold mscale. apply map_ext_in. intros u Hu. apply repeat_spec in Hu. rewrite Hu.
  unfold vscale. apply map_ext_in. intros x Hx. apply repeat_spec in Hx. rewrite Hx. ring.
Qed.

Lemma sl_lvc_train (val : mat) (f1 f2 : R) :
  sl_lvc val is_test f1 = sl_lvc val is_test f2.
Proof.
  unfold sl_lvc. destruct (F.reshape_rows is_test (shape0 val)) as [t|e] eqn:E; [|reflexivity].
  cbn [rbind]. unfold F.reshape_rows in E.
  destruct (length is_test =? shape0 val)%nat; [|discriminate]. injection E as <-.
  now rewrite (rows_train is_test all_train (shape1 val) f1 f2).
Qed.

Lemma vi_lvc_train (m : VFM) (val : mat) (f1 f2 : R) :
  vi_lvc m val is_test f1 = vi_lvc m val is_test f2.
Proof.
  unfold vi_lvc. destruct (F.reshape_rows is_test (shape0 val)) as [t|e] eqn:E; [|reflexivity].
  cbn [rbind]. unfold F.reshape_rows in E.
  destruct (length is_test =? shape0 val)%nat; [|discriminate]. injection E as <-.
  now rewrite (planes_train (shape1 val) (n_dim m) f1 f2).
Qed.

Lemma forward_logs_train (m : VFM) (val : mat) (loc : list (list nat)) (y : vec)
      (f1 f2 : R) (eps : Noise) (mk : ten3) :
  forward_logs m val loc y is_test f1 eps mk = forward_logs m val loc y is_test f2 eps mk.
Proof.
  unfold forward_logs, forward_pred, forward_bias, forward_slop, forward_coef,
    forward_intx, forward_vi.
  now rewrite (bs_lv_train is_test all_train m y f1 f2), (sl_lvc_train val f1 f2),
    (vi_lvc_train m val f1 f2).
Qed.

(** X4.  On a batch of training rows (every flag zero) the floor is not
    used: [forward] returns the same result and leaves the same state for
    any two values of [lv_floor], and so [__call__], which passes the
    default floor, agrees with [forward] at any floor. *)
Theorem training_rows_ignore_floor
        (val : mat) (loc : list (list nat)) (y : vec) (f1 f2 : R) (eps : Noise) (st : St) :
  forward val loc y is_test f1 eps st = forward val loc y is_test f2 eps st
  /\ __call__ val loc y is_test eps st = forward val loc y is_test f1 eps st.
Proof.
  assert (E : forall a b, forward val loc y is_test a eps st = forward val loc y is_test b eps st).
  { intros a b. unfold forward.
    destruct (mask (shape0 val) (shape1 val) st) as [mk st1].
    now rewrite (forward_logs_train (self st1) val loc y a b eps (data mk)). }
  split; [apply E | apply E].
Qed.

End TrainingRowsForward.

Lemma training_rows_ignore_floor_witness :
  forward [[1; 1]] [[0; 1]%nat] [0] [0] (-100) unit_noise (fresh_state demo)
  = forward [[1; 1]] [[0; 1]%nat] [0] [0] 0 unit_noise (fresh_state demo).
Proof.
  assert (H : Forall (eq 0) [0]) by repeat constructor.
  destruct (training_rows_ignore_floor [0] H [[1; 1]] [[0; 1]%nat] [0] (-100) 0
                                       unit_noise (fresh_state demo)) as [E _].
  exact E.
Defined.

(** ** Zero draws *)

Section ZeroDraws.

Lemma Forall2_eq_eq {X} (l l' : list X) : Forall2 eq l l' -> l = l'.
Proof. induction 1; congruence. Qed.

Lemma Forall_True {X} (l : list X) : Forall (fun _ => True) l.
Proof. apply Forall_forall. auto. Qed.

Lemma gaussian_v_zero (mu lv s : vec) :
  F.gaussian_v (fun _ => 0) mu lv = Ok s -> s = mu.
Proof.
  intros H. apply Forall2_eq_eq. revert H. unfold F.gaussian_v.
  apply izip_with_vs_first with (PB := fun _ => True); [|apply Forall_True].
  intros i m l z _ Hz. injection Hz as <-. unfold F.gaussian1. ring.
Qed.

Lemma gaussian_m_zero (mu lv s : mat) :
  F.gaussian_m (fun _ _ => 0) mu lv = Ok s -> s = mu.
Proof.
  intros H. apply Forall2_eq_eq. revert H. unfold F.gaussian_m.
  apply izip_with_vs_first with (PB := fun _ => True); [|apply Forall_True].
  intros i m l z _. apply gaussian_v_zero.
Qed.

Lemma gaussian_t_zero (mu lv s : ten3) :
  F.gaussian_t (fun _ _ _ => 0) mu lv = Ok s -> s = mu.
Proof.
  intros H. apply Forall2_eq_eq. revert H. unfold F.gaussian_t.
  apply izip_with_vs_first with (PB := fun _ => True); [|apply Forall_True].
  intros i m l z _. apply gaussian_m_zero.
Qed.

Variable m : VFM.
Variables (val : mat) (loc : list (list nat)) (y : vec).

Lemma bias_zero_draws (is_test : vec) (f : R) (b : vec) :
  forward_bias m y is_test f no_noise = Ok b -> b = bs_mu m y.
Proof.
  unfold forward_bias. intros H. apply rbind_ok in H. destruct H as [lv [_ H]].
  now apply gaussian_v_zero in H.
Qed.

Lemma coef_zero_draws (is_test : vec) (f : R) (c : mat) :
  forward_coef m val loc is_test f no_noise = Ok c -> sl_mu m val loc = Ok c.
Proof.
  unfold forward_coef. intros H.
  apply rbind_ok in H. destruct H as [mu [Hmu H]].
  apply rbind_ok in H. destruct H as [lv [_ H]].
  apply rbind_ok in H. destruct H as [lvc [_ H]].
  apply rbind_ok in H. destruct H as [lv' [_ H]].
  apply gaussian_m_zero in H. now subst.
Qed.

Lemma vi_zero_draws (is_test : vec) (f : R) (v : ten3) :
  forward_vi m val loc is_test f no_noise = Ok v -> vi_mu m val loc = Ok v.
Proof.
  unfold forward_vi. intros H.
  apply rbind_ok in H. destruct H as [mu [Hmu H]].
  apply rbind_ok in H. destruct H as [lv [_ H]].
  apply rbind_ok in H. destruct H as [lvc [_ H]].
  apply rbind_ok in H. destruct H as [lv' [_ H]].
  apply gaussian_t_zero in H. now subst.
Qed.

Lemma pred_zero_draws (t1 t2 : vec) (f1 f2 : R) (mk : ten3) (p1 p2 : vec) :
  forward_pred m val loc y t1 f1 no_noise mk = Ok p1 ->
  forward_pred m val loc y t2 f2 no_noise mk = Ok p2 ->
  p1 = p2.
Proof.
  unfold forward_pred, forward_slop, forward_intx. intros H1 H2.
  apply rbind_ok in H1. destruct H1 as [b1 [Hb1 H1]].
  apply rbind_ok in H1. destruct H1 as [s1 [Hs1 H1]].
  apply rbind_ok in H1. destruct H1 as [x1 [Hx1 H1]].
  apply rbind_ok in H2. destruct H2 as [b2 [Hb2 H2]].
  apply rbind_ok in H2. destruct H2 as [s2 [Hs2 H2]].
  apply rbind_ok in H2. destruct H2 as [x2 [Hx2 H2]].
  apply bias_zero_draws in Hb1, Hb2.
  apply rbind_ok in Hs1. destruct Hs1 as [c1 [Hc1 Hs1]].
  apply rbind_ok in Hs2. destruct Hs2 as [c2 [Hc2 Hs2]].
  apply coef_zero_draws in Hc1, Hc2.
  apply rbind_ok in Hx1. destruct Hx1 as [v1 [Hv1 Hx1]].
  apply rbind_ok in Hx2. destruct Hx2 as [v2 [Hv2 Hx2]].
  apply vi_zero_draws in Hv1, Hv2.
  assert (c2 = c1) by congruence. assert (v2 = v1) by congruence. subst.
  assert (s2 = s1) by congruence. assert (x2 = x1) by congruence. subst.
  congruence.
Qed.

End ZeroDraws.

(** X5.  With every draw equal to zero the samples are the posterior
    means: the bias of every row is [bias_mu], the coefficients are the
    slope means, the latent vectors the latent means.  So two returning
    calls with zero draws on the same state and batch return the same
    loss, whatever their flags and floors. *)
Theorem zero_draws_give_the_means
        (val : mat) (loc : list (list nat)) (y t1 t2 : vec) (f1 f2 : R)
        (st s1 s2 : St) (l1 l2 : R) :
  forward val loc y t1 f1 no_noise st = (Ok l1, s1) ->
  forward val loc y t2 f2 no_noise st = (Ok l2, s2) ->
  forward_bias (self st) y t1 f1 no_noise = Ok (bs_mu (self st) y)
  /\ forward_coef (self st) val loc t1 f1 no_noise = sl_mu (self st) val loc
  /\ forward_vi (self st) val loc t1 f1 no_noise = vi_mu (self st) val loc
  /\ l1 = l2.
Proof.
  intros H1 H2.
  apply forward_inv in H1. destruct H1 as [p1 [m1 [Hp1 [Hm1 ->]]]].
  apply forward_inv in H2. destruct H2 as [p2 [m2 [Hp2 [Hm2 ->]]]].
  pose proof (pred_zero_draws _ _ _ _ _ _ _ _ _ _ _ Hp1 Hp2) as E. subst p2.
  assert (m2 = m1) by congruence. subst m2.
  unfold forward_pred, forward_slop, forward_intx in Hp1.
  apply rbind_ok in Hp1. destruct Hp1 as [b [Hb Hp1]].
  apply rbind_ok in Hp1. destruct Hp1 as [s [Hs Hp1]].
  apply rbind_ok in Hp1. destruct Hp1 as [x [Hx _]].
  apply rbind_ok in Hs. destruct Hs as [c [Hc _]].
  apply rbind_ok in Hx. destruct Hx as [v [Hv _]].
  repeat split.
  - rewrite Hb. f_equal. eapply bias_zero_draws; eauto.
  - rewrite Hc. symmetry. eapply coef_zero_draws; eauto.
  - rewrite Hv. symmetry. eapply vi_zero_draws; eauto.
Qed.

Lemma zero_draws_give_the_means_witness :
  forward_coef demo [[1; 1]] [[0; 1]%nat] [1] (-100) no_noise
  = sl_mu demo [[1; 1]] [[0; 1]%nat].
Proof.
  edestruct (zero_draws_give_the_means [[1; 1]] [[0; 1]%nat] [0] [1] [0] (-100) 0
                                       (fresh_state demo)) as [_ [H _]].
  - run_forward.
  - run_forward.
  - exact H.
Defined.

(** ** A feature index outside the tables *)

Lemma embed_row_cons {X} (W : list X) (i : nat) (ix : list nat) :
  F.embed_row W (i :: ix)
  = match nth_error W i with
    | Some w => rbind (F.embed_row W ix) (fun r => Ok (w :: r))
    | None => Err IndexError
    end.
Proof. reflexivity. Qed.

Lemma EmbedID_cons {X} (W : list X) (ix : list nat) (x : list (list nat)) :
  F.EmbedID W (ix :: x)
  = rbind (F.embed_row W ix) (fun row => rbind (F.EmbedID W x) (fun r => Ok (row :: r))).
Proof. reflexivity. Qed.

Lemma embed_row_raises_index {X} (W : list X) (ix : list nat) (e : error) :
  F.embed_row W ix = Err e -> e = IndexError.
Proof.
  induction ix as [|i ix IH]; [discriminate|].
  rewrite embed_row_cons.
  destruct (nth_error W i); [|congruence].
  destruct (F.embed_row W ix); cbn; [discriminate|]. intros H. apply IH. congruence.
Qed.

Lemma embed_row_out_of_range {X} (W : list X) (ix : list nat) :
  Exists (fun i => (length W <= i)%nat) ix -> F.embed_row W ix = Err IndexError.
Proof.
  induction 1 as [i ix Hi | i ix _ IH]; rewrite embed_row_cons.
  - apply nth_error_None in Hi. now rewrite Hi.
  - rewrite IH. now destruct (nth_error W i).
Qed.

Lemma EmbedID_out_of_range {X} (W : list X) (x : list (list nat)) :
  Exists (Exists (fun i => (length W <= i)%nat)) x -> F.EmbedID W x = Err IndexError.
Proof.
  induction 1 as [ix x Hix | ix x _ IH]; rewrite EmbedID_cons.
  - now rewrite (embed_row_out_of_range W ix Hix).
  - rewrite IH.
    destruct (F.embed_row W ix) eqn:E; cbn; [reflexivity|].
    f_equal. eapply embed_row_raises_index; eauto.
Qed.

Lemma forward_bias_returns (m : VFM) (y is_test : vec) (f : R) (eps : Noise) :
  length is_test = length y ->
  exists b, forward_bias m y is_test f eps = Ok b.
Proof.
  intros H. unfold forward_bias, bs_lv, bs_mu, F.broadcast_to_v.
  destruct (vadd_ok (repeat (bias_lv m) (length y)) (vscale f is_test)) as [lv [Hlv Hl]].
  { unfold vscale. rewrite repeat_length, length_map. congruence. }
  rewrite Hlv. cbn [rbind]. rewrite repeat_length in Hl.
  destruct (gaussian_v_ok (eps_bias eps) (repeat (bias_mu m) (length y)) lv) as [b [Hb _]].
  { rewrite repeat_length. congruence. }
  eauto.
Qed.

(** X6.  When the flags are as many as the targets, so that the bias is
    drawn, and some feature index of the batch is not below the number of
    rows of the slope table, [forward] raises the index error at the first
    lookup.  The state is then the one the call of [mask] left, and nothing
    has been reported. *)
Theorem index_outside_table_raises
        (val : mat) (loc : list (list nat)) (y is_test : vec)
        (lv_floor : R) (eps : Noise) (st : St) :
  length is_test = length y ->
  Exists (Exists (fun i => (length (slope_mu (self st)) <= i)%nat)) loc ->
  forward val loc y is_test lv_floor eps st
  = (Err IndexError, snd (mask (shape0 val) (shape1 val) st))
  /\ reported (snd (forward val loc y is_test lv_floor eps st)) = reported st.
Proof.
  intros Hlen Hix.
  assert (E : forward val loc y is_test lv_floor eps st
              = (Err IndexError, snd (mask (shape0 val) (shape1 val) st))).
  { unfold forward.
    destruct (mask_frame (shape0 val) (shape1 val) st) as [Hf _].
    destruct (mask (shape0 val) (shape1 val) st) as [mk st1]. cbn [snd] in *.
    apply (f_equal slope_mu) in Hf. cbn in Hf.
    assert (El : forward_logs (self st1) val loc y is_test lv_floor eps (data mk)
                 = Err IndexError).
    { unfold forward_logs, forward_pred.
      destruct (forward_bias_returns (self st1) y is_test lv_floor eps Hlen) as [b ->].
      cbn [rbind]. unfold forward_slop, forward_coef, sl_mu.
      rewrite Hf, (EmbedID_out_of_range _ _ Hix). reflexivity. }
    rewrite El. reflexivity. }
  split; [exact E|]. rewrite E. cbn [snd].
  apply (mask_frame (shape0 val) (shape1 val) st).
Qed.

Lemma index_outside_table_raises_witness :
  forward [[1; 1]] [[0; 3]%nat] [0] [0] (-100) unit_noise (fresh_state demo)
  = (Err IndexError, snd (mask 1 2 (fresh_state demo))).
Proof.
  destruct (index_outside_table_raises [[1; 1]] [[0; 3]%nat] [0] [0] (-100) unit_noise
                                       (fresh_state demo)) as [E _].
  - reflexivity.
  - apply Exists_cons_hd. apply Exists_cons_tl. apply Exists_cons_hd. cbn. lia.
  - exact E.
Defined.

(** ** What the reporter receives *)

Lemma mse_of_nonneg (pred y : vec) : 0 <= mse_of pred y.
Proof.
  unfold mse_of.
  assert (Hs : 0 <= vsum (map (fun p : R * R => (fst p - snd p) * (fst p - snd p))
                              (combine pred y))).
  { apply vsum_map_nonneg. intros p. apply Rle_0_sqr. }
  destruct y as [|b y'].
  - destruct pred; cbn; unfold Rdiv; rewrite Rmult_0_l; lra.
  - apply Rmult_le_pos; [assumption|]. left. apply Rinv_0_lt_compat.
    apply lt_0_INR. cbn. lia.
Qed.

Lemma forward_raises_state (val : mat) (loc : list (list nat)) (y is_test : vec)
      (lv_floor : R) (eps : Noise) (st st' : St) (e : error) :
  forward val loc y is_test lv_floor eps st = (Err e, st') ->
  st' = snd (mask (shape0 val) (shape1 val) st).
Proof.
  unfold forward. destruct (mask (shape0 val) (shape1 val) st) as [mk st1].
  destruct (forward_logs _ _ _ _ _ _ _ _); cbn; congruence.
Qed.

(** X7.  A call that returns hands the reporter exactly one record, put in
    front of what was reported before.  Its loss is the returned value, its
    bias is [bias_mu], its rmse is non-negative, and the entries fit
    together: rmse squared plus regt times the batch fraction is the loss.
    A call that raises hands the reporter nothing. *)
Theorem reporter_receives_one_consistent_record
        (val : mat) (loc : list (list nat)) (y is_test : vec)
        (lv_floor : R) (eps : Noise) (st : St) :
  match forward val loc y is_test lv_floor eps st with
  | (Ok loss, st') =>
      exists logs,
        reported st' = logs :: reported st
        /\ log_loss logs = loss
        /\ log_bias logs = bias_mu (self st)
        /\ 0 <= log_rmse logs
        /\ log_rmse logs * log_rmse logs + log_regt logs * frac_of (self st) loc = loss
  | (Err _, st') => reported st' = reported st
  end.
Proof.
  destruct (forward val loc y is_test lv_floor eps st) as [[loss|e] st'] eqn:H.
  - revert H. unfold forward. intros H.
    pose proof (mask_self (shape0 val) (shape1 val) st) as Hs.
    destruct (mask_frame (shape0 val) (shape1 val) st) as [_ [Hr _]].
    destruct (mask (shape0 val) (shape1 val) st) as [mk st1]. cbn [fst snd] in *.
    destruct (forward_logs (self st1) val loc y is_test lv_floor eps (data mk))
      as [logs|e] eqn:Hl; [|discriminate].
    injection H as <- <-. exists logs. cbn [reported report]. rewrite Hr.
    rewrite Hs, forward_logs_set_mask in Hl. unfold forward_logs in Hl.
    apply rbind_ok in Hl. destruct Hl as [pred [_ Hl]].
    apply rbind_ok in Hl. destruct Hl as [mse [Hm Hl]].
    apply rbind_ok in Hl. destruct Hl as [fr [Hfr Hl]].
    apply frac_inv in Hfr. destruct Hfr as [_ ->].
    injection Hl as <-. cbn [log_loss log_bias log_rmse log_regt].
    apply mean_squared_error_value in Hm. destruct Hm as [-> _].
    repeat split.
    + unfold vsum. cbn. ring.
    + apply sqrt_pos.
    + rewrite sqrt_sqrt by apply mse_of_nonneg. reflexivity.
  - apply forward_raises_state in H. subst st'.
    apply (mask_frame (shape0 val) (shape1 val) st).
Qed.

(** ** Calls one after another on the same instance *)

(** The arguments of one call, with the draws it consumes. *)
Record Batch : Type := {
  b_val : mat; b_loc : list (list nat); b_y : vec; b_is_test : vec; b_eps : Noise
}.

Definition call (b : Batch) (st : St) : result R * St :=
  __call__ (b_val b) (b_loc b) (b_y b) (b_is_test b) (b_eps b) st.

(** The calls of a list of batches in order, each on the state the one
    before left, whether that one returned or raised. *)
Fixpoint calls (bs : list Batch) (st : St) : list (result R) * St :=
  match bs with
  | [] => ([], st)
  | b :: rest =>
      let (r, st1) := call b st in
      let (rs, st2) := calls rest st1 in
      (r :: rs, st2)
  end.

Definition returned {A} (r : result A) : bool :=
  match r with Ok _ => true | Err _ => false end.

Definition count_returned {A} (rs : list (result A)) : nat :=
  length (filter returned rs).

Lemma mask_next_id (bs nf : nat) (st : St) :
  next_id (snd (mask bs nf st))
  = if cache_miss (self st) bs then S (next_id st) else next_id st.
Proof.
  destruct (cache_miss (self st) bs) eqn:Hm.
  - now rewrite (mask_miss bs nf st Hm).
  - unfold cache_miss in Hm. destruct (_mask (self st)) as [c|] eqn:Hc; [|discriminate].
    apply negb_false_iff, Nat.eqb_eq in Hm.
    now rewrite (mask_hit bs nf st c Hc Hm).
Qed.

Lemma forward_next_id (val : mat) (loc : list (list nat)) (y is_test : vec)
      (lv_floor : R) (eps : Noise) (st : St) :
  next_id (snd (forward val loc y is_test lv_floor eps st))
  = if cache_miss (self st) (shape0 val) then S (next_id st) else next_id st.
Proof.
  destruct (forward_state val loc y is_test lv_floor eps st) as [_ ->].
  apply mask_next_id.
Qed.

Lemma forward_cached_bs (val : mat) (loc : list (list nat)) (y is_test : vec)
      (lv_floor : R) (eps : Noise) (st : St) :
  cached_bs (self (snd (forward val loc y is_test lv_floor eps st))) = Some (shape0 val).
Proof.
  destruct (forward_state val loc y is_test lv_floor eps st) as [-> _].
  destruct (mask_post (shape0 val) (shape1 val) st) as [Hc Hs].
  unfold cached_bs. rewrite Hc. cbn. now rewrite Hs.
Qed.

Lemma forward_params (val : mat) (loc : list (list nat)) (y is_test : vec)
      (lv_floor : R) (eps : Noise) (st : St) :
  set_mask (self (snd (forward val loc y is_test lv_floor eps st))) None
  = set_mask (self st) None.
Proof.
  destruct (forward_state val loc y is_test lv_floor eps st) as [-> _].
  apply (mask_frame (shape0 val) (shape1 val) st).
Qed.

Lemma forward_reported_length (val : mat) (loc : list (list nat)) (y is_test : vec)
      (lv_floor : R) (eps : Noise) (st : St) :
  length (reported (snd (forward val loc y is_test lv_floor eps st)))
  = ((if returned (fst (forward val loc y is_test lv_floor eps st)) then 1 else 0)
     + length (reported st))%nat.
Proof.
  unfold forward.
  destruct (mask_frame (shape0 val) (shape1 val) st) as [_ [Hr _]].
  destruct (mask (shape0 val) (shape1 val) st) as [mk st1]. cbn [snd] in Hr.
  destruct (forward_logs _ _ _ _ _ _ _ _); cbn; now rewrite Hr.
Qed.

Lemma calls_cons (b : Batch) (rest : list Batch) (st : St) :
  calls (b :: rest) st
  = (fst (call b st) :: fst (calls rest (snd (call b st))),
     snd (calls rest (snd (call b st)))).
Proof.
  cbn [calls]. destruct (call b st) as [r st1]. cbn [fst snd].
  now destruct (calls rest st1).
Qed.

Lemma set_mask_None_params (m m' : VFM) :
  set_mask m None = set_mask m' None -> params m = params m'.
Proof.
  intros H. unfold params.
  pose proof (f_equal bias_mu H). pose proof (f_equal bias_lv H).
  pose proof (f_equal slope_mu H). pose proof (f_equal slope_lv H).
  pose proof (f_equal prior_slope_mu H). pose proof (f_equal prior_slope_lv H).
  pose proof (f_equal latent_mu H). pose proof (f_equal latent_lv H).
  pose proof (f_equal prior_latent_mu H). pose proof (f_equal prior_latent_lv H).
  cbn in *. congruence.
Qed.

Lemma calls_same_batch_size (n : nat) (bs : list Batch) :
  Forall (fun b => shape0 (b_val b) = n) bs ->
  forall st, cached_bs (self st) = Some n ->
             next_id (snd (calls bs st)) = next_id st.
Proof.
  induction 1 as [|b rest Hb _ IH]; intros st Hc; [reflexivity|].
  rewrite calls_cons. cbn [snd]. unfold call, __call__ in *.
  rewrite IH.
  - rewrite forward_next_id.
    destruct (cache_miss (self st) (shape0 (b_val b))) eqn:Hm; [|reflexivity].
    apply cache_miss_cached_bs in Hm. congruence.
  - rewrite forward_cached_bs. now rewrite Hb.
Qed.

(** X8.  Any number of calls in a row, returning or raising, leave the ten
    learnable tensors and every attribute but the cached mask as they were.
    There is one result per call and one more reported record per call that
    returned.  Each call allocates at most one mask, and when all batches
    have the same number of rows the whole run allocates at most one. *)
Theorem calls_keep_parameters_and_reuse_mask (bs : list Batch) (st : St) :
  let st' := snd (calls bs st) in
  params (self st') = params (self st)
  /\ set_mask (self st') None = set_mask (self st) None
  /\ length (fst (calls bs st)) = length bs
  /\ length (reported st') = (count_returned (fst (calls bs st)) + length (reported st))%nat
  /\ (next_id st <= next_id st' <= next_id st + length bs)%nat
  /\ (forall n, Forall (fun b => shape0 (b_val b) = n) bs ->
                (next_id st' <= S (next_id st))%nat).
Proof.
  cbn zeta.
  assert (A : set_mask (self (snd (calls bs st))) None = set_mask (self st) None
              /\ length (fst (calls bs st)) = length bs
              /\ length (reported (snd (calls bs st)))
                 = (count_returned (fst (calls bs st)) + length (reported st))%nat
              /\ (next_id st <= next_id (snd (calls bs st)) <= next_id st + length bs)%nat).
  { revert st. induction bs as [|b rest IH]; intros st.
    - cbn. repeat split; lia.
    - rewrite calls_cons. cbn [fst snd length].
      destruct (IH (snd (call b st))) as [I1 [I2 [I3 I4]]].
      unfold call, __call__ in *.
      pose proof (forward_params (b_val b) (b_loc b) (b_y b) (b_is_test b)
                                 lv_floor_default (b_eps b) st) as F1.
      pose proof (forward_reported_length (b_val b) (b_loc b) (b_y b) (b_is_test b)
                                          lv_floor_default (b_eps b) st) as F2.
      pose proof (forward_next_id (b_val b) (b_loc b) (b_y b) (b_is_test b)
                                  lv_floor_default (b_eps b) st) as F3.
      split; [congruence|]. split; [now rewrite I2|]. split.
      + rewrite I3, F2. unfold count_returned. cbn [filter].
        destruct (returned _); cbn [length]; lia.
      + destruct (cache_miss (self st) (shape0 (b_val b))); lia. }
  destruct A as [A1 [A2 [A3 A4]]].
  split; [now apply set_mask_None_params|].
  split; [assumption|]. split; [assumption|]. split; [assumption|]. split; [assumption|].
  intros n Hn. destruct bs as [|b rest]; [cbn; lia|].
  rewrite calls_cons. cbn [snd]. inversion Hn as [|? ? Hb Hrest]; subst.
  unfold call, __call__.
  rewrite (calls_same_batch_size (shape0 (b_val b)) rest Hrest)
    by apply forward_cached_bs.
  rewrite forward_next_id. destruct (cache_miss _ _); lia.
Qed.

Definition demo_batch : Batch :=
  {| b_val := [[1; 1]]; b_loc := [[0; 1]%nat]; b_y := [0]; b_is_test := [0];
     b_eps := unit_noise |}.

Lemma calls_keep_parameters_and_reuse_mask_witness :
  (next_id (snd (calls [demo_batch; demo_batch; demo_batch] (fresh_state demo))) <= 1)%nat.
Proof.
  destruct (calls_keep_parameters_and_reuse_mask [demo_batch; demo_batch; demo_batch]
                                                 (fresh_state demo))
    as [_ [_ [_ [_ [_ H]]]]].
  apply (H 1%nat). repeat constructor.
Defined.

Lemma forward_cache_step (val : mat) (loc : list (list nat)) (y is_test : vec)
      (lv_floor : R) (eps : Noise) (st : St) :
  let st' := snd (forward val loc y is_test lv_floor eps st) in
  exists c, _mask (self st') = Some c
            /\ (_mask (self st) = Some c /\ next_id st' = next_id st
                \/ c = {| id := next_id st;
                          data := build_mask (shape0 val) (shape1 val) |}
                   /\ next_id st' = S (next_id st)).
Proof.
  cbn zeta. rewrite forward_next_id.
  destruct (forward_state val loc y is_test lv_floor eps st) as [-> _].
  destruct (mask_post (shape0 val) (shape1 val) st) as [Hc _].
  exists (fst (mask (shape0 val) (shape1 val) st)). split; [assumption|].
  destruct (cache_miss (self st) (shape0 val)) eqn:Hm.
  - right. now rewrite (mask_miss _ (shape1 val) st Hm).
  - left. unfold cache_miss in Hm.
    destruct (_mask (self st)) as [c|] eqn:Hc1; [|discriminate].
    apply negb_false_iff, Nat.eqb_eq in Hm.
    now rewrite (mask_hit _ (shape1 val) st c Hc1 Hm).
Qed.

(** X9.  The cache is written by [mask] alone.  After any run of calls the
    cached object is either the one cached before the run, or a mask built
    during the run for the row and slot counts of one of its batches, under
    an identity that was not in use before the run; the cache is empty
    only when it was empty before and nothing was called. *)
Theorem cache_holds_a_mask_built_for_some_batch (bs : list Batch) (st : St) :
  match _mask (self (snd (calls bs st))) with
  | Some c =>
      _mask (self st) = Some c
      \/ Exists (fun b => data c = build_mask (shape0 (b_val b)) (shape1 (b_val b))
                          /\ (next_id st <= id c < next_id (snd (calls bs st)))%nat) bs
  | None => _mask (self st) = None /\ bs = []
  end.
Proof.
  assert (Mono : forall l s, (next_id s <= next_id (snd (calls l s)))%nat).
  { induction l as [|b l IH]; intros s; [cbn; lia|].
    rewrite calls_cons. cbn [snd]. specialize (IH (snd (call b s))).
    unfold call, __call__ in *.
    pose proof (forward_next_id (b_val b) (b_loc b) (b_y b) (b_is_test b)
                                lv_floor_default (b_eps b) s) as F3.
    destruct (cache_miss _ _); lia. }
  revert st. induction bs as [|b rest IH]; intros st.
  - cbn. destruct (_mask (self st)); auto.
  - rewrite calls_cons. cbn [snd].
    specialize (IH (snd (call b st))).
    pose proof (Mono rest (snd (call b st))) as Hm.
    unfold call, __call__ in *.
    destruct (forward_cache_step (b_val b) (b_loc b) (b_y b) (b_is_test b)
                                 lv_floor_default (b_eps b) st) as [c0 [Hc0 Hor]].
    destruct (_mask (self (snd (calls rest _)))) as [c|].
    + destruct IH as [E | E].
      * assert (c = c0) by congruence. subst c0.
        destruct Hor as [[Ho _] | [Ho Hn]]; [now left|].
        right. apply Exists_cons_hd. subst c. cbn [id data]. split; [reflexivity|]. lia.
      * right. apply Exists_cons_tl.
        eapply Exists_impl; [|exact E]. cbn beta. intros a [Ha Hb]. split; [assumption|].
        destruct Hor as [[_ Hn] | [_ Hn]]; lia.
    + destruct IH as [E _]. congruence.
Qed.

(** ** From the constructor to the first call *)

Lemma init_inv (cfg : Config) (rnd : Randn) (m : VFM) :
  __init__ cfg rnd = Ok m ->
  exists n, cfg_n_features cfg = Some n /\ (0 <= n)%Z /\ (0 <= cfg_n_dim cfg)%Z
            /\ n_features m = Z.to_nat n /\ n_dim m = Z.to_nat (cfg_n_dim cfg)
            /\ wf_model m /\ _mask m = None
            /\ bias_mu m = cfg_init_bias_mu cfg /\ bias_lv m = cfg_init_bias_lv cfg
            /\ prior_slope_mu m = 0 /\ prior_slope_lv m = 0
            /\ prior_latent_mu m = repeat 0 (n_dim m)
            /\ prior_latent_lv m = repeat 0 (n_dim m).
Proof.
  unfold __init__. intros H.
  destruct (cfg_n_features cfg) as [n|]; [|discriminate].
  unfold extent in H.
  destruct (Z.ltb_spec n 0) as [Hn|Hn]; [discriminate|].
  destruct (Z.ltb_spec (cfg_n_dim cfg) 0) as [Hd|Hd]; [discriminate|].
  cbn [rbind] in H. injection H as <-. exists n. cbn.
  repeat split; try assumption; try reflexivity; try ring.
  - apply tabulate_length.
  - apply tabulate_length.
  - apply tabulate_length.
  - apply (tabulate_shape2 (Z.to_nat n) (Z.to_nat (cfg_n_dim cfg))).
  - apply tabulate_length.
  - apply (tabulate_shape2 (Z.to_nat n) (Z.to_nat (cfg_n_dim cfg))).
  - apply repeat_length.
  - apply repeat_length.
Qed.

Lemma init_total_nobs (cfg : Config) (rnd : Randn) (m : VFM) :
  __init__ cfg rnd = Ok m -> total_nobs m = cfg_total_nobs cfg.
Proof.
  unfold __init__. intros H.
  destruct (cfg_n_features cfg) as [n|]; [|discriminate].
  destruct (extent n); [|discriminate].
  destruct (extent (cfg_n_dim cfg)); [|discriminate].
  cbn [rbind] in H. now injection H as <-.
Qed.

Lemma Forall_repeat_eq {X} (a : X) (n : nat) : Forall (eq a) (repeat a n).
Proof. induction n; cbn; constructor; auto. Qed.

(** X10.  A model the constructor returns has the shapes [forward]
    expects, an empty mask cache, the bias parameters it was given and
    shared priors that are zero, so that its two prior terms of the
    regularization vanish.  When it was given a [total_nobs] that is not
    zero, its first call on any batch with at least one row and one slot,
    whose arrays agree in shape and whose indices are below [n_features],
    returns, and leaves in the cache the mask built for that batch, as the
    first object allocated. *)
Theorem constructed_model_runs_first_call
        (cfg : Config) (rnd : Randn) (m : VFM)
        (val : mat) (loc : list (list nat)) (y is_test : vec) (eps : Noise) :
  __init__ cfg rnd = Ok m ->
  cfg_total_nobs cfg <> 0 ->
  (0 < shape0 val)%nat -> (0 < shape1 val)%nat ->
  has_shape2 (shape0 val) (shape1 val) val ->
  has_shape2 (shape0 val) (shape1 val) loc ->
  length y = shape0 val ->
  length is_test = shape0 val ->
  Forall (Forall (fun i => (i < n_features m)%nat)) loc ->
  wf_model m
  /\ bias_mu m = cfg_init_bias_mu cfg /\ bias_lv m = cfg_init_bias_lv cfg
  /\ reg3 m = 0 /\ reg4 m = 0
  /\ exists loss st',
      __call__ val loc y is_test eps (fresh_state m) = (Ok loss, st')
      /\ _mask (self st')
         = Some {| id := 0; data := build_mask (shape0 val) (shape1 val) |}
      /\ next_id st' = 1%nat.
Proof.
  intros Hi Hnobs Hbs Hnf Hval Hloc Hy Ht Hix.
  rewrite <- (init_total_nobs cfg rnd m Hi) in Hnobs.
  destruct (init_inv cfg rnd m Hi)
    as [n [_ [_ [_ [_ [_ [Hwf [Hnone [Hbm [Hbl [Hsm [Hsl [Hlm Hll]]]]]]]]]]]]].
  destruct (regs_closed_form m Hwf) as [_ [_ [_ [E3 E4]]]].
  split; [assumption|]. split; [assumption|]. split; [assumption|].
  split.
  { rewrite E3, Hlm, Hll. apply kl_standard_normal_zero.
    - now rewrite !repeat_length.
    - split; apply Forall_repeat_eq. }
  split.
  { rewrite E4, Hsm, Hsl. apply kl_standard_normal_zero; [reflexivity|].
    split; repeat constructor. }
  assert (Hv : valid_call (fresh_state m) val loc y is_test).
  { unfold valid_call. cbn [self fresh_state].
    split; [exact Hwf|]. split; [exact Hval|]. split; [exact Hloc|].
    split; [exact Hy|]. split; [exact Ht|]. split; [exact Hix|].
    split; [|split; [exact Hbs | split; [exact Hnf | exact Hnobs]]].
    intros c Hc. rewrite Hnone in Hc. discriminate. }
  destruct (forward_returns (fresh_state m) val loc y is_test lv_floor_default eps Hv)
    as [loss [st' Hf]].
  exists loss, st'. unfold __call__. split; [exact Hf|].
  destruct (forward_state val loc y is_test lv_floor_default eps (fresh_state m))
    as [Hs Hn].
  rewrite Hf in Hs, Hn. cbn [snd] in Hs, Hn.
  assert (Hm : cache_miss (self (fresh_state m)) (shape0 val) = true).
  { unfold cache_miss. cbn [self fresh_state]. now rewrite Hnone. }
  rewrite (mask_miss _ (shape1 val) _ Hm) in Hs, Hn. cbn [snd self next_id fresh_state] in Hs, Hn.
  rewrite Hs, Hn. split; reflexivity.
Qed.

Lemma constructed_model_runs_first_call_witness :
  exists m loss st',
    __init__ (default_config 3) zero_draws = Ok m
    /\ __call__ [[1; 1]] [[0; 2]%nat] [0] [0] unit_noise (fresh_state m) = (Ok loss, st')
    /\ _mask (self st') = Some {| id := 0; data := build_mask 1 2 |}.
Proof.
  exists (match __init__ (default_config 3) zero_draws with Ok m => m | Err _ => demo end).
  edestruct (constructed_model_runs_first_call (default_config 3) zero_draws
               (match __init__ (default_config 3) zero_draws with Ok m => m | Err _ => demo end)
               [[1; 1]] [[0; 2]%nat] [0] [0] unit_noise)
    as [_ [_ [_ [_ [_ [loss [st' [Hc [Hm _]]]]]]]]].
  - reflexivity.
  - cbn. lra.
  - cbn. lia.
  - cbn. lia.
  - cbn. split; [reflexivity | repeat constructor].
  - cbn. split; [reflexivity | repeat constructor].
  - reflexivity.
  - reflexivity.
  - cbn. repeat constructor.
  - exists loss, st'. split; [reflexivity|]. split; [exact Hc | exact Hm].
Defined.

(** ** The interaction term in time linear in the slots *)

Section LinearTime.

Lemma vsum_map_ext_in {A} (g h : A -> R) (l : list A) :
  (forall a, In a l -> g a = h a) -> vsum (map g l) = vsum (map h l).
Proof. intros H. f_equal. now apply map_ext_in. Qed.

Lemma vsum_map_ext {A} (g h : A -> R) (l : list A) :
  (forall a, g a = h a) -> vsum (map g l) = vsum (map h l).
Proof. intros H. apply vsum_map_ext_in. auto. Qed.

Lemma vsum_map_scale_l {A} (c : R) (g : A -> R) (l : list A) :
  vsum (map (fun a => c * g a) l) = c * vsum (map g l).
Proof. unfold vsum. induction l as [|a l IH]; cbn; [ring|]. rewrite IH. ring. Qed.

Lemma vsum_map_scale_r {A} (c : R) (g : A -> R) (l : list A) :
  vsum (map (fun a => g a * c) l) = vsum (map g l) * c.
Proof. unfold vsum. induction l as [|a l IH]; cbn; [ring|]. rewrite IH. ring. Qed.

Lemma vsum_map_minus {A} (g h : A -> R) (l : list A) :
  vsum (map (fun a => g a - h a) l) = vsum (map g l) - vsum (map h l).
Proof. unfold vsum. induction l as [|a l IH]; cbn; [ring|]. rewrite IH. ring. Qed.

Lemma vsum_skip_outside (g : nat -> R) (i : nat) :
  forall n s, (i < s)%nat ->
    vsum (map (fun j => if (i =? j)%nat then 0 else g j) (seq s n)) = vsum (map g (seq s n)).
Proof.
  intros n s Hi. apply vsum_map_ext_in. intros j Hj. apply in_seq in Hj.
  destruct (Nat.eqb_spec i j); [lia | reflexivity].
Qed.

Lemma vsum_skip_diag (g : nat -> R) (i : nat) :
  forall n s, (s <= i < s + n)%nat ->
    vsum (map (fun j => if (i =? j)%nat then 0 else g j) (seq s n))
    = vsum (map g (seq s n)) - g i.
Proof.
  induction n as [|n IH]; intros s Hi; [lia|].
  cbn [seq map]. unfold vsum in *. cbn [fold_right].
  destruct (Nat.eqb_spec i s) as [E|E].
  - subst s. pose proof (vsum_skip_outside g i n (S i)) as Ho. unfold vsum in Ho.
    rewrite Ho by lia. ring.
  - rewrite IH by lia. ring.
Qed.

Lemma dot_by_index (k : nat) (u v : vec) :
  length u = k -> length v = k ->
  dot u v = vsum (map (fun f => nth f u 0 * nth f v 0) (seq 0 k)).
Proof.
  intros Hu Hv. unfold dot. rewrite vsum_nth.
  rewrite length_map, length_combine, Hu, Hv, Nat.min_id.
  apply vsum_map_ext_in. intros f Hf. apply in_seq in Hf.
  rewrite (nth_map_lt _ _ _ _ ((0, 0) : R * R))
    by (rewrite length_combine, Hu, Hv, Nat.min_id; lia).
  rewrite combine_nth by congruence. reflexivity.
Qed.

Variable a : nat -> nat -> R.
Variables n k : nat.

Let S_ (f : nat) : R := vsum (map (fun i => a i f) (seq 0 n)).
Let T_ (i j : nat) : R := vsum (map (fun f => a i f * a j f) (seq 0 k)).

Lemma off_diagonal_by_factor :
  vsum (map (fun i => vsum (map (fun j => if (i =? j)%nat then 0 else T_ i j) (seq 0 n)))
            (seq 0 n))
  = vsum (map (fun f => S_ f * S_ f - vsum (map (fun i => a i f * a i f) (seq 0 n)))
              (seq 0 k)).
Proof.
  rewrite (vsum_map_ext_in _ (fun i => vsum (map (fun j => T_ i j) (seq 0 n)) - T_ i i)).
  2:{ intros i Hi. apply in_seq in Hi. apply (vsum_skip_diag (fun j => T_ i j)). lia. }
  rewrite (vsum_map_minus (fun i => vsum (map (fun j => T_ i j) (seq 0 n)))
                          (fun i => T_ i i)).
  rewrite (vsum_map_minus (fun f => S_ f * S_ f)
                          (fun f => vsum (map (fun i => a i f * a i f) (seq 0 n)))).
  f_equal.
  - rewrite (vsum_map_ext _ (fun i => vsum (map (fun f => a i f * S_ f) (seq 0 k)))).
    2:{ intros i. unfold T_.
        rewrite (vsum_swap (fun j f => a i f * a j f) (seq 0 n) (seq 0 k)).
        apply vsum_map_ext. intros f. apply vsum_map_scale_l. }
    rewrite (vsum_swap (fun i f => a i f * S_ f) (seq 0 n) (seq 0 k)).
    apply vsum_map_ext. intros f. apply (vsum_map_scale_r (S_ f) (fun i => a i f)).
  - unfold T_. apply (vsum_swap (fun i f => a i f * a i f) (seq 0 n) (seq 0 k)).
Qed.

End LinearTime.

(** The sum over the latent components of the squared weighted sum of a
    component minus the sum of its squared weighted entries: [nf * k]
    products for a row of [nf] slots. *)
Definition factored_pair_sum (k : nat) (V : mat) (x : vec) : R :=
  vsum (map (fun f =>
               let s := vsum (map (fun i => nth f (nth i V []) 0 * nth i x 0)
                                  (seq 0 (length x))) in
               s * s - vsum (map (fun i => (nth f (nth i V []) 0 * nth i x 0)
                                           * (nth f (nth i V []) 0 * nth i x 0))
                                 (seq 0 (length x))))
            (seq 0 k)).

Lemma ordered_pair_sum_factored (k : nat) (V : mat) (x : vec) :
  length V = length x -> Forall (fun v => length v = k) V ->
  ordered_pair_sum V x = factored_pair_sum k V x.
Proof.
  intros Hl Hk. unfold factored_pair_sum. cbn zeta.
  rewrite <- (off_diagonal_by_factor (fun i f => nth f (nth i V []) 0 * nth i x 0)
                                     (length x) k).
  unfold ordered_pair_sum.
  apply vsum_map_ext_in. intros i Hi. apply in_seq in Hi.
  apply vsum_map_ext_in. intros j Hj. apply in_seq in Hj.
  destruct (i =? j)%nat; [reflexivity|].
  unfold pair_term.
  assert (Hrow : forall r, (r < length x)%nat -> length (nth r V []) = k).
  { intros r Hr. rewrite Forall_forall in Hk. apply Hk. apply nth_In.
    unfold mat, vec in *. lia. }
  rewrite (dot_by_index k) by (apply Hrow; lia).
  rewrite <- vsum_map_scale_r. apply vsum_map_ext. intros f. ring.
Qed.

(** X11.  For a batch with at least one row and one slot and with the mask
    built for it, the interaction term the code
    computes with [nf * nf] inner products per row equals, row by row, the
    sum over the latent components of the square of the weighted component
    sum minus the sum of the squared weighted components: the form that
    needs [nf * n_dim] products. *)
Theorem interaction_equals_factored_form (bs nf nd : nat) (val : mat) (vi : ten3) :
  (0 < bs)%nat -> (0 < nf)%nat ->
  has_shape2 bs nf val -> has_shape3 bs nf nd vi ->
  interaction val vi (build_mask bs nf)
  = Ok (map (fun p => factored_pair_sum nd (fst p) (snd p)) (combine vi val)).
Proof.
  intros Hbs Hnf Hval Hvi. rewrite (interaction_fresh_mask bs nf nd val vi Hbs Hnf Hval Hvi).
  f_equal. apply map_ext_in. intros [V x] Hin. cbn [fst snd].
  apply ordered_pair_sum_factored.
  - destruct Hval as [_ Hv]. destruct Hvi as [_ Hw].
    rewrite Forall_forall in Hv, Hw.
    pose proof (in_combine_l _ _ _ _ Hin) as HV.
    pose proof (in_combine_r _ _ _ _ Hin) as Hx.
    destruct (Hw V HV) as [HlV _]. exact (eq_trans HlV (eq_sym (Hv x Hx))).
  - destruct Hvi as [_ Hw]. rewrite Forall_forall in Hw.
    apply (Hw V). apply (in_combine_l _ _ _ _ Hin).
Qed.

Lemma interaction_equals_factored_form_witness :
  interaction [[1; 2]] [[[1; 0]; [1; 1]]] (build_mask 1 2)
  = Ok (map (fun p => factored_pair_sum 2 (fst p) (snd p))
            (combine [[[1; 0]; [1; 1]]] [[1; 2]])).
Proof.
  apply (interaction_equals_factored_form 1 2 2).
  - lia.
  - lia.
  - cbn. split; [reflexivity | repeat constructor].
  - cbn. split; [reflexivity|]. repeat constructor.
Defined.

(** ** The interaction flag *)

Definition with_intx_term (m : VFM) (b : bool) : VFM :=
  {| n_dim := n_dim m; n_features := n_features m;
     lambda0 := lambda0 m; lambda1 := lambda1 m; lambda2 := lambda2 m;
     intx_term := b; total_nobs := total_nobs m;
     bias_mu := bias_mu m; bias_lv := bias_lv m;
     slope_mu := slope_mu m; slope_lv := slope_lv m;
     prior_slope_mu := prior_slope_mu m; prior_slope_lv := prior_slope_lv m;
     latent_mu := latent_mu m; latent_lv := latent_lv m;
     prior_latent_mu := prior_latent_mu m; prior_latent_lv := prior_latent_lv m;
     _mask := _mask m |}.

Lemma forward_fst (val : mat) (loc : list (list nat)) (y is_test : vec)
      (lv_floor : R) (eps : Noise) (st : St) :
  fst (forward val loc y is_test lv_floor eps st)
  = match forward_logs (self st) val loc y is_test lv_floor eps
                       (data (fst (mask (shape0 val) (shape1 val) st))) with
    | Ok l => Ok (log_loss l)
    | Err e => Err e
    end.
Proof.
  unfold forward.
  pose proof (mask_self (shape0 val) (shape1 val) st) as Hs.
  destruct (mask (shape0 val) (shape1 val) st) as [mk st1]. cbn [fst snd] in *.
  rewrite Hs, forward_logs_set_mask.
  now destruct (forward_logs _ _ _ _ _ _ _ _).
Qed.

Lemma mask_data_with_self (bs nf : nat) (st : St) (m : VFM) :
  _mask m = _mask (self st) ->
  data (fst (mask bs nf (with_self st m))) = data (fst (mask bs nf st)).
Proof.
  intros H. unfold mask. cbn [self with_self next_id]. rewrite H.
  destruct (_mask (self st)) as [c|]; [|reflexivity].
  now destruct (negb _).
Qed.

Lemma izip_with_total_returned {A B C} (g : nat -> A -> B -> C) :
  forall (a : list A) (b : list B) i,
    returned (izip_with (fun i x y => Ok (g i x y)) i a b) = (length a =? length b)%nat.
Proof.
  induction a as [|x a IH]; intros [|y b] i; cbn; try reflexivity.
  specialize (IH b (S i)).
  destruct (izip_with _ (S i) a b); cbn in *; exact IH.
Qed.

Lemma mean_squared_error_returned (x0 x1 : vec) :
  returned (F.mean_squared_error x0 x1) = (length x0 =? length x1)%nat.
Proof.
  unfold F.mean_squared_error, zip_with.
  rewrite <- (izip_with_total_returned (fun _ a b => (a - b) * (a - b)) x0 x1 0).
  now destruct (izip_with _ 0 x0 x1).
Qed.

Lemma forward_slop_length (m : VFM) (val : mat) (loc : list (list nat)) (is_test : vec)
      (lv_floor : R) (eps : Noise) (slop : vec) :
  forward_slop m val loc is_test lv_floor eps = Ok slop -> length slop = length val.
Proof.
  unfold forward_slop. intros H.
  apply rbind_ok in H. destruct H as [coef [_ H]].
  apply rbind_ok in H. destruct H as [cv [Hcv H]]. injection H as <-.
  apply izip_with_length in Hcv. destruct Hcv as [E1 E2].
  rewrite length_map. congruence.
Qed.

Lemma tmul_const_length (p c q : ten3) : tmul_const p c = Ok q -> length q = length p.
Proof.
  unfold tmul_const. intros H. apply rbind_ok in H. destruct H as [c' [_ H]].
  apply izip_with_length in H. tauto.
Qed.

Lemma interaction_length (val : mat) (vi mk : ten3) (intx : vec) :
  interaction val vi mk = Ok intx -> length intx = length val.
Proof.
  unfold interaction. intros H.
  apply rbind_ok in H. destruct H as [g [Hg H]].
  apply batch_matmul_gram_inv in Hg. destruct Hg as [-> _].
  apply rbind_ok in H. destruct H as [o [Ho H]].
  apply batch_matmul_outer_inv in Ho. destruct Ho as [-> _].
  apply rbind_ok in H. destruct H as [p [Hp H]].
  apply rbind_ok in H. destruct H as [q [Hq H]]. injection H as <-.
  apply izip_with_length in Hp. destruct Hp as [E1 E2].
  apply tmul_const_length in Hq. rewrite !length_map in *. congruence.
Qed.

Lemma forward_logs_flag (m : VFM) (val : mat) (loc : list (list nat)) (y is_test : vec)
      (lv_floor : R) (eps : Noise) (mk : ten3) :
  returned (forward_logs (with_intx_term m true) val loc y is_test lv_floor eps mk)
  = returned (forward_logs (with_intx_term m false) val loc y is_test lv_floor eps mk)
  /\ (forall e, forward_intx m val loc is_test lv_floor eps mk = Err e ->
        returned (forward_logs (with_intx_term m false) val loc y is_test lv_floor eps mk)
        = false).
Proof.
  unfold forward_logs, forward_pred. cbn [intx_term with_intx_term].
  change (forward_bias (with_intx_term m true)) with (forward_bias m).
  change (forward_bias (with_intx_term m false)) with (forward_bias m).
  change (forward_slop (with_intx_term m true)) with (forward_slop m).
  change (forward_slop (with_intx_term m false)) with (forward_slop m).
  change (forward_intx (with_intx_term m true)) with (forward_intx m).
  change (forward_intx (with_intx_term m false)) with (forward_intx m).
  destruct (forward_bias m y is_test lv_floor eps) as [bias|e0] eqn:Hb;
    [|cbn; split; [reflexivity | auto]].
  destruct (forward_slop m val loc is_test lv_floor eps) as [slop|e1] eqn:Hs;
    [|cbn; split; [reflexivity | auto]].
  destruct (forward_intx m val loc is_test lv_floor eps mk) as [intx|e2] eqn:Hx;
    [|cbn; split; [reflexivity | auto]].
  cbn [rbind]. split; [|discriminate].
  destruct (vadd bias slop) as [pred|e3] eqn:Hp; [|reflexivity].
  cbn [rbind].
  apply forward_slop_length in Hs.
  unfold forward_intx in Hx. apply rbind_ok in Hx. destruct Hx as [vi [_ Hx]].
  apply interaction_length in Hx.
  apply izip_with_length in Hp. destruct Hp as [E1 E2].
  destruct (vadd_ok pred intx) as [pred' [Hp' Hl']]; [congruence|].
  rewrite Hp'. cbn [rbind].
  change (frac (with_intx_term m true) loc) with (frac m loc).
  change (frac (with_intx_term m false) loc) with (frac m loc).
  pose proof (mean_squared_error_returned pred' y) as R1.
  pose proof (mean_squared_error_returned pred y) as R2.
  rewrite Hl' in R1.
  destruct (F.mean_squared_error pred' y), (F.mean_squared_error pred y);
    cbn [rbind returned] in *; try congruence.
  destruct (frac m loc); reflexivity.
Qed.

(** X12.  The flag [intx_term] is read after the interaction term has been
    computed.  So a call returns with the flag off exactly when it returns
    with the flag on, and with the flag off it still raises whenever the
    interaction stage raises, though the stage's value is not used. *)
Theorem interaction_computed_whatever_the_flag
        (val : mat) (loc : list (list nat)) (y is_test : vec)
        (lv_floor : R) (eps : Noise) (st : St) :
  let on := with_self st (with_intx_term (self st) true) in
  let off := with_self st (with_intx_term (self st) false) in
  returned (fst (forward val loc y is_test lv_floor eps on))
  = returned (fst (forward val loc y is_test lv_floor eps off))
  /\ (forall e,
        forward_intx (self st) val loc is_test lv_floor eps
                     (data (fst (mask (shape0 val) (shape1 val) st))) = Err e ->
        returned (fst (forward val loc y is_test lv_floor eps off)) = false).
Proof.
  cbn zeta. rewrite !forward_fst. cbn [self with_self].
  rewrite !mask_data_with_self by reflexivity.
  destruct (forward_logs_flag (self st) val loc y is_test lv_floor eps
                              (data (fst (mask (shape0 val) (shape1 val) st)))) as [A B].
  split.
  - destruct (forward_logs (with_intx_term (self st) true) _ _ _ _ _ _ _),
             (forward_logs (with_intx_term (self st) false) _ _ _ _ _ _ _);
      cbn in *; congruence.
  - intros e He. specialize (B e He).
    destruct (forward_logs (with_intx_term (self st) false) _ _ _ _ _ _ _);
      cbn in *; congruence.
Qed.

Lemma interaction_computed_whatever_the_flag_witness :
  returned (fst (forward [[1; 1; 1]] [[0; 1; 2]%nat] [0] [0] (-100) unit_noise
                         (with_self (snd (mask 1 2 (fresh_state demo)))
                                    (with_intx_term
                                       (self (snd (mask 1 2 (fresh_state demo)))) false))))
  = false.
Proof.
  destruct (interaction_computed_whatever_the_flag
              [[1; 1; 1]] [[0; 1; 2]%nat] [0] [0] (-100) unit_noise
              (snd (mask 1 2 (fresh_state demo)))) as [_ H].
  apply (H ShapeMismatch). reflexivity.
Defined.

(** ** The prediction at the posterior means *)

Definition vplus (u v : vec) : vec := map (fun p => fst p + snd p) (combine u v).

(** The docstring's model for one row, at the means: the bias, the
    weighted sum of the slopes of the active features, and, when the
    interaction term is on, the sum over the ordered pairs of distinct
    slots of the inner product of their latent vectors times their values;
    slopes and latent vectors with the shared prior added. *)
Definition fm_row (m : VFM) (ix : list nat) (x : vec) : R :=
  let linear :=
    bias_mu m + dot (map (fun i => nth i (slope_mu m) 0 + prior_slope_mu m) ix) x in
  if intx_term m
  then linear
       + ordered_pair_sum
           (map (fun i => vplus (nth i (latent_mu m) []) (prior_latent_mu m)) ix) x
  else linear.

Section MeanPrediction.

Lemma izip_with_inv_map {A B C} (f : nat -> A -> B -> result C) (g : A -> B -> C) :
  (forall i x y z, f i x y = Ok z -> z = g x y) ->
  forall a b i r, izip_with f i a b = Ok r ->
                  r = map (fun p => g (fst p) (snd p)) (combine a b).
Proof.
  intros Hf. induction a as [|x a IH]; intros [|y b] i r H; cbn in H; try discriminate.
  - now injection H as <-.
  - apply rbind_ok in H. destruct H as [z [Hz H]].
    apply rbind_ok in H. destruct H as [r' [Hr H]]. injection H as <-.
    cbn. f_equal; [now apply (Hf i) | now apply (IH b (S i))].
Qed.

Lemma vadd_inv (u v r : vec) : vadd u v = Ok r -> r = vplus u v.
Proof.
  apply (izip_with_inv_map (fun _ => pure2 Rplus) Rplus).
  intros i x y z H. now injection H as <-.
Qed.

Lemma madd_inv (a b r : mat) :
  madd a b = Ok r -> r = map (fun p => vplus (fst p) (snd p)) (combine a b).
Proof.
  apply (izip_with_inv_map (fun _ => vadd) vplus). intros i x y z. apply vadd_inv.
Qed.

Lemma tadd_inv (a b r : ten3) :
  tadd a b = Ok r
  -> r = map (fun p => map (fun q => vplus (fst q) (snd q)) (combine (fst p) (snd p)))
             (combine a b).
Proof.
  apply (izip_with_inv_map (fun _ => madd)
                           (fun x y => map (fun q => vplus (fst q) (snd q)) (combine x y))).
  intros i x y z. apply madd_inv.
Qed.

Lemma mmul_rows_inv (a b r : mat) :
  mmul a b = Ok r -> map vsum r = map (fun p => dot (fst p) (snd p)) (combine a b).
Proof.
  intros H.
  apply (izip_with_inv_map (fun _ => vmul)
                           (fun u v => map (fun p => fst p * snd p) (combine u v))) in H.
  - subst r. rewrite map_map. reflexivity.
  - intros i x y z Hz.
    apply (izip_with_inv_map (fun _ => pure2 Rmult) Rmult) in Hz; [exact Hz|].
    intros j s t w Hw. now injection Hw as <-.
Qed.

Lemma embed_row_inv {X} (W : list X) (d : X) (ix : list nat) (r : list X) :
  F.embed_row W ix = Ok r -> r = map (fun i => nth i W d) ix.
Proof.
  revert r. induction ix as [|i ix IH]; intros r H.
  - cbn in H. now injection H as <-.
  - rewrite embed_row_cons in H. destruct (nth_error W i) as [w|] eqn:Hw; [|discriminate].
    apply rbind_ok in H. destruct H as [r' [Hr H]]. injection H as <-.
    cbn. f_equal; [|now apply IH]. symmetry. now apply nth_error_nth.
Qed.

Lemma EmbedID_inv {X} (W : list X) (d : X) (x : list (list nat)) (e : list (list X)) :
  F.EmbedID W x = Ok e -> e = map (map (fun i => nth i W d)) x.
Proof.
  revert e. induction x as [|ix x IH]; intros e H.
  - cbn in H. now injection H as <-.
  - rewrite EmbedID_cons in H.
    apply rbind_ok in H. destruct H as [row [Hrow H]].
    apply rbind_ok in H. destruct H as [e' [He H]]. injection H as <-.
    cbn. f_equal; [now apply embed_row_inv | now apply IH].
Qed.

Lemma combine_repeat_r {X Y} (l : list X) (c : Y) :
  combine l (repeat c (length l)) = map (fun a => (a, c)) l.
Proof. induction l as [|a l IH]; cbn; [reflexivity|]. now rewrite IH. Qed.

Lemma combine_repeat_l {X Y} (l : list X) (c : Y) :
  combine (repeat c (length l)) l = map (fun a => (c, a)) l.
Proof. induction l as [|a l IH]; cbn; [reflexivity|]. now rewrite IH. Qed.

Lemma combine_map_l {X Y Z} (h : X -> Z) (l : list X) (l' : list Y) :
  combine (map h l) l' = map (fun p => (h (fst p), snd p)) (combine l l').
Proof.
  revert l'. induction l as [|a l IH]; intros [|b l']; cbn; try reflexivity.
  now rewrite IH.
Qed.

Lemma combine_map_same {X Y Z} (g : X -> Y) (h : X -> Z) (l : list X) :
  combine (map g l) (map h l) = map (fun a => (g a, h a)) l.
Proof. induction l as [|a l IH]; cbn; [reflexivity|]. now rewrite IH. Qed.

Lemma vplus_repeat (u : vec) (c : R) :
  vplus u (repeat c (length u)) = map (fun a => a + c) u.
Proof. unfold vplus. rewrite combine_repeat_r, map_map. reflexivity. Qed.

Variable m : VFM.
Variables (val : mat) (loc : list (list nat)).

Let bs := shape0 val.
Let nf := shape1 val.

Hypothesis Hwf : wf_model m.
Hypothesis Hloc : has_shape2 bs nf loc.

Lemma sl_mu_value (coef : mat) :
  sl_mu m val loc = Ok coef ->
  coef = map (map (fun i => nth i (slope_mu m) 0 + prior_slope_mu m)) loc.
Proof.
  unfold sl_mu. intros H. apply rbind_ok in H. destruct H as [e [He H]].
  apply (EmbedID_inv _ 0) in He. apply madd_inv in H. subst e coef.
  destruct Hloc as [Hl Hr]. unfold F.broadcast_to_m.
  fold bs nf. rewrite <- Hl, <- (length_map (map (fun i => nth i (slope_mu m) 0)) loc).
  rewrite combine_repeat_r, !map_map. cbn [fst snd].
  apply map_ext_in. intros ix Hix. rewrite Forall_forall in Hr.
  rewrite <- (Hr ix Hix), <- (length_map (fun i => nth i (slope_mu m) 0) ix).
  rewrite vplus_repeat, map_map. reflexivity.
Qed.

Lemma vi_mu_value (vi : ten3) :
  vi_mu m val loc = Ok vi ->
  vi = map (map (fun i => vplus (nth i (latent_mu m) []) (prior_latent_mu m))) loc.
Proof.
  unfold vi_mu, F.broadcast_to_t, bcast. intros H.
  destruct Hwf as [_ [_ [_ [_ [Hp _]]]]].
  apply Nat.eqb_eq in Hp. rewrite Hp in H. cbn [rbind] in H.
  apply rbind_ok in H. destruct H as [e [He H]].
  apply (EmbedID_inv _ ([] : vec)) in He. apply tadd_inv in H. subst e vi.
  destruct Hloc as [Hl Hr]. fold bs nf.
  rewrite <- Hl, <- (length_map (map (fun i => nth i (latent_mu m) ([] : vec))) loc).
  rewrite combine_repeat_r, !map_map. cbn [fst snd].
  apply map_ext_in. intros ix Hix. rewrite Forall_forall in Hr.
  rewrite <- (Hr ix Hix), <- (length_map (fun i => nth i (latent_mu m) ([] : vec)) ix).
  rewrite combine_repeat_r, !map_map. reflexivity.
Qed.

End MeanPrediction.

(** X13.  On the first call of a model, for a valid call (a batch with at
    least one row and one slot whose arrays agree in shape and whose
    indices are in range), with every draw equal to zero,
    the prediction of each row is the factorization-machine formula of the
    docstring at the posterior means: bias plus weighted slopes plus the
    pairwise interactions of distinct slots, every ordered pair counted. *)
Theorem mean_prediction_is_factorization_machine
        (m : VFM) (val : mat) (loc : list (list nat)) (y is_test : vec) (lv_floor : R) :
  _mask m = None ->
  valid_call (fresh_state m) val loc y is_test ->
  forward_pred m val loc y is_test lv_floor no_noise
               (data (fst (mask (shape0 val) (shape1 val) (fresh_state m))))
  = Ok (map (fun p => fm_row m (fst p) (snd p)) (combine loc val)).
Proof.
  intros Hnone Hv.
  destruct (interaction_first_call m val loc y is_test lv_floor no_noise Hnone Hv)
    as [vi [Hvi [Hx _]]].
  destruct Hv as [Hwf [Hval [Hloc [Hy [Ht [Hix [_ [Hbs [Hnf _]]]]]]]]].
  cbn [self fresh_state] in *.
  destruct (forward_pred_ok m val loc y is_test lv_floor no_noise
              (build_mask (shape0 val) (shape1 val)) Hwf Hval Hloc Hy Ht Hix
              (build_mask_shape _ _) Hbs Hnf) as [pred0 [Hp0 _]].
  rewrite mask_miss in * by (unfold cache_miss; cbn; now rewrite Hnone).
  cbn [fst data] in *.
  rewrite Hp0. f_equal.
  unfold forward_pred in Hp0.
  apply rbind_ok in Hp0. destruct Hp0 as [bias [Hb Hp0]].
  apply rbind_ok in Hp0. destruct Hp0 as [slop [Hs Hp0]].
  apply rbind_ok in Hp0. destruct Hp0 as [intx [Hi Hp0]].
  apply rbind_ok in Hp0. destruct Hp0 as [lin [Hl Hp0]].
  apply bias_zero_draws in Hb.
  unfold forward_slop in Hs.
  apply rbind_ok in Hs. destruct Hs as [coef [Hc Hs]].
  apply rbind_ok in Hs. destruct Hs as [cv [Hcv Hs]]. injection Hs as <-.
  apply coef_zero_draws in Hc. apply (sl_mu_value m val loc Hloc) in Hc.
  apply mmul_rows_inv in Hcv.
  apply vi_zero_draws in Hvi. apply (vi_mu_value m val loc Hwf Hloc) in Hvi.
  assert (H : intx = map (fun p => ordered_pair_sum (fst p) (snd p)) (combine vi val))
    by congruence.
  apply vadd_inv in Hl.
  assert (Hlen : length y = length (combine loc val)).
  { rewrite length_combine. destruct Hloc as [Hll _].
    unfold shape0 in *. unfold mat, vec in *. rewrite Hll, Nat.min_id. exact Hy. }
  assert (Elin : lin = map (fun p : list nat * vec =>
                              bias_mu m
                              + dot (map (fun i => nth i (slope_mu m) 0 + prior_slope_mu m)
                                         (fst p)) (snd p))
                           (combine loc val)).
  { subst lin bias coef. rewrite Hcv. unfold bs_mu, F.broadcast_to_v, vplus.
    rewrite combine_map_l, Hlen.
    rewrite <- (length_map (fun p : list nat * vec =>
                              dot (fst (map (fun i => nth i (slope_mu m) 0 + prior_slope_mu m)
                                            (fst p), snd p))
                                  (snd (map (fun i => nth i (slope_mu m) 0 + prior_slope_mu m)
                                            (fst p), snd p)))
                           (combine loc val)).
    rewrite map_map, combine_repeat_l, !map_map. reflexivity. }
  unfold fm_row. cbn zeta. destruct (intx_term m).
  - apply vadd_inv in Hp0. subst vi. rewrite combine_map_l, map_map in H.
    subst pred0 intx. rewrite Elin.
    unfold vplus at 1. rewrite combine_map_same, map_map.
    reflexivity.
  - injection Hp0 as <-. exact Elin.
Qed.

Lemma mean_prediction_is_factorization_machine_witness :
  forward_pred demo [[1; 1]] [[0; 1]%nat] [0] [1] (-100) no_noise
               (data (fst (mask 1 2 (fresh_state demo))))
  = Ok (map (fun p => fm_row demo (fst p) (snd p)) (combine [[0; 1]%nat] [[1; 1]])).
Proof.
  apply (mean_prediction_is_factorization_machine demo [[1; 1]] [[0; 1]%nat] [0] [1] (-100)).
  - reflexivity.
  - unfold valid_call, has_shape2. cbn.
    repeat split; try reflexivity; repeat constructor; try discriminate; try lra.
Defined.

(** ** What a cache miss builds *)

(** X14.  When the cache is empty or holds a tensor of another leading
    extent, [mask] allocates a new object, caches it and returns it.  The
    object has shape [(bs, nf, nf)], and every one of its [bs] slices is
    zero on the diagonal and one everywhere else. *)
Theorem mask_miss_builds_off_diagonal_ones (bs nf : nat) (st : St) :
  cache_miss (self st) bs = true ->
  let r := mask bs nf st in
  id (fst r) = next_id st
  /\ next_id (snd r) = S (next_id st)
  /\ _mask (self (snd r)) = Some (fst r)
  /\ has_shape3 bs nf nf (data (fst r))
  /\ forall b i j, (b < bs)%nat -> (i < nf)%nat -> (j < nf)%nat ->
       nth j (nth i (nth b (data (fst r)) []) []) 0 = if (i =? j)%nat then 0 else 1.
Proof.
  intros Hm r. subst r.
  destruct (mask_on_miss bs nf st Hm) as [Hs He].
  split; [now rewrite (mask_miss bs nf st Hm)|].
  split; [now rewrite (mask_miss bs nf st Hm)|].
  split; [apply mask_post|].
  split; assumption.
Qed.

Lemma mask_miss_builds_off_diagonal_ones_witness :
  has_shape3 2 3 3 (data (fst (mask 2 3 (fresh_state demo))))
  /\ nth 1 (nth 1 (nth 0 (data (fst (mask 2 3 (fresh_state demo)))) []) []) 0 = 0
  /\ nth 2 (nth 1 (nth 0 (data (fst (mask 2 3 (fresh_state demo)))) []) []) 0 = 1.
Proof.
  destruct (mask_miss_builds_off_diagonal_ones 2 3 (fresh_state demo)) as [_ [_ [_ [Hs He]]]].
  - reflexivity.
  - split; [exact Hs|]. split.
    + apply (He 0%nat 1%nat 1%nat); lia.
    + apply (He 0%nat 1%nat 2%nat); lia.
Defined.

(** ** Runs of batches of one shape *)

(** X15.  On a model whose cache is empty, after any run of calls whose
    batches all have [n] rows and [f] slots, the mask a further call for
    that shape obtains is the one built for [(n, f)]: with batches of one
    shape the cached mask is never a stale one. *)
Theorem constant_shape_run_gets_the_right_mask (bs : list Batch) (st : St) (n f : nat) :
  _mask (self st) = None ->
  Forall (fun b => shape0 (b_val b) = n /\ shape1 (b_val b) = f) bs ->
  data (fst (mask n f (snd (calls bs st)))) = build_mask n f.
Proof.
  intros Hnone Hall.
  assert (Inv : forall l s,
             Forall (fun b => shape0 (b_val b) = n /\ shape1 (b_val b) = f) l ->
             (forall c, _mask (self s) = Some c -> data c = build_mask n f) ->
             forall c, _mask (self (snd (calls l s))) = Some c -> data c = build_mask n f).
  { induction l as [|b l IH]; intros s Hl Hs c Hc; [now apply Hs|].
    rewrite calls_cons in Hc. cbn [snd] in Hc.
    inversion Hl as [|? ? [Hn Hf] Hl']; subst.
    apply (IH (snd (call b s))); [assumption| |assumption].
    intros c1 Hc1. unfold call, __call__ in Hc1.
    destruct (forward_cache_step (b_val b) (b_loc b) (b_y b) (b_is_test b)
                                 lv_floor_default (b_eps b) s) as [c0 [Hc0 Hor]].
    assert (c1 = c0) by congruence. subst c0.
    destruct Hor as [[Ho _] | [Ho _]]; [now apply Hs|]. now subst c1. }
  destruct (cache_miss (self (snd (calls bs st))) n) eqn:Hm.
  - now rewrite (mask_miss n f _ Hm).
  - unfold cache_miss in Hm.
    destruct (_mask (self (snd (calls bs st)))) as [c|] eqn:Ec; [|discriminate].
    apply negb_false_iff, Nat.eqb_eq in Hm.
    rewrite (mask_hit n f _ c Ec Hm). cbn [fst].
    apply (Inv bs st Hall); [|exact Ec].
    intros c0 Hc0. congruence.
Qed.

Lemma constant_shape_run_gets_the_right_mask_witness :
  data (fst (mask 1 2 (snd (calls [demo_batch; demo_batch] (fresh_state demo)))))
  = build_mask 1 2.
Proof.
  apply (constant_shape_run_gets_the_right_mask [demo_batch; demo_batch] (fresh_state demo)).
  - reflexivity.
  - repeat constructor.
Defined.

(** ** Degenerate calls *)

Lemma forward_never_returns (val : mat) (loc : list (list nat)) (y is_test : vec)
      (lv_floor : R) (eps : Noise) (st : St) :
  total_nobs (self st) = 0 \/ shape0 val = 0%nat \/ shape1 val = 0%nat ->
  exists e, forward val loc y is_test lv_floor eps st
            = (Err e, snd (mask (shape0 val) (shape1 val) st)).
Proof.
  intros Hdeg.
  destruct (forward val loc y is_test lv_floor eps st) as [[loss|e] st'] eqn:H.
  - apply forward_returns_nondegenerate in H. destruct H as [H0 [H1 H2]].
    destruct Hdeg as [D | [D | D]]; [contradiction | lia | lia].
  - exists e. apply forward_raises_state in H. now subst st'.
Qed.

(** X16.  With [total_nobs] equal to zero no call returns.  A call whose
    prediction and mean squared error are computed raises the division
    error at the batch fraction; the state is the one [mask] left, so
    nothing has been reported. *)
Theorem zero_total_nobs_raises
        (val : mat) (loc : list (list nat)) (y is_test : vec)
        (lv_floor : R) (eps : Noise) (st : St) :
  total_nobs (self st) = 0 ->
  (exists e, forward val loc y is_test lv_floor eps st
             = (Err e, snd (mask (shape0 val) (shape1 val) st)))
  /\ (forall pred mse,
         forward_pred (self st) val loc y is_test lv_floor eps
                      (data (fst (mask (shape0 val) (shape1 val) st))) = Ok pred ->
         F.mean_squared_error pred y = Ok mse ->
         forward val loc y is_test lv_floor eps st
         = (Err ZeroDivisionError, snd (mask (shape0 val) (shape1 val) st)))
  /\ reported (snd (forward val loc y is_test lv_floor eps st)) = reported st.
Proof.
  intros Hz.
  destruct (forward_never_returns val loc y is_test lv_floor eps st (or_introl Hz))
    as [e He].
  split; [now exists e|]. split.
  - intros pred mse Hp Hm. unfold forward.
    pose proof (mask_self (shape0 val) (shape1 val) st) as Hs.
    destruct (mask (shape0 val) (shape1 val) st) as [mk st1]. cbn [fst snd] in *.
    rewrite Hs, forward_logs_set_mask. unfold forward_logs.
    rewrite Hp. cbn [rbind]. rewrite Hm. cbn [rbind].
    unfold frac. rewrite Hz, true_div_zero. reflexivity.
  - rewrite He. cbn [snd]. apply (mask_frame (shape0 val) (shape1 val) st).
Qed.

Lemma zero_total_nobs_raises_witness :
  forward [[1; 1]] [[0; 1]%nat] [0] [0] (-100) unit_noise
          (fresh_state (with_total_nobs demo 0))
  = (Err ZeroDivisionError, snd (mask 1 2 (fresh_state (with_total_nobs demo 0)))).
Proof.
  destruct (zero_total_nobs_raises [[1; 1]] [[0; 1]%nat] [0] [0] (-100) unit_noise
                                   (fresh_state (with_total_nobs demo 0))) as [_ [H _]].
  - reflexivity.
  - eapply H; reflexivity.
Defined.

(** X17.  On a batch without slots no call returns.  A call whose bias,
    slope sum and latent vectors are computed raises in the batched
    matrix products, before the flag [intx_term] is read; the state is the
    one [mask] left. *)
Theorem batch_without_slots_raises
        (val : mat) (loc : list (list nat)) (y is_test : vec)
        (lv_floor : R) (eps : Noise) (st : St) :
  shape1 val = 0%nat ->
  (exists e, forward val loc y is_test lv_floor eps st
             = (Err e, snd (mask (shape0 val) (shape1 val) st)))
  /\ (forall bias slop vi,
         forward_bias (self st) y is_test lv_floor eps = Ok bias ->
         forward_slop (self st) val loc is_test lv_floor eps = Ok slop ->
         forward_vi (self st) val loc is_test lv_floor eps = Ok vi ->
         forward val loc y is_test lv_floor eps st
         = (Err ShapeMismatch, snd (mask (shape0 val) (shape1 val) st))).
Proof.
  intros Hz. split.
  - apply forward_never_returns. auto.
  - intros bias slop vi Hb Hs Hv. unfold forward.
    pose proof (mask_self (shape0 val) (shape1 val) st) as Hm.
    destruct (mask (shape0 val) (shape1 val) st) as [mk st1]. cbn [fst snd] in *.
    rewrite Hm, forward_logs_set_mask. unfold forward_logs, forward_pred, forward_intx.
    rewrite Hb. cbn [rbind]. rewrite Hs. cbn [rbind]. rewrite Hv. cbn [rbind].
    unfold interaction, F.batch_matmul_gram, F.batch_matmul_outer.
    assert (Hn : F.no_slots val = true).
    { unfold F.no_slots. rewrite Hz. apply orb_true_r. }
    rewrite Hn. destruct (F.no_slots vi); reflexivity.
Qed.

Lemma batch_without_slots_raises_witness :
  forward [[]] [[]] [0] [0] (-100) unit_noise (fresh_state demo)
  = (Err ShapeMismatch, snd (mask 1 0 (fresh_state demo))).
Proof.
  destruct (batch_without_slots_raises [[]] [[]] [0] [0] (-100) unit_noise
                                       (fresh_state demo)) as [_ H].
  - reflexivity.
  - eapply H; reflexivity.
Defined.
